(** * CartPole: physics integrator, policy network and REINFORCE trainer

    A shallow embedding of [src/app/page.tsx].  The program computes with
    JavaScript numbers (IEEE 754 binary64).  Its functions are written here
    once, over an interface of the arithmetic the source uses, and read at
    two instances:

    - [float], Rocq's primitive binary64 numbers, where [+ - * /] and the
      comparisons are bit-exact and the definitions run ([vm_compute]);
    - [R], the real numbers, the exact arithmetic the program approximates,
      where [Math.exp], [Math.tanh], [Math.sin] and [Math.cos] are available
      and the analytic properties are stated. *)

From Stdlib Require Import ZArith List Bool Lia Reals Lra Floats.
Import ListNotations.

Set Implicit Arguments.

(** ** The numbers of the source *)

(** Arithmetic of a JavaScript number.  [num_undef] is what an array read
    past the end (JavaScript's [undefined]) becomes once it enters an
    arithmetic operation. *)
Class Arith (T : Type) : Type := {
  num_of_Z : Z -> T;
  num_add : T -> T -> T;
  num_sub : T -> T -> T;
  num_mul : T -> T -> T;
  num_div : T -> T -> T;
  num_ltb : T -> T -> bool;
  num_max : T -> T -> T;
  num_abs : T -> T;
  num_undef : T
}.

(** The functions of [Math] the source calls besides [max] and [abs]. *)
Class Transcendental (T : Type) : Type := {
  num_exp : T -> T;
  num_tanh : T -> T;
  num_sin : T -> T;
  num_cos : T -> T;
  num_pi : T
}.

Declare Scope num_scope.
Delimit Scope num_scope with num.
Notation "x + y" := (num_add x y) : num_scope.
Notation "x - y" := (num_sub x y) : num_scope.
Notation "x * y" := (num_mul x y) : num_scope.
Notation "x / y" := (num_div x y) : num_scope.
Notation "x <? y" := (num_ltb x y) : num_scope.
Notation "x >? y" := (num_ltb y x) : num_scope.

(** ** Loops and arrays *)

(** [for (let i = 0; i < n; i += 1) s = body i s]. *)
Fixpoint for_upto {St : Type} (n : nat) (body : nat -> St -> St) (s : St) : St :=
  match n with
  | O => s
  | S n' => body n' (for_upto n' body s)
  end.

(** [l.map((x, index) => f x index)], the index counted from [i]. *)
Fixpoint mapi_from {A B : Type} (f : A -> nat -> B) (i : nat) (l : list A) : list B :=
  match l with
  | [] => []
  | x :: r => f x i :: mapi_from f (S i) r
  end.

Definition mapi {A B : Type} (f : A -> nat -> B) (l : list A) : list B :=
  mapi_from f 0 l.

Section Program.

Context {T : Type} {AT : Arith T}.

Local Open Scope num_scope.

(** [l[i]] read as a number. *)
Definition get (l : list T) (i : nat) : T := nth i l num_undef.

(** [l[i] = v]: a write past the end extends the array, the skipped slots
    reading as [undefined]. *)
Fixpoint arr_set (l : list T) (i : nat) (v : T) : list T :=
  match i, l with
  | O, [] => [v]
  | O, _ :: r => v :: r
  | S i', [] => num_undef :: arr_set [] i' v
  | S i', x :: r => x :: arr_set r i' v
  end.

(** The decimal literal [n/d] (as [0.02] is [2/100]).  In binary64 the
    quotient of two exactly represented integers is rounded once, to the
    same number the literal denotes. *)
Definition dec (n d : Z) : T := num_of_Z n / num_of_Z d.

(** ** Data model *)

Record CartPoleState : Type := {
  x : T;
  xDot : T;
  theta : T;
  thetaDot : T
}.

Record NetworkParams : Type := {
  W1 : list T;
  b1 : list T;
  W2 : list T;
  b2 : list T
}.

Record PolicyStep : Type := {
  state : list T;
  hidden : list T;
  probs : list T;
  actionIndex : Z;
  reward : T
}.

(** ** Constants *)

Definition gravity : T := dec 98 10.
Definition massCart : T := num_of_Z 1.
Definition massPole : T := dec 1 10.
Definition totalMass : T := massCart + massPole.
(** [length] in the source. *)
Definition poleLength : T := dec 5 10.
Definition poleMassLength : T := massPole * poleLength.
Definition forceMag : T := num_of_Z 10.
Definition tau : T := dec 2 100.
Definition trackLimit : T := dec 24 10.

Definition inputSize : nat := 4.
Definition hiddenSize : nat := 8.
Definition outputSize : nat := 2.

Definition learningRate : T := dec 2 100.
Definition discountFactor : T := dec 99 100.

Definition stateToVector (s : CartPoleState) : list T :=
  [x s; xDot s; theta s; thetaDot s].

(** ** ActionSelector *)

(** The loop of [sampleActionIndex] from index [i] on, [cumulative] being
    the mass accumulated so far; [None] when the loop runs off the end. *)
Fixpoint sampleLoop (r cumulative : T) (i : nat) (probabilities : list T) : option nat :=
  match probabilities with
  | [] => None
  | p :: rest =>
      let cumulative := cumulative + p in
      if r <? cumulative then Some i else sampleLoop r cumulative (S i) rest
  end.

(** [sampleActionIndex], the draw [r] of [Math.random()] made an argument. *)
Definition sampleActionIndex (r : T) (probabilities : list T) : Z :=
  match sampleLoop r (num_of_Z 0) 0 probabilities with
  | Some i => Z.of_nat i
  | None => (Z.of_nat (length probabilities) - 1)%Z
  end.

(** ** Trainer *)

Record Gradients : Type := {
  gradW1 : list T;
  gradb1 : list T;
  gradW2 : list T;
  gradb2 : list T
}.

(** Stands for [trajectory[t]] with [t] out of range, which no loop reads. *)
Definition noStep : PolicyStep :=
  {| state := []; hidden := []; probs := []; actionIndex := 0; reward := num_undef |}.

(** The backward loop over the trajectory that fills [returns], after its
    first [k] iterations ([t] from [n - 1] down to [n - k]): the running
    [discounted] and the array. *)
Definition returnsLoop (trajectory : list PolicyStep) (k : nat) : T * list T :=
  let n := length trajectory in
  for_upto k
    (fun k '(discounted, returns) =>
       let t := (n - 1 - k)%nat in
       let discounted := reward (nth t trajectory noStep) + discountFactor * discounted in
       (discounted, arr_set returns t discounted))
    (num_of_Z 0, repeat (num_of_Z 0) n).

Definition computeReturns (trajectory : list PolicyStep) : list T :=
  snd (returnsLoop trajectory (length trajectory)).

(** The body of the loop over the steps of the episode: the gradients of
    one step added to the accumulators. *)
Definition stepGradients (params : NetworkParams) (step : PolicyStep) (advantage : T)
    (g : Gradients) : Gradients :=
  let '(delta2, gb2, gW2) :=
    for_upto outputSize
      (fun o '(delta2, gb2, gW2) =>
         let indicator := if Z.eqb (actionIndex step) (Z.of_nat o) then num_of_Z 1 else num_of_Z 0 in
         let delta2 := arr_set delta2 o ((indicator - get (probs step) o) * advantage) in
         let gb2 := arr_set gb2 o (get gb2 o + get delta2 o) in
         let gW2 :=
           for_upto hiddenSize
             (fun h gW2 =>
                arr_set gW2 (o * hiddenSize + h)
                  (get gW2 (o * hiddenSize + h) + get delta2 o * get (hidden step) h))
             gW2 in
         (delta2, gb2, gW2))
      (repeat num_undef outputSize, gradb2 g, gradW2 g) in
  let '(_, gb1, gW1) :=
    for_upto hiddenSize
      (fun h '(delta1, gb1, gW1) =>
         let sum :=
           for_upto outputSize
             (fun o sum => sum + get (W2 params) (o * hiddenSize + h) * get delta2 o)
             (num_of_Z 0) in
         let delta1 :=
           arr_set delta1 h ((num_of_Z 1 - get (hidden step) h * get (hidden step) h) * sum) in
         let gb1 := arr_set gb1 h (get gb1 h + get delta1 h) in
         let gW1 :=
           for_upto inputSize
             (fun i gW1 =>
                arr_set gW1 (h * inputSize + i)
                  (get gW1 (h * inputSize + i) + get delta1 h * get (state step) i))
             gW1 in
         (delta1, gb1, gW1))
      (repeat (num_of_Z 0) hiddenSize, gradb1 g, gradW1 g) in
  {| gradW1 := gW1; gradb1 := gb1; gradW2 := gW2; gradb2 := gb2 |}.

(** The gradients accumulated over the whole episode. *)
Definition episodeGradients (params : NetworkParams) (trajectory : list PolicyStep) : Gradients :=
  let returns := computeReturns trajectory in
  for_upto (length trajectory)
    (fun t g => stepGradients params (nth t trajectory noStep) (get returns t) g)
    {| gradW1 := repeat (num_of_Z 0) (hiddenSize * inputSize);
       gradb1 := repeat (num_of_Z 0) hiddenSize;
       gradW2 := repeat (num_of_Z 0) (outputSize * hiddenSize);
       gradb2 := repeat (num_of_Z 0) outputSize |}.

Definition updateScale (trajectory : list PolicyStep) : T :=
  learningRate / num_max (num_of_Z 1) (num_of_Z (Z.of_nat (length trajectory))).

Definition trainOnEpisode (params : NetworkParams) (trajectory : list PolicyStep) : NetworkParams :=
  if Nat.eqb (length trajectory) 0 then params
  else
    let g := episodeGradients params trajectory in
    let scale := updateScale trajectory in
    {| W1 := mapi (fun weight index => weight + scale * get (gradW1 g) index) (W1 params);
       b1 := mapi (fun bias index => bias + scale * get (gradb1 g) index) (b1 params);
       W2 := mapi (fun weight index => weight + scale * get (gradW2 g) index) (W2 params);
       b2 := mapi (fun bias index => bias + scale * get (gradb2 g) index) (b2 params) |}.

(** ** PolicyNetwork and PhysicsEngine *)

Context {TT : Transcendental T}.

Definition angleLimit : T := (num_of_Z 12 * num_pi) / num_of_Z 180.

Definition forwardHidden (params : NetworkParams) (inputVector : list T) : list T :=
  for_upto hiddenSize
    (fun i hidden =>
       let sum :=
         for_upto inputSize
           (fun j sum => sum + get (W1 params) (i * inputSize + j) * get inputVector j)
           (get (b1 params) i) in
       arr_set hidden i (num_tanh sum))
    (repeat num_undef hiddenSize).

Definition forwardLogits (params : NetworkParams) (hidden : list T) : list T :=
  for_upto outputSize
    (fun o logits =>
       let sum :=
         for_upto hiddenSize
           (fun h sum => sum + get (W2 params) (o * hiddenSize + h) * get hidden h)
           (get (b2 params) o) in
       arr_set logits o sum)
    (repeat num_undef outputSize).

(** [Math.max(...logits)] of the two logits, then the exponentials with
    [denom] accumulated in the order of the [map]. *)
Definition softmax (logits : list T) : list T :=
  let maxLogit := num_max (get logits 0) (get logits 1) in
  let exps := map (fun logit => num_exp (logit - maxLogit)) logits in
  let denom := fold_left num_add exps (num_of_Z 0) in
  map (fun value => value / denom) exps.

Definition forwardNetwork (params : NetworkParams) (inputVector : list T) : list T * list T :=
  let hidden := forwardHidden params inputVector in
  let logits := forwardLogits params hidden in
  (hidden, softmax logits).

Definition stepCartPole (s : CartPoleState) (action : Z) : CartPoleState * bool :=
  let force := num_of_Z action * forceMag in
  let cosTheta := num_cos (theta s) in
  let sinTheta := num_sin (theta s) in
  let temp := (force + poleMassLength * thetaDot s * thetaDot s * sinTheta) / totalMass in
  let thetaAcc :=
    (gravity * sinTheta - cosTheta * temp) /
    (poleLength * (num_of_Z 4 / num_of_Z 3 - (massPole * cosTheta * cosTheta) / totalMass)) in
  let xAcc := temp - (poleMassLength * thetaAcc * cosTheta) / totalMass in
  let nextState :=
    {| x := x s + tau * xDot s;
       xDot := xDot s + tau * xAcc;
       theta := theta s + tau * thetaDot s;
       thetaDot := thetaDot s + tau * thetaAcc |} in
  let done :=
    (num_abs (x nextState) >? trackLimit) || (num_abs (theta nextState) >? angleLimit) in
  (nextState, done).

(** The record [loop] pushes on the trajectory in neural mode, for the
    sampled [actionIndex]. *)
Definition recordStep (params : NetworkParams) (stateVector : list T) (actionIndex : Z) : PolicyStep :=
  let '(hidden, probs) := forwardNetwork params stateVector in
  {| state := stateVector;
     hidden := hidden;
     probs := probs;
     actionIndex := actionIndex;
     reward := num_of_Z 1 |}.

End Program.

Arguments CartPoleState T : clear implicits.
Arguments NetworkParams T : clear implicits.
Arguments PolicyStep T : clear implicits.
Arguments Gradients T : clear implicits.

(** ** Orchestrator: episode metrics *)

(** The five counters are JavaScript numbers that only ever hold
    non-negative integers (they start at 0 and grow by 1), exact below
    2^53; they are integers here. *)
Record EpisodeMetrics : Type := {
  steps : Z;
  totalReward : Z;
  episodes : Z;
  best : Z;
  last : Z
}.

Definition initialMetrics : EpisodeMetrics :=
  {| steps := 0; totalReward := 0; episodes := 0; best := 0; last := 0 |}.

(** The updater passed to [setMetrics] in the [done] branch of [loop]. *)
Definition metricsOnDone (prev : EpisodeMetrics) : EpisodeMetrics :=
  let finishedSteps := (steps prev + 1)%Z in
  {| steps := 0;
     totalReward := 0;
     episodes := episodes prev + 1;
     best := Z.max (best prev) finishedSteps;
     last := finishedSteps |}.

(** The updater of the other branch of [loop]. *)
Definition metricsOnStep (prev : EpisodeMetrics) : EpisodeMetrics :=
  {| steps := steps prev + 1;
     totalReward := totalReward prev + 1;
     episodes := episodes prev;
     best := best prev;
     last := last prev |}.

(** The updater of [handleReset]. *)
Definition metricsOnReset (prev : EpisodeMetrics) : EpisodeMetrics :=
  {| steps := 0;
     totalReward := 0;
     episodes := episodes prev;
     best := best prev;
     last := last prev |}.

(** One change of the metrics: a tick of [loop] (terminal or not, as
    [stepCartPole] decides) or a manual reset. *)
Inductive metricsStep : EpisodeMetrics -> EpisodeMetrics -> Prop :=
| tick_done : forall m, metricsStep m (metricsOnDone m)
| tick_alive : forall m, metricsStep m (metricsOnStep m)
| manual_reset : forall m, metricsStep m (metricsOnReset m).

Inductive reachable : EpisodeMetrics -> Prop :=
| reach_init : reachable initialMetrics
| reach_step : forall m m', reachable m -> metricsStep m m' -> reachable m'.

(** ** The two readings of the numbers *)

Definition Rltb (a b : R) : bool := if Rlt_dec a b then true else false.

(** Exact real arithmetic.  There is no [undefined] among the reals: the
    theorems stated at this instance either assume the array shapes that
    keep every read in range or hold whatever is read. *)
#[export] Instance Arith_R : Arith R := {|
  num_of_Z := IZR;
  num_add := Rplus;
  num_sub := Rminus;
  num_mul := Rmult;
  num_div := Rdiv;
  num_ltb := Rltb;
  num_max := Rmax;
  num_abs := Rabs;
  num_undef := 0%R
|}.

#[export] Instance Transcendental_R : Transcendental R := {|
  num_exp := exp;
  num_tanh := tanh;
  num_sin := sin;
  num_cos := cos;
  num_pi := PI
|}.

(** An integer literal or an array length as a binary64 number (exact
    below 2^53). *)
Definition float_of_Z (z : Z) : float :=
  match z with
  | Z0 => PrimFloat.zero
  | Zpos _ => PrimFloat.of_uint63 (Uint63.of_Z z)
  | Zneg p => PrimFloat.opp (PrimFloat.of_uint63 (Uint63.of_Z (Zpos p)))
  end.

(** [Math.max] of two numbers: [NaN] if either is, and [+0] above [-0]. *)
Definition float_max (a b : float) : float :=
  if PrimFloat.is_nan a || PrimFloat.is_nan b then PrimFloat.nan
  else if PrimFloat.ltb a b then b
  else if PrimFloat.ltb b a then a
  else if PrimFloat.get_sign a then b else a.

(** binary64, bit for bit. *)
#[export] Instance Arith_float : Arith float := {|
  num_of_Z := float_of_Z;
  num_add := PrimFloat.add;
  num_sub := PrimFloat.sub;
  num_mul := PrimFloat.mul;
  num_div := PrimFloat.div;
  num_ltb := PrimFloat.ltb;
  num_max := float_max;
  num_abs := PrimFloat.abs;
  num_undef := PrimFloat.nan
|}.

(** [Math.PI], and the four functions of [Math] whose binary64 results the
    language leaves to the implementation, taken as given. *)
Definition Transcendental_float (fexp ftanh fsin fcos : float -> float) : Transcendental float := {|
  num_exp := fexp;
  num_tanh := ftanh;
  num_sin := fsin;
  num_cos := fcos;
  num_pi := 0x1.921fb54442d18p+1%float
|}.

(** ** Vocabulary of the statements *)

Section Vocabulary.

Context {T : Type} {AT : Arith T}.

Local Open Scope num_scope.

(** The entry after [t], [0] past the end: the value of [discounted] when
    the backward loop reaches [t]. *)
Definition returnAfter (n : nat) (returns : list T) (t : nat) : T :=
  if Nat.ltb (S t) n then get returns (S t) else num_of_Z 0.

(** The probability mass [sampleActionIndex] has accumulated once it has
    added the entries [0 .. k-1], in the order of its loop. *)
Definition cumulativeMass (probabilities : list T) (k : nat) : T :=
  fold_left num_add (firstn k probabilities) (num_of_Z 0).

(** The arrays of a parameter set have the sizes of the fixed topology. *)
Definition wellShaped (params : NetworkParams T) : Prop :=
  length (W1 params) = (hiddenSize * inputSize)%nat /\
  length (b1 params) = hiddenSize /\
  length (W2 params) = (outputSize * hiddenSize)%nat /\
  length (b2 params) = outputSize.

(** The inner loops of [forwardNetwork]: the weighted sum of hidden unit
    [i], and the logit of output [o]. *)
Definition preActivation (params : NetworkParams T) (inputVector : list T) (i : nat) : T :=
  for_upto inputSize
    (fun j sum => sum + get (W1 params) (i * inputSize + j) * get inputVector j)
    (get (b1 params) i).

Definition logit (params : NetworkParams T) (hidden : list T) (o : nat) : T :=
  for_upto hiddenSize
    (fun h sum => sum + get (W2 params) (o * hiddenSize + h) * get hidden h)
    (get (b2 params) o).

(** The error signals of [trainOnEpisode] for one step: [delta2[o]], the
    sum backpropagated to hidden unit [h], and [delta1[h]]. *)
Definition delta2 (step : PolicyStep T) (advantage : T) (o : nat) : T :=
  ((if Z.eqb (actionIndex step) (Z.of_nat o) then num_of_Z 1 else num_of_Z 0)
   - get (probs step) o) * advantage.

Definition backSum (params : NetworkParams T) (step : PolicyStep T) (advantage : T) (h : nat) : T :=
  for_upto outputSize
    (fun o sum => sum + get (W2 params) (o * hiddenSize + h) * delta2 step advantage o)
    (num_of_Z 0).

Definition delta1 (params : NetworkParams T) (step : PolicyStep T) (advantage : T) (h : nat) : T :=
  (num_of_Z 1 - get (hidden step) h * get (hidden step) h) * backSum params step advantage h.

(** [f 0 + f 1 + ... + f (n-1)], added in this order from [0]. *)
Definition sumOver (n : nat) (f : nat -> T) : T :=
  for_upto n (fun h acc => acc + f h) (num_of_Z 0).

(** The denominator of [thetaAcc] in [stepCartPole], as a function of
    [cosTheta]. *)
Definition thetaAccDenominator (cosTheta : T) : T :=
  poleLength * (num_of_Z 4 / num_of_Z 3 - (massPole * cosTheta * cosTheta) / totalMass).

End Vocabulary.

(** The step the specification describes, in exact arithmetic and with its
    constants written out: gravity 9.8, cart mass 1, pole mass 0.1,
    half-length 0.5, force 10, timestep 0.02; the shared term
    [(force + poleMass * length * thetaDot^2 * sin theta) / totalMass]; one
    explicit Euler step, every component advanced by the timestep times its
    derivative. *)
Definition specForce (action : Z) : R := (IZR action * 10)%R.

Definition specTemp (s : CartPoleState R) (action : Z) : R :=
  ((specForce action + (1 / 10) * (1 / 2) * (thetaDot s) ^ 2 * sin (theta s)) / (1 + 1 / 10))%R.

Definition specThetaAcc (s : CartPoleState R) (action : Z) : R :=
  ((98 / 10 * sin (theta s) - cos (theta s) * specTemp s action) /
   (1 / 2 * (4 / 3 - (1 / 10) * (cos (theta s)) ^ 2 / (1 + 1 / 10))))%R.

Definition specXAcc (s : CartPoleState R) (action : Z) : R :=
  (specTemp s action -
   (1 / 10) * (1 / 2) * specThetaAcc s action * cos (theta s) / (1 + 1 / 10))%R.

Definition specEulerStep (s : CartPoleState R) (action : Z) : CartPoleState R :=
  {| x := x s + 2 / 100 * xDot s;
     xDot := xDot s + 2 / 100 * specXAcc s action;
     theta := theta s + 2 / 100 * thetaDot s;
     thetaDot := thetaDot s + 2 / 100 * specThetaAcc s action |}%R.

(** One of the four arrays of a parameter set, and the gradient array
    accumulated for it. *)
Inductive Field : Type := FieldW1 | Fieldb1 | FieldW2 | Fieldb2.

Definition paramField {T : Type} (f : Field) (p : NetworkParams T) : list T :=
  match f with
  | FieldW1 => W1 p
  | Fieldb1 => b1 p
  | FieldW2 => W2 p
  | Fieldb2 => b2 p
  end.

Definition gradField {T : Type} (f : Field) (g : Gradients T) : list T :=
  match f with
  | FieldW1 => gradW1 g
  | Fieldb1 => gradb1 g
  | FieldW2 => gradW2 g
  | Fieldb2 => gradb2 g
  end.

(** Every number of the array is finite ([Number.isFinite]). *)
Definition allFinite (l : list float) : bool := forallb PrimFloat.is_finite l.

Definition paramsFinite (p : NetworkParams float) : bool :=
  allFinite (W1 p) && allFinite (b1 p) && allFinite (W2 p) && allFinite (b2 p).

Definition gradientsFinite (g : Gradients float) : bool :=
  allFinite (gradW1 g) && allFinite (gradb1 g) && allFinite (gradW2 g) && allFinite (gradb2 g).

Definition stepFinite (s : PolicyStep float) : bool :=
  allFinite (state s) && allFinite (hidden s) && allFinite (probs s) &&
  PrimFloat.is_finite (reward s).

(** A parameter set and a three-step episode of finite binary64 numbers
    whose first return overflows: the rewards are 2^1023. *)
Definition overflowParams : NetworkParams float :=
  {| W1 := repeat 0.25%float 32;
     b1 := repeat 0%float 8;
     W2 := repeat 0.25%float 16;
     b2 := [0; 0]%float |}.

Definition overflowStep (a : Z) : PolicyStep float :=
  {| state := [0; 0; 0.125; 0]%float;
     hidden := repeat 0.5%float 8;
     probs := [0.5; 0.5]%float;
     actionIndex := a;
     reward := 0x1p+1023%float |}.

Definition overflowEpisode : list (PolicyStep float) :=
  [overflowStep 0; overflowStep 1; overflowStep 0].

(** The quantities of the one-step ascent argument, in exact arithmetic,
    for the chosen action [a] (0 or 1): the other action, the difference
    between the output weights of the two actions at hidden unit [h], the
    squared size of the observation plus one (the bias input), and the
    pre-activation of unit [h] after the update. *)
Definition otherAction (a : nat) : nat := (1 - a)%nat.

Definition weightGap (params : NetworkParams R) (a h : nat) : R :=
  (get (W2 params) (a * hiddenSize + h) - get (W2 params) (otherAction a * hiddenSize + h))%R.

Definition obsGain (obs : list R) : R :=
  (1 + (get obs 0 * get obs 0 + get obs 1 * get obs 1 +
        get obs 2 * get obs 2 + get obs 3 * get obs 3))%R.

Definition movedPreActivation (params : NetworkParams R) (obs : list R) (a h : nat) : R :=
  let t := tanh (preActivation params obs h) in
  let q := get (snd (forwardNetwork params obs)) (otherAction a) in
  (preActivation params obs h +
   2 / 100 * ((1 - t * t) * (q * weightGap params a h)) * obsGain obs)%R.

(** What the update adds to the contribution of hidden unit [h] to the
    difference between the logit of [a] and the logit of the other action. *)
Definition unitGain (params : NetworkParams R) (obs : list R) (a h : nat) : R :=
  let t := tanh (preActivation params obs h) in
  let t' := tanh (movedPreActivation params obs a h) in
  let q := get (snd (forwardNetwork params obs)) (otherAction a) in
  (weightGap params a h * (t' - t) + 4 / 100 * q * (t * t'))%R.

(** The difference between the logit of [a] and the logit of the other
    action. *)
Definition logitGap (params : NetworkParams R) (obs : list R) (a : nat) : R :=
  let hidden := fst (forwardNetwork params obs) in
  (logit params hidden a - logit params hidden (otherAction a))%R.

(** Parameters and an observation (cart velocity 1000) on which one update
    overshoots. *)
Definition overshootParams : NetworkParams R :=
  {| W1 := repeat 0%R 32;
     b1 := repeat (-1)%R 8;
     W2 := repeat (1 / 1000)%R 8 ++ repeat 0%R 8;
     b2 := [0; 0]%R |}.

Definition overshootObs : list R := [0; 1000; 0; 0]%R.

(** ** The rest of the page: initialisation and the orchestrator *)

(** [===] and [>=] on numbers, [Math.min] and unary minus, which only the
    code below uses. *)
Class ArithMore (T : Type) : Type := {
  num_eqb : T -> T -> bool;
  num_leb : T -> T -> bool;
  num_min : T -> T -> T;
  num_opp : T -> T
}.

Definition Reqb (a b : R) : bool := if Req_dec_T a b then true else false.

Definition Rleb (a b : R) : bool := if Rle_dec a b then true else false.

#[export] Instance ArithMore_R : ArithMore R := {|
  num_eqb := Reqb;
  num_leb := Rleb;
  num_min := Rmin;
  num_opp := Ropp
|}.

(** [Math.min] of two numbers: [NaN] if either is, and [-0] below [+0]. *)
Definition float_min (a b : float) : float :=
  if PrimFloat.is_nan a || PrimFloat.is_nan b then PrimFloat.nan
  else if PrimFloat.ltb a b then a
  else if PrimFloat.ltb b a then b
  else if PrimFloat.get_sign a then a else b.

#[export] Instance ArithMore_float : ArithMore float := {|
  num_eqb := PrimFloat.eqb;
  num_leb := PrimFloat.leb;
  num_min := float_min;
  num_opp := PrimFloat.opp
|}.

Notation "x >=? y" := (num_leb y x) (at level 70, no associativity) : num_scope.
Notation "- x" := (num_opp x) : num_scope.

Inductive ControlMode : Type := neural | heuristic | random.

Definition ControlMode_eqb (a b : ControlMode) : bool :=
  match a, b with
  | neural, neural | heuristic, heuristic | random, random => true
  | _, _ => false
  end.

Section Orchestrator.

Context {T : Type} {AT : Arith T} {TT : Transcendental T} {AM : ArithMore T}.

Local Open Scope num_scope.

(** [initializeNetwork]; [rand k] is the result of the [k]-th call of
    [Math.random()], the 32 weights of [W1] drawn before the 16 of [W2]. *)
Definition randomWeight (rand : nat -> T) (k : nat) : T :=
  (rand k * num_of_Z 2 - num_of_Z 1) * dec 3 10.

Definition initializeNetwork (rand : nat -> T) : NetworkParams T :=
  {| W1 := map (randomWeight rand) (seq 0 (hiddenSize * inputSize));
     b1 := repeat (num_of_Z 0) hiddenSize;
     W2 := map (randomWeight rand) (seq (hiddenSize * inputSize) (outputSize * hiddenSize));
     b2 := repeat (num_of_Z 0) outputSize |}.

(** [createInitialState]; [window] tells whether [typeof window] is defined
    (the client), [r1] and [r2] are the two draws of [Math.random()]. *)
Definition createInitialState (window : bool) (r1 r2 : T) : CartPoleState T :=
  if negb window then
    {| x := num_of_Z 0; xDot := num_of_Z 0; theta := num_of_Z 0; thetaDot := num_of_Z 0 |}
  else
    {| x := (r1 - dec 5 10) * dec 4 10;
       xDot := num_of_Z 0;
       theta := (r2 - dec 5 10) * dec 2 10;
       thetaDot := num_of_Z 0 |}.

Record NetworkActivations : Type := {
  actInput : list T;
  actHidden : list T;
  actOutput : list T
}.

Record TrainingStats : Type := {
  averageReturn : T;
  lastReturn : T
}.

(** The state of the [Home] component: its [useState] cells and refs.  The
    refs [stateRef] and [networkRef] and the cells [state] and [network] they
    mirror are one field each. *)
Record Home : Type := {
  isRunning : bool;
  controlMode : ControlMode;
  stateRef : CartPoleState T;
  metrics : EpisodeMetrics;
  networkRef : option (NetworkParams T);
  activations : NetworkActivations;
  trajectoryRef : list (PolicyStep T);
  trainingStats : TrainingStats
}.

Definition zeroActivations : NetworkActivations :=
  {| actInput := repeat (num_of_Z 0) inputSize;
     actHidden := repeat (num_of_Z 0) hiddenSize;
     actOutput := repeat (num_of_Z 0) outputSize |}.

(** The component as first rendered, before any effect has run. *)
Definition initialHome (window : bool) (r1 r2 : T) : Home :=
  {| isRunning := false;
     controlMode := neural;
     stateRef := createInitialState window r1 r2;
     metrics := initialMetrics;
     networkRef := None;
     activations := zeroActivations;
     trajectoryRef := [];
     trainingStats := {| averageReturn := num_of_Z 0; lastReturn := num_of_Z 0 |} |}.

(** The mount effect: the network is initialised and the state redrawn on
    the client. *)
Definition mount (rand : nat -> T) (r1 r2 : T) (h : Home) : Home :=
  {| isRunning := isRunning h;
     controlMode := controlMode h;
     stateRef := createInitialState true r1 r2;
     metrics := metrics h;
     networkRef := Some (initializeNetwork rand);
     activations := activations h;
     trajectoryRef := trajectoryRef h;
     trainingStats := trainingStats h |}.

(** The fixed linear controller of the heuristic mode. *)
Definition heuristicAction (current : CartPoleState T) : Z :=
  if (theta current + dec 25 100 * thetaDot current + dec 5 100 * xDot current) >? num_of_Z 0
  then 1%Z else (-1)%Z.

(** The smoothed training statistic after an episode of [episodeReward]
    recorded steps. *)
Definition updateStats (prev : TrainingStats) (episodeReward : T) : TrainingStats :=
  let smoothing :=
    if num_eqb (averageReturn prev) (num_of_Z 0) then episodeReward
    else averageReturn prev * dec 9 10 + episodeReward * dec 1 10 in
  {| averageReturn := smoothing; lastReturn := episodeReward |}.

(** One run of [loop]: [r] is the draw used to pick the action (random mode
    or sampling), [r1] and [r2] the draws of the reset after a terminal
    step. *)
Definition loop (r r1 r2 : T) (h : Home) : Home :=
  let current := stateRef h in
  let stateVector := stateToVector current in
  let '(action, trajectory, shown) :=
    match controlMode h, networkRef h with
    | heuristic, _ => (heuristicAction current, trajectoryRef h, activations h)
    | random, _ =>
        ((if r >? dec 5 10 then 1%Z else (-1)%Z), trajectoryRef h, activations h)
    | neural, Some net =>
        let '(hidden, probs) := forwardNetwork net stateVector in
        let actionIndex := sampleActionIndex r probs in
        ((if Z.eqb actionIndex 0 then (-1)%Z else 1%Z),
         trajectoryRef h ++ [recordStep net stateVector actionIndex],
         {| actInput := stateVector; actHidden := hidden; actOutput := probs |})
    | neural, None => (heuristicAction current, trajectoryRef h, activations h)
    end in
  let '(nextState, done) := stepCartPole current action in
  if done then
    let '(net', trajectory', stats') :=
      match controlMode h, networkRef h with
      | neural, Some net =>
          let episodeReward := num_of_Z (Z.of_nat (length trajectory)) in
          (Some (trainOnEpisode net trajectory), [],
           updateStats (trainingStats h) episodeReward)
      | _, _ => (networkRef h, trajectory, trainingStats h)
      end in
    {| isRunning := isRunning h;
       controlMode := controlMode h;
       stateRef := createInitialState true r1 r2;
       metrics := metricsOnDone (metrics h);
       networkRef := net';
       activations := shown;
       trajectoryRef := trajectory';
       trainingStats := stats' |}
  else
    {| isRunning := isRunning h;
       controlMode := controlMode h;
       stateRef := nextState;
       metrics := metricsOnStep (metrics h);
       networkRef := networkRef h;
       activations := shown;
       trajectoryRef := trajectory;
       trainingStats := trainingStats h |}.

Definition toggleRun (h : Home) : Home :=
  {| isRunning := negb (isRunning h);
     controlMode := controlMode h;
     stateRef := stateRef h;
     metrics := metrics h;
     networkRef := networkRef h;
     activations := activations h;
     trajectoryRef := trajectoryRef h;
     trainingStats := trainingStats h |}.

Definition handleReset (r1 r2 : T) (h : Home) : Home :=
  {| isRunning := false;
     controlMode := controlMode h;
     stateRef := createInitialState true r1 r2;
     metrics := metricsOnReset (metrics h);
     networkRef := networkRef h;
     activations := activations h;
     trajectoryRef := [];
     trainingStats := trainingStats h |}.

Definition handleReinitializeNetwork (rand : nat -> T) (h : Home) : Home :=
  {| isRunning := isRunning h;
     controlMode := controlMode h;
     stateRef := stateRef h;
     metrics := metrics h;
     networkRef := Some (initializeNetwork rand);
     activations := zeroActivations;
     trajectoryRef := [];
     trainingStats := {| averageReturn := num_of_Z 0; lastReturn := num_of_Z 0 |} |}.

(** [setControlMode] followed by the effect that discards the trajectory
    when the mode is not neural. *)
Definition setControlMode (m : ControlMode) (h : Home) : Home :=
  {| isRunning := isRunning h;
     controlMode := m;
     stateRef := stateRef h;
     metrics := metrics h;
     networkRef := networkRef h;
     activations := activations h;
     trajectoryRef := if ControlMode_eqb m neural then trajectoryRef h else [];
     trainingStats := trainingStats h |}.

(** What can happen to the component: an animation frame (which runs [loop]
    only while running), a button, or the mount effect. *)
Inductive Event : Type :=
| Frame (r r1 r2 : T)
| ToggleRun
| Reset (r1 r2 : T)
| SetControlMode (m : ControlMode)
| ReinitializeNetwork (rand : nat -> T)
| Mount (rand : nat -> T) (r1 r2 : T).

Definition handle (h : Home) (e : Event) : Home :=
  match e with
  | Frame r r1 r2 => if isRunning h then loop r r1 r2 h else h
  | ToggleRun => toggleRun h
  | Reset r1 r2 => handleReset r1 r2 h
  | SetControlMode m => setControlMode m h
  | ReinitializeNetwork rand => handleReinitializeNetwork rand h
  | Mount rand r1 r2 => mount rand r1 r2 h
  end.

Definition run (h : Home) (events : list Event) : Home := fold_left handle events h.

End Orchestrator.

Arguments NetworkActivations T : clear implicits.
Arguments TrainingStats T : clear implicits.
Arguments Home T : clear implicits.
Arguments Event T : clear implicits.


(** ** Rendering: [drawRoundedRect], [CartPoleCanvas] and the colours of
    [NetworkVisualizer] *)

(** A CSS colour or gradient as the source writes them: [rgba(r, g, b, a)],
    a hexadecimal colour, or a linear gradient with its colour stops. *)
Inductive Paint (T : Type) : Type :=
| Rgba (red green blue : Z) (alpha : T)
| Hex (code : Z)
| LinearGradient (x0 y0 x1 y1 : T) (stops : list (T * Z)).

(** The calls the page makes on a [CanvasRenderingContext2D], with their
    arguments. *)
Inductive CanvasCall (T : Type) : Type :=
| ClearRect (px py width height : T)
| SetFillStyle (paint : Paint T)
| SetStrokeStyle (paint : Paint T)
| SetLineWidth (width : T)
| FillRect (px py width height : T)
| BeginPath
| ClosePath
| MoveTo (px py : T)
| LineTo (px py : T)
| QuadraticCurveTo (cpx cpy px py : T)
| Arc (px py radius startAngle endAngle : T)
| Ellipse (px py radiusX radiusY rotation startAngle endAngle : T)
| Fill
| Stroke
| Save
| Restore
| Translate (tx ty : T)
| Rotate (angle : T).

Arguments Hex {T} code.
Arguments BeginPath {T}.
Arguments ClosePath {T}.
Arguments Fill {T}.
Arguments Stroke {T}.
Arguments Save {T}.
Arguments Restore {T}.

Inductive ActivationKind : Type := inputKind | hiddenKind | outputKind.

Section Rendering.

Context {T : Type} {AT : Arith T} {TT : Transcendental T} {AM : ArithMore T}.

Local Open Scope num_scope.

Definition canvasWidth : T := num_of_Z 640.
Definition canvasHeight : T := num_of_Z 360.

(** The corner radius [drawRoundedRect] uses:
    [Math.max(0, Math.min(radius, Math.abs(width) / 2, Math.abs(height) / 2))]. *)
Definition effectiveRadius (width height radius : T) : T :=
  num_max (num_of_Z 0)
    (num_min radius (num_min (num_abs width / num_of_Z 2) (num_abs height / num_of_Z 2))).

Definition drawRoundedRect (px py width height radius : T) : list (CanvasCall T) :=
  let effectiveRadius := effectiveRadius width height radius in
  [ BeginPath;
    MoveTo (px + effectiveRadius) py;
    LineTo (px + width - effectiveRadius) py;
    QuadraticCurveTo (px + width) py (px + width) (py + effectiveRadius);
    LineTo (px + width) (py + height - effectiveRadius);
    QuadraticCurveTo (px + width) (py + height) (px + width - effectiveRadius) (py + height);
    LineTo (px + effectiveRadius) (py + height);
    QuadraticCurveTo px (py + height) px (py + height - effectiveRadius);
    LineTo px (py + effectiveRadius);
    QuadraticCurveTo px py (px + effectiveRadius) py;
    ClosePath ].

(** The constants local to the drawing effect of [CartPoleCanvas].  The
    source's local [poleLength] (pixels) is [poleLengthPx] here, the name
    [poleLength] being taken by the physical half-length. *)
Definition trackHeight : T := num_of_Z 12.
Definition trackY : T := canvasHeight / num_of_Z 2 + num_of_Z 70.
Definition safeZoneWidth : T :=
  (canvasWidth * (trackLimit * num_of_Z 2)) / (trackLimit * dec 45 10).
Definition pixelsPerMeter : T := canvasWidth / (trackLimit * num_of_Z 4).
Definition cartCenterX (state : CartPoleState T) : T :=
  canvasWidth / num_of_Z 2 + x state * pixelsPerMeter.
Definition cartY : T := trackY.
Definition cartWidth : T := num_of_Z 120.
Definition cartHeight : T := num_of_Z 40.
Definition poleLengthPx : T := num_of_Z 140.
Definition poleWidth : T := num_of_Z 12.
Definition wheelRadius : T := num_of_Z 14.
Definition wheelOffset : T := num_of_Z 36.

(** The drawing effect of [CartPoleCanvas], as the sequence of calls it
    makes on the context for [state]. *)
Definition drawScene (state : CartPoleState T) : list (CanvasCall T) :=
  let cartCenterX := cartCenterX state in
  let poleAngle := theta state in
  [ ClearRect (num_of_Z 0) (num_of_Z 0) canvasWidth canvasHeight;
    (* track *)
    SetFillStyle (Rgba 0 0 0 (dec 1 10));
    FillRect (num_of_Z 0) trackY canvasWidth trackHeight;
    (* safe zone markers *)
    SetFillStyle (Rgba 59 130 246 (dec 25 100));
    FillRect ((canvasWidth - safeZoneWidth) / num_of_Z 2) trackY safeZoneWidth trackHeight;
    (* cart shadow *)
    SetFillStyle (Rgba 15 23 42 (dec 15 100));
    BeginPath;
    Ellipse cartCenterX (cartY + num_of_Z 20) (num_of_Z 55) (num_of_Z 12)
            (num_of_Z 0) (num_of_Z 0) (num_pi * num_of_Z 2);
    Fill;
    (* cart *)
    SetFillStyle (Hex 0x0f172a) ]
  ++ drawRoundedRect (cartCenterX - cartWidth / num_of_Z 2) (cartY - cartHeight)
                     cartWidth cartHeight (num_of_Z 12)
  ++ [ Fill;
       (* pole *)
       Save;
       Translate cartCenterX (cartY - cartHeight);
       Rotate poleAngle;
       SetFillStyle (LinearGradient (num_of_Z 0) (- poleLengthPx) (num_of_Z 0) (num_of_Z 0)
                       [(num_of_Z 0, 0x36cfc9%Z); (num_of_Z 1, 0x2563eb%Z)]) ]
  ++ drawRoundedRect (- poleWidth / num_of_Z 2) (- poleLengthPx)
                     poleWidth poleLengthPx (num_of_Z 6)
  ++ [ Fill;
       (* pole tip weight *)
       BeginPath;
       SetFillStyle (Hex 0x1d4ed8);
       Arc (num_of_Z 0) (- poleLengthPx) (num_of_Z 14) (num_of_Z 0) (num_pi * num_of_Z 2);
       Fill;
       Restore;
       (* axle *)
       SetFillStyle (Hex 0xf8fafc);
       BeginPath;
       Arc cartCenterX (cartY - cartHeight) (num_of_Z 8) (num_of_Z 0) (num_pi * num_of_Z 2);
       Fill;
       (* wheels *)
       SetFillStyle (Hex 0x1e293b);
       BeginPath;
       Arc (cartCenterX - wheelOffset) (cartY - num_of_Z 2) wheelRadius
           (num_of_Z 0) (num_pi * num_of_Z 2);
       Arc (cartCenterX + wheelOffset) (cartY - num_of_Z 2) wheelRadius
           (num_of_Z 0) (num_pi * num_of_Z 2);
       Fill;
       (* angle guide *)
       SetStrokeStyle (Rgba 59 130 246 (dec 35 100));
       SetLineWidth (num_of_Z 2);
       BeginPath;
       MoveTo cartCenterX (cartY - cartHeight);
       LineTo cartCenterX (cartY - cartHeight - poleLengthPx - num_of_Z 10);
       Stroke ].

(** The colours of [NetworkVisualizer]. *)
Definition weightColor (weight : T) : Paint T :=
  let normalized := num_tanh weight in
  let intensity := num_abs normalized in
  let alpha := dec 2 10 + intensity * dec 6 10 in
  if normalized >=? num_of_Z 0 then Rgba 59 130 246 alpha else Rgba 244 63 94 alpha.

Definition weightThickness (weight : T) : T :=
  let normalized := num_abs (num_tanh weight) in
  dec 15 10 + normalized * num_of_Z 4.

Definition activationColor (value : T) (kind : ActivationKind) : Paint T :=
  match kind with
  | outputKind =>
      let clamped := num_min (num_of_Z 1) (num_max (num_of_Z 0) value) in
      let alpha := dec 25 100 + clamped * dec 6 10 in
      Rgba 16 185 129 alpha
  | _ =>
      let clamped := num_max (num_of_Z (-1)) (num_min (num_of_Z 1) value) in
      let intensity := num_abs clamped in
      let alpha := dec 25 100 + intensity * dec 55 100 in
      if clamped >=? num_of_Z 0 then Rgba 37 99 235 alpha else Rgba 248 113 113 alpha
  end.

(** What [NetworkVisualizer] paints for an activation record: the inputs
    pass through [Math.tanh] before they are coloured, the hidden and output
    values are coloured as they are; [?? 0] supplies 0 for a missing
    entry. *)
Definition inputFill (activations : NetworkActivations T) (index : nat) : Paint T :=
  let inputValues := map num_tanh (actInput activations) in
  activationColor (nth index inputValues (num_of_Z 0)) inputKind.

Definition hiddenFill (activations : NetworkActivations T) (index : nat) : Paint T :=
  activationColor (nth index (actHidden activations) (num_of_Z 0)) hiddenKind.

Definition outputFill (activations : NetworkActivations T) (index : nat) : Paint T :=
  activationColor (nth index (actOutput activations) (num_of_Z 0)) outputKind.

End Rendering.
(** ** Vocabulary of the further statements *)

(** The state seen in a mirror: positions, angles and velocities negated. *)
Definition mirror (s : CartPoleState R) : CartPoleState R :=
  {| x := - x s; xDot := - xDot s; theta := - theta s; thetaDot := - thetaDot s |}%R.

(** The quantity whose sign the heuristic controller tests. *)
Definition heuristicScore (s : CartPoleState R) : R :=
  (theta s + 25 / 100 * thetaDot s + 5 / 100 * xDot s)%R.

(** The gradient accumulators have the sizes [trainOnEpisode] allocates. *)
Definition gradShaped {T : Type} (g : Gradients T) : Prop :=
  length (gradW1 g) = 32%nat /\ length (gradb1 g) = 8%nat /\
  length (gradW2 g) = 16%nat /\ length (gradb2 g) = 2%nat.

(** A trajectory record as [loop] builds it: the arrays have the sizes of
    the network, the action is one of the two outputs, the reward is 1. *)
Definition stepWellFormed {T : Type} {AT : Arith T} (st : PolicyStep T) : Prop :=
  length (state st) = 4%nat /\ length (hidden st) = 8%nat /\ length (probs st) = 2%nat /\
  (actionIndex st = 0%Z \/ actionIndex st = 1%Z) /\ reward st = num_of_Z 1.

(** What holds of the component whatever happens to it, in any arithmetic. *)
Definition HomeInvariant {T : Type} {AT : Arith T} (h : Home T) : Prop :=
  (controlMode h <> neural -> trajectoryRef h = []) /\
  (Z.of_nat (length (trajectoryRef h)) <= steps (metrics h))%Z /\
  reachable (metrics h) /\
  Forall stepWellFormed (trajectoryRef h) /\
  (forall net, networkRef h = Some net -> wellShaped net) /\
  (networkRef h = None -> trajectoryRef h = []).

(** Every draw of [Math.random()] an event consumes lies in [0, 1). *)
Definition unitDraw (r : R) : Prop := (0 <= r < 1)%R.

Definition eventDrawsInUnit (e : Event R) : Prop :=
  match e with
  | Frame r r1 r2 => unitDraw r /\ unitDraw r1 /\ unitDraw r2
  | Reset r1 r2 => unitDraw r1 /\ unitDraw r2
  | ReinitializeNetwork rand => forall k, unitDraw (rand k)
  | Mount rand r1 r2 => (forall k, unitDraw (rand k)) /\ unitDraw r1 /\ unitDraw r2
  | ToggleRun | SetControlMode _ => True
  end.

(** A state as [createInitialState] returns it: at rest, near the centre. *)
Definition freshState (s : CartPoleState R) : Prop :=
  (Rabs (x s) <= 2 / 10 /\ xDot s = 0 /\ Rabs (theta s) <= 1 / 10 /\ thetaDot s = 0)%R.

(** The state is inside the track and angle limits. *)
Definition withinLimits (s : CartPoleState R) : Prop :=
  (Rabs (x s) <= 24 / 10 /\ Rabs (theta s) <= 12 * PI / 180)%R.

(** What holds of the component in exact arithmetic when every draw lies in
    [0, 1). *)
Definition HomeInvariantR (h : Home R) : Prop :=
  withinLimits (stateRef h) /\
  (steps (metrics h) = 0%Z -> freshState (stateRef h)) /\
  (last (metrics h) = 0%Z \/ 2 <= last (metrics h))%Z /\
  (best (metrics h) = 0%Z \/ 2 <= best (metrics h))%Z /\
  (averageReturn (trainingStats h) = 0 \/ 1 <= averageReturn (trainingStats h))%R /\
  (averageReturn (trainingStats h) <= IZR (best (metrics h)))%R /\
  (0 <= lastReturn (trainingStats h) <= IZR (best (metrics h)))%R.


(** An event of a session that stays in neural mode with the network it
    trains: anything but a switch to another mode or a re-initialisation of
    the network. *)
Definition neuralEvent {T : Type} (e : Event T) : Prop :=
  match e with
  | ReinitializeNetwork _ => False
  | SetControlMode m => m = neural
  | _ => True
  end.

(** In neural mode with a network, the trajectory holds one record per step
    of the running episode and the last trained return is the last survival
    time. *)
Definition NeuralSync {T : Type} {AT : Arith T} (h : Home T) : Prop :=
  controlMode h = neural /\
  (exists net, networkRef h = Some net) /\
  Z.of_nat (length (trajectoryRef h)) = steps (metrics h) /\
  lastReturn (trainingStats h) = num_of_Z (last (metrics h)).

(** A pole falling to the right under a steady push to the left, [k] steps
    after a start at rest with the angle 0.098: bounds on the angular
    velocity and a lower bound on the angle. *)
Definition fallingAfter (k : nat) (s : CartPoleState R) : Prop :=
  (24 / 100 * INR k <= thetaDot s <= 38 / 100 * INR k /\
   98 / 1000 + 24 / 10000 * INR k * (INR k - 1) <= theta s)%R.

(** A running page in neural mode with a network that has either trained on
    an episode already or is [k] steps into the fall of its first one. *)
Definition trainedOrFalling (k : nat) (h : Home R) : Prop :=
  isRunning h = true /\
  controlMode h = neural /\
  (exists net, networkRef h = Some net) /\
  ((1 <= averageReturn (trainingStats h))%R \/
   (averageReturn (trainingStats h) = 0%R /\
    withinLimits (stateRef h) /\ fallingAfter k (stateRef h))).

(** ** Vocabulary for the drawing *)

(** The current transformation of a canvas context, as the matrix
    [(a c e; b d f)] of the Canvas API: a point [(px, py)] of the calls is
    drawn at [(a px + c py + e, b px + d py + f)]. *)
Record Affine : Type := {
  ma : R; mb : R; mc : R; md : R; me : R; mf : R
}.

Definition identityAffine : Affine :=
  {| ma := 1; mb := 0; mc := 0; md := 1; me := 0; mf := 0 |}%R.

Definition applyAffine (m : Affine) (p : R * R) : R * R :=
  (ma m * fst p + mc m * snd p + me m, mb m * fst p + md m * snd p + mf m)%R.

(** [translate(tx, ty)] and [rotate(angle)] multiply the current matrix on
    the right. *)
Definition translateBy (m : Affine) (tx ty : R) : Affine :=
  {| ma := ma m; mb := mb m; mc := mc m; md := md m;
     me := ma m * tx + mc m * ty + me m;
     mf := mb m * tx + md m * ty + mf m |}%R.

Definition rotateBy (m : Affine) (angle : R) : Affine :=
  {| ma := ma m * cos angle + mc m * sin angle;
     mb := mb m * cos angle + md m * sin angle;
     mc := - ma m * sin angle + mc m * cos angle;
     md := - mb m * sin angle + md m * cos angle;
     me := me m; mf := mf m |}%R.

Definition boxCorners (px py width height : R) : list (R * R) :=
  [(px, py); (px + width, py); (px, py + height); (px + width, py + height)]%R.

(** Points whose convex hull contains what a call draws or adds to the
    path, in the coordinates of the call: the corners of a rectangle, the
    end and control points of a segment or curve, the corners of the square
    around a circle and of the rotated rectangle around an ellipse. *)
Definition callPoints (c : CanvasCall R) : list (R * R) :=
  match c with
  | ClearRect px py width height | FillRect px py width height =>
      boxCorners px py width height
  | MoveTo px py | LineTo px py => [(px, py)]
  | QuadraticCurveTo cpx cpy px py => [(cpx, cpy); (px, py)]
  | Arc px py radius _ _ =>
      boxCorners (px - radius) (py - radius) (2 * radius) (2 * radius)
  | Ellipse px py radiusX radiusY rotation _ _ =>
      map (fun d : R * R =>
             (px + fst d * cos rotation - snd d * sin rotation,
              py + fst d * sin rotation + snd d * cos rotation))
          (boxCorners (- radiusX) (- radiusY) (2 * radiusX) (2 * radiusY))
  | _ => []
  end%R.

(** The points of a sequence of calls where the canvas shows them: each
    call's points under the transformation current at the call, with
    [save] and [restore] keeping a stack of transformations. *)
Fixpoint drawnPoints (m : Affine) (saved : list Affine) (calls : list (CanvasCall R))
  : list (R * R) :=
  match calls with
  | [] => []
  | Save :: rest => drawnPoints m (m :: saved) rest
  | Restore :: rest =>
      match saved with
      | [] => drawnPoints m [] rest
      | m' :: saved' => drawnPoints m' saved' rest
      end
  | Translate tx ty :: rest => drawnPoints (translateBy m tx ty) saved rest
  | Rotate angle :: rest => drawnPoints (rotateBy m angle) saved rest
  | c :: rest => map (applyAffine m) (callPoints c) ++ drawnPoints m saved rest
  end.

Definition inCanvas (p : R * R) : Prop :=
  (0 <= fst p <= canvasWidth /\ 0 <= snd p <= canvasHeight)%R.

Definition inBox (px py width height : R) (p : R * R) : Prop :=
  (px <= fst p <= px + width /\ py <= snd p <= py + height)%R.

(** The opacity of a colour; a gradient or a hexadecimal colour is opaque. *)
Definition paintAlpha (p : Paint R) : R :=
  match p with
  | Rgba _ _ _ alpha => alpha
  | _ => 1%R
  end.

(** The opacity of an [rgba] colour, in any arithmetic. *)
Definition paintOpacity {T : Type} (p : Paint T) : option T :=
  match p with
  | Rgba _ _ _ alpha => Some alpha
  | _ => None
  end.

Definition paintChannels {T : Type} (p : Paint T) : option (Z * Z * Z) :=
  match p with
  | Rgba red green blue _ => Some (red, green, blue)
  | _ => None
  end.

(** ** Finite binary64 inputs that overflow *)

Definition stateFinite (s : CartPoleState float) : bool :=
  PrimFloat.is_finite (x s) && PrimFloat.is_finite (xDot s) &&
  PrimFloat.is_finite (theta s) && PrimFloat.is_finite (thetaDot s).

(** An upright pole at the centre of the track, spinning at 2^600 radians
    per second: every component is a finite binary64 number, and the square
    of the angular velocity is not. *)
Definition spinningState : CartPoleState float :=
  {| x := 0%float; xDot := 0%float; theta := 0%float; thetaDot := 0x1p+600%float |}.

(** A parameter set of the network's sizes with all weights 2^1023, and an
    observation of ones: finite binary64 numbers whose sums overflow. *)
Definition bigParams : NetworkParams float :=
  {| W1 := repeat 0x1p+1023%float 32;
     b1 := repeat 0%float 8;
     W2 := repeat 0x1p+1023%float 16;
     b2 := [0; 0]%float |}.

Definition bigObs : list float := [1; 1; 1; 1]%float.

(** A recorded step with reward 1 and nothing else, for the returns. *)
Definition unitRewardStep : PolicyStep float :=
  {| state := []; hidden := []; probs := []; actionIndex := 0; reward := 1%float |}.

(** Output biases 0.1 and 0.2 with zero weights, and a step that chose
    action 0 with both probabilities one half. *)
Definition tenthParams : NetworkParams float :=
  {| W1 := repeat 0%float 32;
     b1 := repeat 0%float 8;
     W2 := repeat 0%float 16;
     b2 := [dec 1 10; dec 2 10] |}.

Definition evenStep : PolicyStep float :=
  {| state := [0; 0; 0; 0]%float;
     hidden := repeat 0%float 8;
     probs := [0.5; 0.5]%float;
     actionIndex := 0;
     reward := 1%float |}.
(** * Properties *)

(** The literals [0.02], [0.99] and [9.8] of the source, as binary64. *)
Example learningRate_float : (learningRate : float) = 0x1.47ae147ae147bp-6%float.
Proof. reflexivity. Qed.

Example discountFactor_float : (discountFactor : float) = 0x1.fae147ae147aep-1%float.
Proof. reflexivity. Qed.

Example gravity_float : (gravity : float) = 0x1.399999999999ap+3%float.
Proof. reflexivity. Qed.

(** ** Arrays *)

Section ArrayFacts.

Context {T : Type} {AT : Arith T}.

Lemma arr_set_length (l : list T) (i : nat) (v : T) :
  (i < length l)%nat -> length (arr_set l i v) = length l.
Proof.
  revert i; induction l as [|a l IH]; intros [|i] H; simpl in *; try lia.
  rewrite IH; lia.
Qed.

Lemma get_arr_set_same (l : list T) (i : nat) (v : T) :
  get (arr_set l i v) i = v.
Proof.
  unfold get; revert l; induction i as [|i IH]; intros [|a l]; simpl; auto.
Qed.

Lemma get_nil (j : nat) : get (@nil T) j = num_undef.
Proof. unfold get; destruct j; reflexivity. Qed.

Lemma get_arr_set_other (l : list T) (i j : nat) (v : T) :
  i <> j -> get (arr_set l i v) j = get l j.
Proof.
  unfold get; revert l j; induction i as [|i IH]; intros [|a l] [|j] H; simpl; auto;
    try congruence.
  - destruct j; reflexivity.
  - rewrite IH by congruence. destruct j; reflexivity.
Qed.

Lemma mapi_from_length {A B : Type} (f : A -> nat -> B) (i : nat) (l : list A) :
  length (mapi_from f i l) = length l.
Proof. revert i; induction l; intros; simpl; auto. Qed.

Lemma mapi_length {A B : Type} (f : A -> nat -> B) (l : list A) :
  length (mapi f l) = length l.
Proof. apply mapi_from_length. Qed.

Lemma nth_mapi_from {A B : Type} (f : A -> nat -> B) (l : list A) (i k : nat) (da : A) (db : B) :
  (k < length l)%nat -> nth k (mapi_from f i l) db = f (nth k l da) (i + k)%nat.
Proof.
  revert i k; induction l as [|a l IH]; intros i [|k] H; simpl in *; try lia.
  - f_equal; lia.
  - rewrite IH by lia. f_equal; lia.
Qed.

Lemma nth_mapi {A B : Type} (f : A -> nat -> B) (l : list A) (k : nat) (da : A) (db : B) :
  (k < length l)%nat -> nth k (mapi f l) db = f (nth k l da) k.
Proof. intros H. unfold mapi. rewrite nth_mapi_from with (da := da); auto. Qed.

End ArrayFacts.

(** ** Discounted returns *)

Section Returns.

Context {T : Type} {AT : Arith T}.

Local Open Scope num_scope.

Lemma computeReturns_loop (trajectory : list (PolicyStep T)) :
  computeReturns trajectory = snd (returnsLoop trajectory (length trajectory)).
Proof. reflexivity. Qed.

Lemma returnsLoop_invariant (trajectory : list (PolicyStep T)) (k : nat) :
  (k <= length trajectory)%nat ->
  let n := length trajectory in
  let '(discounted, returns) := returnsLoop trajectory k in
  length returns = n /\
  discounted = (if Nat.eqb k 0 then num_of_Z 0 else get returns (n - k)) /\
  forall t, (n - k <= t < n)%nat ->
    get returns t =
    reward (nth t trajectory noStep) + discountFactor * returnAfter n returns t.
Proof.
  intros Hk n. induction k as [|k IH].
  - simpl. repeat split.
    + apply repeat_length.
    + intros t Ht. fold n in Ht. lia.
  - unfold returnsLoop in *. simpl for_upto. fold n in IH |- *.
    destruct (for_upto k _ _) as [d rs].
    destruct IH as (Hlen & Hd & Hrec); [lia|].
    assert (Ht0 : (n - 1 - k < length rs)%nat) by lia.
    repeat split.
    + rewrite arr_set_length; auto.
    + simpl Nat.eqb. replace (n - S k)%nat with (n - 1 - k)%nat by lia.
      now rewrite get_arr_set_same.
    + intros t Ht. unfold returnAfter.
      destruct (Nat.eq_dec t (n - 1 - k)) as [->|Hne].
      * rewrite get_arr_set_same. f_equal. f_equal. rewrite Hd.
        destruct k as [|k'].
        -- simpl Nat.eqb. replace (S (n - 1 - 0)) with n by lia.
           now rewrite Nat.ltb_irrefl.
        -- simpl Nat.eqb.
           replace (Nat.ltb (S (n - 1 - S k')) n) with true
             by (symmetry; apply Nat.ltb_lt; lia).
           rewrite get_arr_set_other by lia. f_equal. lia.
      * rewrite get_arr_set_other by congruence.
        rewrite Hrec by lia. unfold returnAfter.
        destruct (Nat.ltb (S t) n) eqn:E; auto.
        rewrite get_arr_set_other; auto. lia.
Qed.

(** The returns have the length of the trajectory and obey the backward
    recursion, in any arithmetic. *)
Lemma computeReturns_recursion (trajectory : list (PolicyStep T)) :
  let n := length trajectory in
  let returns := computeReturns trajectory in
  length returns = n /\
  forall t, (t < n)%nat ->
    get returns t =
    reward (nth t trajectory noStep) + discountFactor * returnAfter n returns t.
Proof.
  intros n returns.
  pose proof (@returnsLoop_invariant trajectory n (Nat.le_refl _)) as H.
  unfold returns. rewrite computeReturns_loop. fold n in H |- *.
  destruct (returnsLoop trajectory n) as [d rs]. simpl in *.
  destruct H as (Hlen & _ & Hrec). split; auto.
  intros t Ht. apply Hrec. lia.
Qed.

End Returns.

(** C2.  In exact arithmetic, for every non-empty trajectory the returns
    computed by [trainOnEpisode] have the length of the trajectory, the last
    entry is the last step's reward, and every earlier entry is that step's
    reward plus 0.99 times the next entry; for the rewards [1,1,1] the
    returns are [1 + 0.99 + 0.99^2, 1 + 0.99, 1].  In binary64 the returns of
    the rewards [1,1,1] are within 1e-9 of these three numbers. *)
Theorem computeReturns_discounted :
  (forall trajectory : list (PolicyStep R),
     trajectory <> [] ->
     let n := length trajectory in
     let returns := computeReturns trajectory in
     length returns = n /\
     get returns (n - 1) = reward (nth (n - 1) trajectory noStep) /\
     forall t, (S t < n)%nat ->
       get returns t =
       (reward (nth t trajectory noStep) + 99 / 100 * get returns (S t))%R) /\
  (forall s1 s2 s3 : PolicyStep R,
     reward s1 = 1%R -> reward s2 = 1%R -> reward s3 = 1%R ->
     computeReturns [s1; s2; s3] =
     [1 + 99 / 100 + 99 / 100 * (99 / 100); 1 + 99 / 100; 1]%R) /\
  (forall s1 s2 s3 : PolicyStep float,
     reward s1 = 1%float -> reward s2 = 1%float -> reward s3 = 1%float ->
     let returns := computeReturns [s1; s2; s3] in
     length returns = 3%nat /\
     (PrimFloat.abs (get returns 0 - (1 + dec 99 100 + dec 99 100 * dec 99 100)) <? dec 1 1000000000)%float = true /\
     (PrimFloat.abs (get returns 1 - (1 + dec 99 100)) <? dec 1 1000000000)%float = true /\
     (PrimFloat.abs (get returns 2 - 1) <? dec 1 1000000000)%float = true).
Proof.
  split; [|split].
  - intros trajectory Hne n returns.
    assert (Hn : (0 < n)%nat) by (unfold n; destruct trajectory; simpl; [congruence|lia]).
    destruct (computeReturns_recursion trajectory) as [Hlen Hrec].
    fold n in Hlen, Hrec. fold returns in Hlen, Hrec.
    split; [exact Hlen|]. split.
    + rewrite Hrec by lia. unfold returnAfter.
      replace (Nat.ltb (S (n - 1)) n) with false
        by (symmetry; apply Nat.ltb_ge; lia).
      simpl. lra.
    + intros t Ht. rewrite Hrec by lia. unfold returnAfter.
      replace (Nat.ltb (S t) n) with true by (symmetry; apply Nat.ltb_lt; lia).
      reflexivity.
  - intros s1 s2 s3 H1 H2 H3.
    unfold computeReturns, returnsLoop. simpl. rewrite H1, H2, H3.
    repeat (f_equal; try lra).
  - intros s1 s2 s3 H1 H2 H3.
    unfold computeReturns, returnsLoop. simpl. rewrite H1, H2, H3.
    repeat split; vm_compute; reflexivity.
Qed.

(** The claim at a concrete trajectory of two steps, rewards 2 and 3. *)
Lemma computeReturns_discounted_witness :
  let trajectory : list (PolicyStep R) :=
    [ {| state := []; hidden := []; probs := []; actionIndex := 0; reward := 2%R |};
      {| state := []; hidden := []; probs := []; actionIndex := 1; reward := 3%R |} ] in
  trajectory <> [] /\
  length (computeReturns trajectory) = 2%nat /\
  get (computeReturns trajectory) 1 = 3%R /\
  forall t, (S t < 2)%nat ->
    get (computeReturns trajectory) t =
    (reward (nth t trajectory noStep) + 99 / 100 * get (computeReturns trajectory) (S t))%R.
Proof.
  intros trajectory. split; [discriminate|].
  apply (proj1 computeReturns_discounted trajectory). discriminate.
Defined.

(** C7.  On an empty trajectory [trainOnEpisode] returns its parameters,
    equal in every field, in any arithmetic. *)
Theorem trainOnEpisode_empty :
  forall (T : Type) (AT : Arith T) (params : NetworkParams T),
    trainOnEpisode params [] = params /\
    W1 (trainOnEpisode params []) = W1 params /\
    b1 (trainOnEpisode params []) = b1 params /\
    W2 (trainOnEpisode params []) = W2 params /\
    b2 (trainOnEpisode params []) = b2 params.
Proof. intros. repeat split; reflexivity. Qed.

(** ** ActionSelector *)

Section Sampling.

Context {T : Type} {AT : Arith T}.

Local Open Scope num_scope.

Lemma sampleLoop_spec (r : T) (probabilities : list T) :
  forall (cumulative : T) (i : nat),
    match sampleLoop r cumulative i probabilities with
    | Some k =>
        exists j, k = (i + j)%nat /\ (j < length probabilities)%nat /\
          (r <? fold_left num_add (firstn (S j) probabilities) cumulative) = true /\
          forall j', (j' < j)%nat ->
            (r <? fold_left num_add (firstn (S j') probabilities) cumulative) = false
    | None =>
        forall j, (j < length probabilities)%nat ->
          (r <? fold_left num_add (firstn (S j) probabilities) cumulative) = false
    end.
Proof.
  induction probabilities as [|p rest IH]; intros cumulative i; simpl.
  - intros j Hj. lia.
  - destruct (r <? cumulative + p) eqn:Hlt.
    + exists 0%nat. simpl. repeat split; auto; try lia.
    + specialize (IH (cumulative + p) (S i)).
      destruct (sampleLoop r (cumulative + p) (S i) rest) as [k|].
      * destruct IH as (j & -> & Hj & Hhit & Hmiss).
        exists (S j). repeat split; auto; try lia.
        intros [|j'] Hj'; simpl; auto. apply Hmiss. lia.
      * intros [|j] Hj; simpl; auto. apply IH. lia.
Qed.

End Sampling.

(** C8.  For a non-empty probability vector and any draw,
    [sampleActionIndex] returns a valid index: the first one at which the
    accumulated mass exceeds the draw, or, when the mass never exceeds it,
    the last index.  This holds in any arithmetic, binary64 included. *)
Theorem sampleActionIndex_first_exceeding :
  forall (T : Type) (AT : Arith T) (r : T) (probabilities : list T),
    probabilities <> [] ->
    exists i : nat,
      sampleActionIndex r probabilities = Z.of_nat i /\
      (i < length probabilities)%nat /\
      ((num_ltb r (cumulativeMass probabilities (S i)) = true /\
        forall j, (j < i)%nat -> num_ltb r (cumulativeMass probabilities (S j)) = false)
       \/
       (i = (length probabilities - 1)%nat /\
        forall j, (j < length probabilities)%nat ->
          num_ltb r (cumulativeMass probabilities (S j)) = false)).
Proof.
  intros T AT r probabilities Hne.
  assert (Hlen : (0 < length probabilities)%nat)
    by (destruct probabilities; simpl; [congruence|lia]).
  unfold sampleActionIndex, cumulativeMass.
  pose proof (sampleLoop_spec r probabilities (num_of_Z 0) 0) as H.
  destruct (sampleLoop r (num_of_Z 0) 0 probabilities) as [k|].
  - destruct H as (j & -> & Hj & Hhit & Hmiss).
    exists j. simpl. repeat split; auto.
  - exists (length probabilities - 1)%nat. repeat split; try lia.
    right. split; auto.
Qed.

(** The claim on the binary64 distribution [0.25, 0.5, 0.25] with the draw
    [0.5]: the mass first exceeds the draw at index 1. *)
Lemma sampleActionIndex_first_exceeding_witness :
  [0.25; 0.5; 0.25]%float <> [] /\
  exists i : nat,
    sampleActionIndex 0.5%float [0.25; 0.5; 0.25]%float = Z.of_nat i /\
    (i < 3)%nat /\
    ((num_ltb 0.5%float (cumulativeMass [0.25; 0.5; 0.25]%float (S i)) = true /\
      forall j, (j < i)%nat ->
        num_ltb 0.5%float (cumulativeMass [0.25; 0.5; 0.25]%float (S j)) = false)
     \/
     (i = 2%nat /\
      forall j, (j < 3)%nat ->
        num_ltb 0.5%float (cumulativeMass [0.25; 0.5; 0.25]%float (S j)) = false)).
Proof.
  split; [discriminate|].
  apply (@sampleActionIndex_first_exceeding float _ 0.5%float [0.25; 0.5; 0.25]%float).
  discriminate.
Defined.

Example sampleActionIndex_runs :
  sampleActionIndex 0.5%float [0.25; 0.5; 0.25]%float = 1%Z /\
  sampleActionIndex 0.5%float [0.25; 0.25]%float = 1%Z /\
  sampleActionIndex PrimFloat.nan [0.25; 0.5; 0.25]%float = 2%Z.
Proof. repeat split. Qed.

(** ** Episode metrics *)

Lemma reachable_invariant (m : EpisodeMetrics) :
  reachable m ->
  (0 <= steps m)%Z /\ totalReward m = steps m /\ (0 <= episodes m)%Z /\
  (0 <= last m <= best m)%Z.
Proof.
  induction 1 as [|m m' Hr IH Hstep].
  - simpl. lia.
  - destruct Hstep; simpl; lia.
Qed.

Example metrics_run :
  let m := metricsOnStep (metricsOnDone (metricsOnStep (metricsOnStep initialMetrics))) in
  m = {| steps := 1; totalReward := 1; episodes := 1; best := 3; last := 3 |} /\
  metricsOnDone m = {| steps := 0; totalReward := 0; episodes := 2; best := 3; last := 2 |} /\
  metricsOnReset m = {| steps := 0; totalReward := 0; episodes := 1; best := 3; last := 3 |}.
Proof. repeat split. Qed.

(** ** PhysicsEngine, in exact arithmetic *)

Local Open Scope R_scope.

Ltac to_R :=
  cbn [num_of_Z num_add num_sub num_mul num_div num_ltb num_max num_abs num_undef
       num_exp num_tanh num_sin num_cos num_pi Arith_R Transcendental_R] in *.

Ltac unfold_constants :=
  unfold angleLimit, trackLimit, gravity, tau, poleMassLength, totalMass, forceMag,
    learningRate, discountFactor in *;
  unfold poleLength, massPole, massCart in *;
  unfold dec in *.

Lemma Rltb_true (a b : R) : Rltb a b = true <-> (a < b)%R.
Proof. unfold Rltb. destruct (Rlt_dec a b); split; intros; auto; congruence. Qed.

Lemma Rltb_false (a b : R) : Rltb a b = false <-> (b <= a)%R.
Proof.
  unfold Rltb. destruct (Rlt_dec a b); split; intros; auto; try congruence; lra.
Qed.

Lemma cos_sqr_le_1 (t : R) : (0 <= cos t * cos t <= 1)%R.
Proof.
  pose proof (COS_bound t) as [H1 H2]. split; nra.
Qed.

Lemma thetaAccDenominator_lower (t : R) :
  (1 / 2 * (4 / 3 - 1 / 11) <= thetaAccDenominator (cos t))%R.
Proof.
  unfold thetaAccDenominator. unfold_constants. to_R.
  pose proof (cos_sqr_le_1 t) as [H1 H2].
  replace (1 / 10 * cos t * cos t / (1 + 1 / 10))%R with (1 / 11 * (cos t * cos t))%R by field.
  lra.
Qed.

(** C10, as the code has it.  In exact arithmetic, for every real pole
    angle the denominator of the angular acceleration,
    [length * (4/3 - massPole * cos^2 theta / totalMass)], is at least
    [0.5 * (4/3 - 1/11)], hence positive, and [totalMass], the only other
    divisor, is 1.1: no division of [stepCartPole] is by zero, and the new
    angular velocity is the quotient by that denominator.  (The step has no
    guard against non-finite values, and binary64 can overflow.) *)
Theorem stepCartPole_denominator_positive :
  forall (s : CartPoleState R) (action : Z),
    let d := thetaAccDenominator (cos (theta s)) in
    (1 / 2 * (4 / 3 - 1 / 11) <= d)%R /\
    (0 < d)%R /\
    (totalMass = 11 / 10 :> R)%R /\
    thetaDot (fst (stepCartPole s action)) =
    (thetaDot s + tau *
       ((gravity * sin (theta s) -
         cos (theta s) *
         ((IZR action * forceMag + poleMassLength * thetaDot s * thetaDot s * sin (theta s))
          / totalMass)) / d))%R.
Proof.
  intros s action d.
  pose proof (thetaAccDenominator_lower (theta s)) as H. fold d in H.
  repeat split.
  - exact H.
  - lra.
  - unfold_constants. to_R. lra.
Qed.

Lemma stepCartPole_fst (s : CartPoleState R) (action : Z) :
  fst (stepCartPole s action) = specEulerStep s action.
Proof.
  unfold stepCartPole, specEulerStep, specXAcc, specThetaAcc, specTemp, specForce.
  pose proof (thetaAccDenominator_lower (theta s)) as Hd.
  unfold thetaAccDenominator in Hd.
  unfold_constants. to_R. cbn [fst].
  set (c := cos (theta s)) in *. set (sn := sin (theta s)) in *.
  assert (Hc : (0 <= c * c <= 1)%R) by apply cos_sqr_le_1.
  f_equal; try reflexivity; field; nra.
Qed.

(** Taylor bounds of the sine and the cosine at 0.05. *)
Lemma sin_005_bounds : 0.0499791 <= sin (5 / 100) <= 0.0499792.
Proof.
  assert (Hpi : 1 < PI / 2) by apply PI2_1.
  pose proof (sin_bound (5 / 100) 0 ltac:(lra) ltac:(lra)) as [Hl Hu].
  unfold sin_approx, sin_term in Hl, Hu. cbn [Nat.mul Nat.add sum_f_R0] in Hl, Hu.
  simpl in Hl, Hu.
  split; lra.
Qed.

Lemma cos_005_bounds : 0.99875 <= cos (5 / 100) <= 0.9987503.
Proof.
  assert (Hpi : 1 < PI / 2) by apply PI2_1.
  pose proof (cos_bound (5 / 100) 0 ltac:(lra) ltac:(lra)) as [Hl Hu].
  unfold cos_approx, cos_term in Hl, Hu. cbn [Nat.mul Nat.add sum_f_R0] in Hl, Hu.
  simpl in Hl, Hu.
  split; lra.
Qed.

(** The step from x = 0, xDot = 0, theta = 0.05, thetaDot = 0 under action
    +1, to six decimal places. *)
Lemma golden_step :
  let golden := {| x := 0; xDot := 0; theta := 5 / 100; thetaDot := 0 |} in
  let next := fst (stepCartPole golden 1) in
  x next = 0 /\ theta next = 5 / 100 /\
  Rabs (xDot next - 0.194371) < 1 / 1000000 /\
  Rabs (thetaDot next - -0.276498) < 1 / 1000000.
Proof.
  intros golden next. unfold next. rewrite stepCartPole_fst.
  unfold specEulerStep, specXAcc, specThetaAcc, specTemp, specForce.
  cbn [x xDot theta thetaDot golden].
  pose proof sin_005_bounds as Hs. pose proof cos_005_bounds as Hc.
  set (s := sin (5 / 100)) in *. set (c := cos (5 / 100)) in *.
  replace ((1 * 10 + 1 / 10 * (1 / 2) * 0 ^ 2 * s) / (1 + 1 / 10)) with (100 / 11) by field.
  assert (Hc2 : 0.9975015 <= c * c <= 0.9975022) by nra.
  replace (c ^ 2) with (c * c) by ring.
  set (D := 1 / 2 * (4 / 3 - 1 / 10 * (c * c) / (1 + 1 / 10))).
  set (N := 98 / 10 * s - c * (100 / 11)).
  assert (HD : 0 < D) by (unfold D; lra).
  assert (HQ : -13.82489 < N / D < -13.82487).
  { split.
    - apply Rmult_lt_reg_r with D; [exact HD|].
      replace (N / D * D) with N by (field; lra). unfold N, D. lra.
    - apply Rmult_lt_reg_r with D; [exact HD|].
      replace (N / D * D) with N by (field; lra). unfold N, D. lra. }
  set (Q := N / D) in *.
  assert (HQc : -13.8077 < Q * c < -13.8075) by nra.
  repeat split; try lra.
  - apply Rabs_def1.
    + replace (1 / 10 * (1 / 2) * Q * c / (1 + 1 / 10)) with (Q * c / 22) by field. lra.
    + replace (1 / 10 * (1 / 2) * Q * c / (1 + 1 / 10)) with (Q * c / 22) by field. lra.
  - apply Rabs_def1; lra.
Qed.

(** C3.  For every state and action in {-1, +1}, [stepCartPole] computes
    the next state by one explicit Euler step of the cart-pole equations
    with gravity 9.8, cart mass 1, pole mass 0.1, half-length 0.5, force 10
    and timestep 0.02: every component advances by 0.02 times its
    derivative.  From the state x = 0, xDot = 0, theta = 0.05, thetaDot = 0
    with action +1 the next state is the one of these formulas, which to six
    decimal places is x = 0, xDot = 0.194371, theta = 0.05,
    thetaDot = -0.276498. *)
Theorem stepCartPole_euler :
  forall (s : CartPoleState R) (action : Z),
    action = 1%Z \/ action = (-1)%Z ->
    (fst (stepCartPole s action) = specEulerStep s action /\
     x (fst (stepCartPole s action)) = x s + 2 / 100 * xDot s /\
     theta (fst (stepCartPole s action)) = theta s + 2 / 100 * thetaDot s /\
     xDot (fst (stepCartPole s action)) = xDot s + 2 / 100 * specXAcc s action /\
     thetaDot (fst (stepCartPole s action)) = thetaDot s + 2 / 100 * specThetaAcc s action /\
     (specForce action = 10 \/ specForce action = -10)) /\
    let golden := {| x := 0; xDot := 0; theta := 5 / 100; thetaDot := 0 |} in
    let next := fst (stepCartPole golden 1) in
    next = specEulerStep golden 1 /\
    x next = 0 /\ theta next = 5 / 100 /\
    Rabs (xDot next - 0.194371) < 1 / 1000000 /\
    Rabs (thetaDot next - -0.276498) < 1 / 1000000.
Proof.
  intros s action Ha. split.
  - split; [apply stepCartPole_fst|].
    rewrite stepCartPole_fst. cbn [x xDot theta thetaDot specEulerStep].
    repeat split; try reflexivity.
    unfold specForce. destruct Ha as [-> | ->]; [left|right]; lra.
  - intros golden next. split; [apply stepCartPole_fst|]. exact golden_step.
Qed.

(** The claim at the golden state itself. *)
Lemma stepCartPole_euler_witness :
  let golden := {| x := 0; xDot := 0; theta := 5 / 100; thetaDot := 0 |} in
  (1%Z = 1%Z \/ 1%Z = (-1)%Z) /\
  fst (stepCartPole golden 1) = specEulerStep golden 1 /\
  Rabs (xDot (fst (stepCartPole golden 1)) - 0.194371) < 1 / 1000000 /\
  Rabs (thetaDot (fst (stepCartPole golden 1)) - -0.276498) < 1 / 1000000.
Proof.
  intros golden.
  assert (H : 1%Z = 1%Z \/ 1%Z = (-1)%Z) by (left; reflexivity).
  pose proof (@stepCartPole_euler golden 1%Z H) as [[E _] (_ & _ & _ & G1 & G2)].
  split; [exact H|]. split; [exact E|]. split; [exact G1 | exact G2].
Defined.

Lemma stepCartPole_done (s : CartPoleState R) (action : Z) :
  snd (stepCartPole s action) = true <->
  (Rabs (x (fst (stepCartPole s action))) > 24 / 10 \/
   Rabs (theta (fst (stepCartPole s action))) > 12 * PI / 180)%R.
Proof.
  unfold stepCartPole. cbn [fst snd x theta].
  rewrite orb_true_iff. unfold_constants. to_R.
  rewrite !Rltb_true. unfold Rgt. tauto.
Qed.

(** C4.  The terminal flag of [stepCartPole] is true exactly when the new
    cart position exceeds 2.4 in magnitude or the new pole angle exceeds 12
    degrees (in radians) in magnitude.  The comparison is strict: a new
    angle exactly at the limit, with the cart on the track, is not terminal;
    and the flag is monotone in the two magnitudes.  In binary64, whatever
    the implementation of the [Math] functions, the state resting at the
    angle limit [12 * Math.PI / 180] is not terminal and the next binary64
    angle above it is. *)
Theorem stepCartPole_terminal :
  (forall (s : CartPoleState R) (action : Z),
     let next := fst (stepCartPole s action) in
     let done := snd (stepCartPole s action) in
     (done = true <->
      (Rabs (x next) > 24 / 10 \/ Rabs (theta next) > 12 * PI / 180)%R) /\
     ((Rabs (theta next) = 12 * PI / 180)%R -> (Rabs (x next) <= 24 / 10)%R ->
      done = false) /\
     (forall (s' : CartPoleState R) (action' : Z),
        (Rabs (x next) <= Rabs (x (fst (stepCartPole s' action'))))%R ->
        (Rabs (theta next) <= Rabs (theta (fst (stepCartPole s' action'))))%R ->
        done = true -> snd (stepCartPole s' action') = true)) /\
  (forall (fexp ftanh fsin fcos : float -> float) (action : Z),
     let TF := Transcendental_float fexp ftanh fsin fcos in
     let limit : float := angleLimit in
     let at_limit := {| x := 0; xDot := 0; theta := limit; thetaDot := 0 |}%float in
     let above := {| x := 0; xDot := 0; theta := PrimFloat.next_up limit; thetaDot := 0 |}%float in
     let below := {| x := 0; xDot := 0; theta := PrimFloat.next_down limit; thetaDot := 0 |}%float in
     snd (stepCartPole at_limit action) = false /\
     snd (stepCartPole above action) = true /\
     snd (stepCartPole below action) = false).
Proof.
  split.
  - intros s action next done. split; [apply stepCartPole_done|]. split.
    + intros Hth Hx. destruct done eqn:E; auto.
      apply stepCartPole_done in E. fold next in E. lra.
    + intros s' action' Hx Hth E.
      apply stepCartPole_done in E. apply stepCartPole_done. fold next in E. lra.
  - intros fexp ftanh fsin fcos action TF limit at_limit above below.
    unfold stepCartPole. cbn [fst snd x theta xDot thetaDot at_limit above below].
    repeat split; vm_compute; reflexivity.
Qed.

(** The boundary case at the state resting exactly at the angle limit. *)
Lemma stepCartPole_terminal_witness :
  let s := {| x := 0; xDot := 0; theta := 12 * PI / 180; thetaDot := 0 |}%R in
  (Rabs (theta (fst (stepCartPole s 1))) = 12 * PI / 180)%R /\
  (Rabs (x (fst (stepCartPole s 1))) <= 24 / 10)%R /\
  snd (stepCartPole s 1) = false.
Proof.
  intros s.
  assert (Hth : (Rabs (theta (fst (stepCartPole s 1))) = 12 * PI / 180)%R).
  { unfold stepCartPole. cbn [fst theta thetaDot s]. unfold_constants. to_R.
    pose proof PI_RGT_0. rewrite Rabs_pos_eq; lra. }
  assert (Hx : (Rabs (x (fst (stepCartPole s 1))) <= 24 / 10)%R).
  { unfold stepCartPole. cbn [fst x xDot s]. unfold_constants. to_R.
    rewrite Rabs_pos_eq; lra. }
  split; [exact Hth|]. split; [exact Hx|].
  exact (proj1 (proj2 (proj1 stepCartPole_terminal s 1%Z)) Hth Hx).
Defined.

(** ** PolicyNetwork, in exact arithmetic *)

Lemma forwardLogits_two {T : Type} {AT : Arith T} (params : NetworkParams T) (hidden : list T) :
  exists l0 l1 : T, forwardLogits params hidden = [l0; l1].
Proof.
  unfold forwardLogits, outputSize. cbn [for_upto repeat arr_set].
  eexists; eexists; reflexivity.
Qed.

Lemma softmax_two (l0 l1 : R) :
  let m := Rmax l0 l1 in
  softmax [l0; l1] =
  [exp (l0 - m) / (0 + exp (l0 - m) + exp (l1 - m)); exp (l1 - m) / (0 + exp (l0 - m) + exp (l1 - m))]%R.
Proof. reflexivity. Qed.

(** C5, as the code has it.  In exact arithmetic, for every parameter set
    of the network's sizes and every observation of four numbers, the
    probability vector of [forwardNetwork] has two entries, both
    non-negative (indeed positive), which sum to 1, so within 1e-6 of 1.
    (In binary64 a logit can overflow and both entries be NaN.) *)
Theorem forwardNetwork_distribution :
  forall (params : NetworkParams R) (inputVector : list R),
    wellShaped params -> length inputVector = 4%nat ->
    let probs := snd (forwardNetwork params inputVector) in
    length probs = 2%nat /\
    Forall (fun p => 0 <= p)%R probs /\
    (0 < get probs 0)%R /\ (0 < get probs 1)%R /\
    (get probs 0 + get probs 1 = 1)%R /\
    (Rabs (get probs 0 + get probs 1 - 1) < 1 / 1000000)%R.
Proof.
  intros params inputVector _ _ probs. unfold probs, forwardNetwork. cbn [snd].
  destruct (forwardLogits_two params (forwardHidden params inputVector)) as (l0 & l1 & ->).
  rewrite softmax_two. set (m := Rmax l0 l1).
  pose proof (exp_pos (l0 - m)) as H0. pose proof (exp_pos (l1 - m)) as H1.
  set (e0 := exp (l0 - m)) in *. set (e1 := exp (l1 - m)) in *.
  assert (Hd : (0 < 0 + e0 + e1)%R) by lra.
  assert (P0 : (0 < e0 / (0 + e0 + e1))%R) by (apply Rdiv_lt_0_compat; lra).
  assert (P1 : (0 < e1 / (0 + e0 + e1))%R) by (apply Rdiv_lt_0_compat; lra).
  assert (Hsum : (e0 / (0 + e0 + e1) + e1 / (0 + e0 + e1) = 1)%R) by (field; lra).
  unfold get. cbn [nth length].
  repeat split; auto.
  - repeat constructor; lra.
  - rewrite Hsum, Rminus_diag, Rabs_R0. lra.
Qed.

Lemma forwardNetwork_distribution_witness :
  let probs := snd (forwardNetwork overshootParams overshootObs) in
  wellShaped overshootParams /\ length overshootObs = 4%nat /\
  (0 < get probs 0)%R /\ (0 < get probs 1)%R /\ (get probs 0 + get probs 1 = 1)%R.
Proof.
  intros probs.
  assert (H1 : wellShaped overshootParams) by (repeat split).
  assert (H2 : length overshootObs = 4%nat) by reflexivity.
  split; [exact H1|]. split; [exact H2|].
  destruct (@forwardNetwork_distribution overshootParams overshootObs H1 H2)
    as (_ & _ & P0 & P1 & S & _).
  split; [exact P0|]. split; [exact P1 | exact S].
Defined.

(** ** Trainer, in binary64: non-finite values *)

Lemma is_finite_SF (x : float) :
  PrimFloat.is_finite x =
  match Prim2SF x with
  | S754_nan | S754_infinity _ => false
  | _ => true
  end.
Proof.
  unfold PrimFloat.is_finite, PrimFloat.is_nan, PrimFloat.is_infinity.
  rewrite !eqb_spec, abs_spec.
  replace (Prim2SF infinity) with (S754_infinity false) by reflexivity.
  destruct (Prim2SF x) as [s| s | |s m e]; try destruct s; try reflexivity;
    unfold SFeqb, SFcompare, SFabs;
    rewrite ?Z.compare_refl, ?Pos.compare_refl, ?Pos.compare_cont_refl; reflexivity.
Qed.

(** A non-finite gradient makes the updated parameter non-finite, whatever
    the old parameter and the scale. *)
Lemma update_nonfinite (w scale g : float) :
  PrimFloat.is_finite g = false ->
  PrimFloat.is_finite (w + scale * g)%float = false.
Proof.
  rewrite !is_finite_SF, add_spec, mul_spec.
  unfold SF64add, SF64mul.
  destruct (Prim2SF g) as [sg|sg| |sg mg eg]; try discriminate; intros _.
  - destruct (Prim2SF scale) as [ss|ss| |ss ms es], (Prim2SF w) as [sw|sw| |sw mw ew];
      cbn [SFmul SFadd]; try reflexivity;
      destruct sw, ss, sg; reflexivity.
  - destruct (Prim2SF scale) as [ss|ss| |ss ms es], (Prim2SF w) as [sw|sw| |sw mw ew];
      reflexivity.
Qed.

Lemma get_mapi {T : Type} {AT : Arith T} (f : T -> nat -> T) (l : list T) (i : nat) :
  (i < length l)%nat -> get (mapi f l) i = f (get l i) i.
Proof. intros H. unfold get. now apply nth_mapi. Qed.

Lemma trainOnEpisode_field {T : Type} {AT : Arith T}
    (params : NetworkParams T) (trajectory : list (PolicyStep T)) (f : Field) :
  trajectory <> [] ->
  paramField f (trainOnEpisode params trajectory) =
  mapi (fun w index =>
          num_add w (num_mul (updateScale trajectory)
                       (get (gradField f (episodeGradients params trajectory)) index)))
       (paramField f params).
Proof.
  intros Hne. unfold trainOnEpisode.
  destruct trajectory as [|s tr]; [congruence|].
  cbn [length Nat.eqb]. cbv zeta.
  destruct f; cbn [paramField gradField W1 b1 W2 b2]; reflexivity.
Qed.

(** C1, as the code has it.  [trainOnEpisode] has no finiteness check.  For
    every parameter set and every trajectory, each returned array has the
    length of the input array; and for a non-empty trajectory, wherever the
    accumulated gradient is non-finite (NaN or infinite) the returned
    parameter is non-finite too: the update is applied, not discarded. *)
Theorem trainOnEpisode_propagates_nonfinite :
  forall (params : NetworkParams float) (trajectory : list (PolicyStep float)) (f : Field),
    length (paramField f (trainOnEpisode params trajectory)) = length (paramField f params) /\
    (forall i : nat,
       trajectory <> [] ->
       (i < length (paramField f params))%nat ->
       PrimFloat.is_finite (get (gradField f (episodeGradients params trajectory)) i) = false ->
       PrimFloat.is_finite (get (paramField f (trainOnEpisode params trajectory)) i) = false).
Proof.
  intros params trajectory f. split.
  - destruct trajectory as [|step rest]; [reflexivity|].
    rewrite trainOnEpisode_field by discriminate. apply mapi_length.
  - intros i Hne Hi Hg.
    rewrite trainOnEpisode_field by assumption.
    rewrite get_mapi by assumption. now apply update_nonfinite.
Qed.

Lemma trainOnEpisode_propagates_nonfinite_witness :
  overflowEpisode <> [] /\
  (0 < length (paramField Fieldb2 overflowParams))%nat /\
  PrimFloat.is_finite
    (get (gradField Fieldb2 (episodeGradients overflowParams overflowEpisode)) 0) = false /\
  length (paramField Fieldb2 (trainOnEpisode overflowParams overflowEpisode)) =
  length (paramField Fieldb2 overflowParams) /\
  PrimFloat.is_finite
    (get (paramField Fieldb2 (trainOnEpisode overflowParams overflowEpisode)) 0) = false.
Proof.
  assert (H1 : overflowEpisode <> []) by discriminate.
  assert (H2 : (0 < length (paramField Fieldb2 overflowParams))%nat) by (simpl; lia).
  assert (H3 : PrimFloat.is_finite
                 (get (gradField Fieldb2 (episodeGradients overflowParams overflowEpisode)) 0)
               = false) by (vm_compute; reflexivity).
  split; [exact H1|]. split; [exact H2|]. split; [exact H3|].
  destruct (@trainOnEpisode_propagates_nonfinite overflowParams overflowEpisode Fieldb2)
    as [Hlen Hnf].
  split; [exact Hlen | exact (Hnf 0%nat H1 H2 H3)].
Defined.

(** C1 fails as stated: on finite parameters and a finite three-step episode
    whose first return overflows, the accumulated gradients and the
    resulting parameters are non-finite, and [trainOnEpisode] returns those
    parameters, not its input. *)
Lemma trainOnEpisode_nonfinite_not_discarded :
  paramsFinite overflowParams = true /\
  forallb stepFinite overflowEpisode = true /\
  gradientsFinite (episodeGradients overflowParams overflowEpisode) = false /\
  paramsFinite (trainOnEpisode overflowParams overflowEpisode) = false /\
  b2 (trainOnEpisode overflowParams overflowEpisode) = [infinity; neg_infinity] /\
  W1 (trainOnEpisode overflowParams overflowEpisode) = repeat nan 32 /\
  trainOnEpisode overflowParams overflowEpisode <> overflowParams.
Proof.
  repeat split; try (vm_compute; reflexivity).
  intros H.
  apply (f_equal (fun p => PrimFloat.is_finite (get (b2 p) 0))) in H.
  vm_compute in H. discriminate.
Qed.

(** ** The hyperbolic tangent *)

Lemma tanh_exp (u : R) :
  tanh u = ((exp u * exp u - 1) / (exp u * exp u + 1))%R.
Proof.
  unfold tanh, sinh, cosh. rewrite exp_Ropp.
  pose proof (exp_pos u). field. split; nra.
Qed.

Lemma tanh_0 : tanh 0 = 0%R.
Proof. rewrite tanh_exp, exp_0. field. Qed.

Lemma tanh_opp (u : R) : tanh (- u) = (- tanh u)%R.
Proof.
  rewrite !tanh_exp, exp_Ropp. pose proof (exp_pos u). field. split; nra.
Qed.

Lemma tanh_le (u v : R) : (u <= v)%R -> (tanh u <= tanh v)%R.
Proof.
  intros H. rewrite !tanh_exp.
  pose proof (exp_pos u) as Hu. pose proof (exp_pos v) as Hv.
  assert (He : (exp u <= exp v)%R).
  { destruct H as [H | ->]; [left; now apply exp_increasing | right; reflexivity]. }
  set (a := exp u) in *. set (b := exp v) in *.
  apply Rmult_le_reg_r with ((a * a + 1) * (b * b + 1))%R; [nra|].
  replace ((a * a - 1) / (a * a + 1) * ((a * a + 1) * (b * b + 1)))%R
    with ((a * a - 1) * (b * b + 1))%R by (field; nra).
  replace ((b * b - 1) / (b * b + 1) * ((a * a + 1) * (b * b + 1)))%R
    with ((b * b - 1) * (a * a + 1))%R by (field; nra).
  nra.
Qed.

Lemma tanh_bounds (u : R) : (-1 < tanh u < 1)%R.
Proof.
  rewrite tanh_exp. pose proof (exp_pos u) as Hu. set (a := exp u) in *.
  assert (Hd : (0 < a * a + 1)%R) by nra.
  split.
  - apply Rmult_lt_reg_r with (a * a + 1)%R; [assumption|].
    replace ((a * a - 1) / (a * a + 1) * (a * a + 1))%R with (a * a - 1)%R by (field; nra).
    nra.
  - apply Rmult_lt_reg_r with (a * a + 1)%R; [assumption|].
    replace ((a * a - 1) / (a * a + 1) * (a * a + 1))%R with (a * a - 1)%R by (field; nra).
    nra.
Qed.

Lemma tanh_nonneg (u : R) : (0 <= u)%R -> (0 <= tanh u)%R.
Proof. intros H. rewrite <- tanh_0. now apply tanh_le. Qed.

Lemma tanh_nonpos (u : R) : (u <= 0)%R -> (tanh u <= 0)%R.
Proof. intros H. rewrite <- tanh_0. now apply tanh_le. Qed.

Lemma cosh_pos (u : R) : (0 < cosh u)%R.
Proof. unfold cosh. pose proof (exp_pos u). pose proof (exp_pos (- u)). lra. Qed.

Lemma sinh_nonneg (u : R) : (0 <= u)%R -> (0 <= sinh u)%R.
Proof.
  intros [H | <-]; [|rewrite sinh_0; lra].
  left. rewrite <- sinh_0. now apply sinh_lt.
Qed.

(** [sinh v <= v * cosh v] for [v >= 0], by the mean value theorem:
    the derivative of [v * cosh v - sinh v] is [v * sinh v]. *)
Lemma sinh_le_id_cosh (v : R) : (0 <= v)%R -> (sinh v <= v * cosh v)%R.
Proof.
  intros [Hv | <-]; [|rewrite sinh_0; lra].
  destruct (MVT_cor2 (fun w => w * cosh w - sinh w)%R (fun w => w * sinh w)%R 0 v Hv)
    as (c & Hc & Hc0).
  - intros w _.
    replace (w * sinh w)%R with ((1 * cosh w + w * sinh w) - cosh w)%R by ring.
    apply (derivable_pt_lim_minus (fun w => w * cosh w)%R sinh).
    + apply (derivable_pt_lim_mult id cosh).
      * apply derivable_pt_lim_id.
      * apply derivable_pt_lim_cosh.
    + apply derivable_pt_lim_sinh.
  - cbv beta in Hc. rewrite sinh_0, Rmult_0_l in Hc.
    assert (Hs : (0 <= sinh c)%R) by (apply sinh_nonneg; lra).
    assert (0 <= c * sinh c * (v - 0))%R by (apply Rmult_le_pos; [apply Rmult_le_pos|]; lra).
    lra.
Qed.

Lemma tanh_le_id (v : R) : (0 <= v)%R -> (tanh v <= v)%R.
Proof.
  intros H. unfold tanh. pose proof (cosh_pos v) as Hc.
  apply Rmult_le_reg_r with (cosh v); [assumption|].
  replace (sinh v / cosh v * cosh v)%R with (sinh v) by (field; lra).
  now apply sinh_le_id_cosh.
Qed.

Lemma tanh_ge_id (v : R) : (v <= 0)%R -> (v <= tanh v)%R.
Proof.
  intros H. pose proof (@tanh_le_id (- v)) as H1. rewrite tanh_opp in H1. lra.
Qed.

(** ** One hidden unit under the update *)

Lemma prod_ge_neg_sqr_diff (a b : R) : - ((b - a) * (b - a)) <= 4 * (a * b).
Proof. pose proof (Rle_0_sqr (a + b)) as H. unfold Rsqr in H. lra. Qed.

(** The change of one hidden unit's contribution to the difference of the
    two logits: the pre-activation moves from [u] to [u + c * D] in the
    direction of the weight difference [D], and the weight difference
    itself grows by [r * tanh u]. *)
Lemma unit_gain (u u' D c r : R) :
  (0 <= c)%R -> (0 <= r)%R -> u' = (u + c * D)%R -> (c * r <= 4)%R ->
  (0 <= D * (tanh u' - tanh u) + r * (tanh u * tanh u'))%R.
Proof.
  intros Hc Hr Hu Hcr.
  destruct (Rle_dec 0 (tanh u * tanh u')) as [Hs | Hs].
  - (* same sign: both terms are non-negative *)
    assert (0 <= D * (tanh u' - tanh u))%R.
    { destruct (Rle_dec 0 D) as [HD | HD].
      - assert (tanh u <= tanh u')%R by (apply tanh_le; nra). nra.
      - assert (tanh u' <= tanh u)%R by (apply tanh_le; nra). nra. }
    nra.
  - (* the unit changes sign *)
    apply Rnot_le_lt in Hs.
    destruct (Rle_dec 0 D) as [HD | HD].
    + assert (Hm : (tanh u <= tanh u')%R) by (apply tanh_le; nra).
      assert (Hneg : (u < 0)%R).
      { apply Rnot_le_lt. intros H0. pose proof (tanh_nonneg H0).
        assert (0 <= tanh u')%R by lra. nra. }
      assert (Hpos : (0 < u')%R).
      { apply Rnot_le_lt. intros H0. pose proof (tanh_nonpos H0).
        assert (tanh u <= 0)%R by lra. nra. }
      pose proof (tanh_ge_id (Rlt_le _ _ Hneg)) as H1.
      pose proof (tanh_le_id (Rlt_le _ _ Hpos)) as H2.
      set (t := tanh u) in *. set (t' := tanh u') in *.
      assert (Hd : (0 <= t' - t <= c * D)%R) by lra.
      pose proof (prod_ge_neg_sqr_diff t t') as Hq.
      assert (Hcd : ((t' - t) * (t' - t) <= (t' - t) * (c * D))%R) by nra.
      assert (Hrcd : (r * ((t' - t) * (c * D)) <= 4 * (D * (t' - t)))%R).
      { replace (r * ((t' - t) * (c * D)))%R with ((c * r) * (D * (t' - t)))%R by ring.
        assert (0 <= D * (t' - t))%R by nra. nra. }
      nra.
    + apply Rnot_le_lt in HD.
      assert (Hm : (tanh u' <= tanh u)%R) by (apply tanh_le; nra).
      assert (Hpos : (0 < u)%R).
      { apply Rnot_le_lt. intros H0. pose proof (tanh_nonpos H0).
        assert (tanh u' <= 0)%R by lra. nra. }
      assert (Hneg : (u' < 0)%R).
      { apply Rnot_le_lt. intros H0. pose proof (tanh_nonneg H0).
        assert (0 <= tanh u)%R by lra. nra. }
      pose proof (tanh_le_id (Rlt_le _ _ Hpos)) as H1.
      pose proof (tanh_ge_id (Rlt_le _ _ Hneg)) as H2.
      set (t := tanh u) in *. set (t' := tanh u') in *.
      assert (Hd : (0 <= t - t' <= c * (- D))%R) by lra.
      pose proof (prod_ge_neg_sqr_diff t' t) as Hq.
      assert (Hcd : ((t - t') * (t - t') <= (t - t') * (c * (- D)))%R) by nra.
      assert (Hrcd : (r * ((t - t') * (c * (- D))) <= 4 * (D * (t' - t)))%R).
      { replace (r * ((t - t') * (c * (- D))))%R with ((c * r) * (D * (t' - t)))%R by ring.
        assert (0 <= D * (t' - t))%R by nra. nra. }
      nra.
Qed.

(** ** The forward pass and a one-step episode, unrolled *)

Section Unrolled.

Context {T : Type} {AT : Arith T}.

Lemma episodeGradients_one_step (params : NetworkParams T) (step : PolicyStep T) :
  let A := num_add (reward step) (num_mul discountFactor (num_of_Z 0)) in
  episodeGradients params [step] =
  {| gradW1 :=
       map (fun k => num_add (num_of_Z 0)
                       (num_mul (delta1 params step A (k / inputSize))
                                (get (state step) (k mod inputSize))))
           (seq 0 (hiddenSize * inputSize));
     gradb1 :=
       map (fun h => num_add (num_of_Z 0) (delta1 params step A h)) (seq 0 hiddenSize);
     gradW2 :=
       map (fun k => num_add (num_of_Z 0)
                       (num_mul (delta2 step A (k / hiddenSize))
                                (get (hidden step) (k mod hiddenSize))))
           (seq 0 (outputSize * hiddenSize));
     gradb2 :=
       map (fun o => num_add (num_of_Z 0) (delta2 step A o)) (seq 0 outputSize) |}.
Proof. reflexivity. Qed.

Context {TT : Transcendental T}.

Lemma forwardHidden_units (params : NetworkParams T) (inputVector : list T) :
  forwardHidden params inputVector =
  map (fun i => num_tanh (preActivation params inputVector i)) (seq 0 hiddenSize).
Proof. reflexivity. Qed.

Lemma forwardLogits_units (params : NetworkParams T) (hidden : list T) :
  forwardLogits params hidden = [logit params hidden 0; logit params hidden 1].
Proof. reflexivity. Qed.

End Unrolled.

Section Entries.

Context {T : Type} {AT : Arith T}.

Local Tactic Notation "by_cases_below" integer(n) ident(i) :=
  do n (destruct i as [|i]; [try reflexivity|]); try lia.

Lemma gradb2_entry (params : NetworkParams T) (step : PolicyStep T) (o : nat) :
  (o < 2)%nat ->
  get (gradb2 (episodeGradients params [step])) o =
  num_add (num_of_Z 0)
    (delta2 step (num_add (reward step) (num_mul discountFactor (num_of_Z 0))) o).
Proof. intros H. by_cases_below 2 o. Qed.

Lemma gradb1_entry (params : NetworkParams T) (step : PolicyStep T) (h : nat) :
  (h < 8)%nat ->
  get (gradb1 (episodeGradients params [step])) h =
  num_add (num_of_Z 0)
    (delta1 params step (num_add (reward step) (num_mul discountFactor (num_of_Z 0))) h).
Proof. intros H. by_cases_below 8 h. Qed.

Lemma gradW2_entry (params : NetworkParams T) (step : PolicyStep T) (o h : nat) :
  (o < 2)%nat -> (h < 8)%nat ->
  get (gradW2 (episodeGradients params [step])) (o * 8 + h) =
  num_add (num_of_Z 0)
    (num_mul (delta2 step (num_add (reward step) (num_mul discountFactor (num_of_Z 0))) o)
             (get (hidden step) h)).
Proof.
  intros Ho Hh.
  do 2 (destruct o as [|o]; [by_cases_below 8 h|]). lia.
Qed.

Lemma gradW1_entry (params : NetworkParams T) (step : PolicyStep T) (h i : nat) :
  (h < 8)%nat -> (i < 4)%nat ->
  get (gradW1 (episodeGradients params [step])) (h * 4 + i) =
  num_add (num_of_Z 0)
    (num_mul (delta1 params step (num_add (reward step) (num_mul discountFactor (num_of_Z 0))) h)
             (get (state step) i)).
Proof.
  intros Hh Hi.
  do 8 (destruct h as [|h]; [by_cases_below 4 i|]). lia.
Qed.

Context {TT : Transcendental T}.

Lemma forwardHidden_entry (params : NetworkParams T) (inputVector : list T) (h : nat) :
  (h < 8)%nat ->
  get (forwardHidden params inputVector) h = num_tanh (preActivation params inputVector h).
Proof. intros H. by_cases_below 8 h. Qed.

End Entries.

Lemma sumOver_nonneg (n : nat) (f : nat -> R) :
  (forall h, (h < n)%nat -> 0 <= f h) -> 0 <= sumOver n f.
Proof.
  intros H. unfold sumOver. induction n as [|n IH]; cbn [for_upto]; to_R.
  - lra.
  - assert (0 <= f n) by (apply H; lia).
    assert (0 <= for_upto n (fun h acc => acc + f h) 0) by (apply IH; intros; apply H; lia).
    lra.
Qed.

Lemma updateScale_one_step (step : PolicyStep R) : updateScale [step] = 2 / 100.
Proof.
  unfold updateScale. unfold_constants. to_R. cbn [length Z.of_nat Pos.of_succ_nat].
  rewrite Rmax_left by lra. field.
Qed.

(** The update is ascent: every parameter of a well-formed array moves by
    0.02 times its accumulated gradient. *)
Lemma updated_entry (params : NetworkParams R) (step : PolicyStep R) (f : Field) (i : nat) :
  (i < length (paramField f params))%nat ->
  get (paramField f (trainOnEpisode params [step])) i =
  get (paramField f params) i + 2 / 100 * get (gradField f (episodeGradients params [step])) i.
Proof.
  intros H. rewrite trainOnEpisode_field by discriminate.
  rewrite get_mapi by assumption. rewrite updateScale_one_step. reflexivity.
Qed.

(** ** Softmax of two logits *)

Lemma softmax_entry (l0 l1 : R) :
  get (softmax [l0; l1]) 0 = 1 / (1 + exp (- (l0 - l1))) /\
  get (softmax [l0; l1]) 1 = 1 / (1 + exp (- (l1 - l0))).
Proof.
  rewrite softmax_two. unfold get. cbn [nth].
  set (m := Rmax l0 l1).
  assert (H1 : exp (l1 - m) = exp (l0 - m) * exp (- (l0 - l1))).
  { rewrite <- exp_plus. f_equal. ring. }
  assert (H0 : exp (l0 - m) = exp (l1 - m) * exp (- (l1 - l0))).
  { rewrite <- exp_plus. f_equal. ring. }
  pose proof (exp_pos (l0 - m)). pose proof (exp_pos (l1 - m)).
  pose proof (exp_pos (- (l0 - l1))). pose proof (exp_pos (- (l1 - l0))).
  split.
  - rewrite H1. field. split; nra.
  - rewrite H0. field. split; nra.
Qed.

(** The probability of action [a] is the logistic function of the
    difference between its logit and the other one. *)
Lemma forwardNetwork_prob (params : NetworkParams R) (obs : list R) (a : nat) :
  (a < 2)%nat ->
  get (snd (forwardNetwork params obs)) a = 1 / (1 + exp (- logitGap params obs a)).
Proof.
  intros Ha. unfold logitGap, forwardNetwork. cbn [fst snd].
  rewrite forwardLogits_units.
  destruct (softmax_entry (logit params (forwardHidden params obs) 0)
                          (logit params (forwardHidden params obs) 1)) as [E0 E1].
  destruct a as [|[|a]]; [exact E0 | exact E1 | lia].
Qed.

Lemma forwardNetwork_prob_other (params : NetworkParams R) (obs : list R) (a : nat) :
  (a < 2)%nat ->
  let P := snd (forwardNetwork params obs) in
  0 < get P (otherAction a) < 1 /\ get P a = 1 - get P (otherAction a).
Proof.
  intros Ha P.
  assert (Hb : (otherAction a < 2)%nat) by (unfold otherAction; lia).
  unfold P. rewrite (forwardNetwork_prob params obs Ha), (forwardNetwork_prob params obs Hb).
  assert (Hg : logitGap params obs (otherAction a) = - logitGap params obs a).
  { unfold logitGap. destruct a as [|[|a]]; try lia; cbn [otherAction Nat.sub]; ring. }
  rewrite Hg, Ropp_involutive.
  set (z := logitGap params obs a).
  pose proof (exp_pos z) as Hz. pose proof (exp_pos (- z)) as Hnz.
  assert (Hzz : exp z * exp (- z) = 1) by (rewrite <- exp_plus, Rplus_opp_r; apply exp_0).
  assert (E : 1 / (1 + exp z) = exp (- z) / (1 + exp (- z))).
  { apply Rmult_eq_reg_r with ((1 + exp z) * (1 + exp (- z))); [|nra].
    replace (1 / (1 + exp z) * ((1 + exp z) * (1 + exp (- z)))) with (1 + exp (- z))
      by (field; lra).
    replace (exp (- z) / (1 + exp (- z)) * ((1 + exp z) * (1 + exp (- z))))
      with (exp (- z) * (1 + exp z)) by (field; lra).
    nra. }
  repeat split.
  - apply Rdiv_lt_0_compat; lra.
  - apply Rmult_lt_reg_r with (1 + exp z); [lra|].
    replace (1 / (1 + exp z) * (1 + exp z)) with 1 by (field; lra). lra.
  - rewrite E. field. lra.
Qed.

(** The logistic function is increasing. *)
Lemma logistic_lt (z z' : R) :
  z < z' -> 1 / (1 + exp (- z)) < 1 / (1 + exp (- z')).
Proof.
  intros H.
  assert (He : exp (- z') < exp (- z)) by (apply exp_increasing; lra).
  pose proof (exp_pos (- z')). pose proof (exp_pos (- z)).
  unfold Rdiv. rewrite !Rmult_1_l.
  apply Rinv_lt_contravar; nra.
Qed.

(** ** A recorded step and its update *)

Lemma recordStep_fields (params : NetworkParams R) (obs : list R) (a : Z) :
  state (recordStep params obs a) = obs /\
  hidden (recordStep params obs a) = forwardHidden params obs /\
  probs (recordStep params obs a) = snd (forwardNetwork params obs) /\
  actionIndex (recordStep params obs a) = a /\
  reward (recordStep params obs a) = 1.
Proof. repeat split. Qed.

Lemma delta2_recorded (params : NetworkParams R) (obs : list R) (a : nat) :
  (a < 2)%nat ->
  let step := recordStep params obs (Z.of_nat a) in
  let q := get (snd (forwardNetwork params obs)) (otherAction a) in
  delta2 step (1 + 99 / 100 * 0) a = q /\
  delta2 step (1 + 99 / 100 * 0) (otherAction a) = - q.
Proof.
  intros Ha step q.
  destruct (forwardNetwork_prob_other params obs Ha) as [_ Hp].
  unfold delta2, step.
  destruct (recordStep_fields params obs (Z.of_nat a)) as (_ & _ & -> & -> & _).
  fold q in Hp.
  destruct a as [|[|a]]; try lia;
    cbn [otherAction Nat.sub Z.of_nat Z.eqb Pos.of_succ_nat Pos.eqb] in *; to_R;
    rewrite Hp; fold q; split; ring.
Qed.

Lemma delta1_recorded (params : NetworkParams R) (obs : list R) (a h : nat) :
  (a < 2)%nat -> (h < 8)%nat ->
  let step := recordStep params obs (Z.of_nat a) in
  let t := tanh (preActivation params obs h) in
  let q := get (snd (forwardNetwork params obs)) (otherAction a) in
  delta1 params step (1 + 99 / 100 * 0) h = (1 - t * t) * (q * weightGap params a h).
Proof.
  intros Ha Hh step t q.
  destruct (delta2_recorded params obs Ha) as [Da Db]. fold step q in Da, Db.
  unfold delta1, backSum, weightGap, outputSize. cbn [for_upto]. to_R.
  assert (Ht : get (hidden step) h = t).
  { unfold t, step. destruct (recordStep_fields params obs (Z.of_nat a)) as (_ & -> & _).
    exact (forwardHidden_entry params obs Hh). }
  rewrite Ht.
  destruct a as [|[|a]]; try lia; cbn [otherAction Nat.sub] in *;
    rewrite Da, Db; cbn [Nat.mul Nat.add]; ring.
Qed.

Lemma trainOnEpisode_one_step {T : Type} {AT : Arith T}
    (params : NetworkParams T) (step : PolicyStep T) :
  trainOnEpisode params [step] =
  {| W1 := mapi (fun weight index =>
                   num_add weight
                     (num_mul (updateScale [step])
                        (get (gradW1 (episodeGradients params [step])) index)))
                (W1 params);
     b1 := mapi (fun bias index =>
                   num_add bias
                     (num_mul (updateScale [step])
                        (get (gradb1 (episodeGradients params [step])) index)))
                (b1 params);
     W2 := mapi (fun weight index =>
                   num_add weight
                     (num_mul (updateScale [step])
                        (get (gradW2 (episodeGradients params [step])) index)))
                (W2 params);
     b2 := mapi (fun bias index =>
                   num_add bias
                     (num_mul (updateScale [step])
                        (get (gradb2 (episodeGradients params [step])) index)))
                (b2 params) |}.
Proof. reflexivity. Qed.

Section UpdatedEntries.

Variables (params : NetworkParams R) (step : PolicyStep R).
Hypothesis shape : wellShaped params.
Hypothesis reward_one : reward step = 1.

Lemma updated_b2 (o : nat) :
  (o < 2)%nat ->
  get (b2 (trainOnEpisode params [step])) o =
  get (b2 params) o + 2 / 100 * (0 + delta2 step (1 + 99 / 100 * 0) o).
Proof.
  intros Ho. destruct shape as (_ & _ & _ & Hb2).
  rewrite trainOnEpisode_one_step. cbn [b2].
  rewrite get_mapi by (rewrite Hb2; exact Ho).
  rewrite updateScale_one_step, (gradb2_entry params step Ho), reward_one. reflexivity.
Qed.

Lemma updated_W2 (o h : nat) :
  (o < 2)%nat -> (h < 8)%nat ->
  get (W2 (trainOnEpisode params [step])) (o * 8 + h) =
  get (W2 params) (o * 8 + h) + 2 / 100 * (0 + delta2 step (1 + 99 / 100 * 0) o * get (hidden step) h).
Proof.
  intros Ho Hh. destruct shape as (_ & _ & HW2 & _).
  rewrite trainOnEpisode_one_step. cbn [W2].
  rewrite get_mapi by (rewrite HW2; unfold outputSize, hiddenSize; lia).
  rewrite updateScale_one_step, (gradW2_entry params step Ho Hh), reward_one. reflexivity.
Qed.

Lemma updated_b1 (h : nat) :
  (h < 8)%nat ->
  get (b1 (trainOnEpisode params [step])) h =
  get (b1 params) h + 2 / 100 * (0 + delta1 params step (1 + 99 / 100 * 0) h).
Proof.
  intros Hh. destruct shape as (_ & Hb1 & _ & _).
  rewrite trainOnEpisode_one_step. cbn [b1].
  rewrite get_mapi by (rewrite Hb1; exact Hh).
  rewrite updateScale_one_step, (gradb1_entry params step Hh), reward_one. reflexivity.
Qed.

Lemma updated_W1 (h i : nat) :
  (h < 8)%nat -> (i < 4)%nat ->
  get (W1 (trainOnEpisode params [step])) (h * 4 + i) =
  get (W1 params) (h * 4 + i) + 2 / 100 * (0 + delta1 params step (1 + 99 / 100 * 0) h * get (state step) i).
Proof.
  intros Hh Hi. destruct shape as (HW1 & _ & _ & _).
  rewrite trainOnEpisode_one_step. cbn [W1].
  rewrite get_mapi by (rewrite HW1; unfold inputSize, hiddenSize; lia).
  rewrite updateScale_one_step, (gradW1_entry params step Hh Hi), reward_one. reflexivity.
Qed.

End UpdatedEntries.

Lemma moved_preActivation (params : NetworkParams R) (obs : list R) (a h : nat) :
  wellShaped params -> (a < 2)%nat -> (h < 8)%nat ->
  preActivation (trainOnEpisode params [recordStep params obs (Z.of_nat a)]) obs h =
  movedPreActivation params obs a h.
Proof.
  intros Hshape Ha Hh.
  set (step := recordStep params obs (Z.of_nat a)).
  assert (Hr : reward step = 1) by reflexivity.
  unfold movedPreActivation. rewrite <- (delta1_recorded params obs Ha Hh). fold step.
  unfold preActivation, obsGain. unfold inputSize. cbn [for_upto].
  rewrite (@updated_b1 params step Hshape Hr h Hh).
  rewrite !(@updated_W1 params step Hshape Hr h _ Hh) by lia.
  replace (state step) with obs by reflexivity.
  to_R. ring.
Qed.

Lemma logitGap_updated (params : NetworkParams R) (obs : list R) (a : nat) :
  wellShaped params -> (a < 2)%nat ->
  let q := get (snd (forwardNetwork params obs)) (otherAction a) in
  logitGap (trainOnEpisode params [recordStep params obs (Z.of_nat a)]) obs a =
  logitGap params obs a + 4 / 100 * q + sumOver 8 (unitGain params obs a).
Proof.
  intros Hshape Ha q.
  set (step := recordStep params obs (Z.of_nat a)).
  assert (Hr : reward step = 1) by reflexivity.
  destruct (delta2_recorded params obs Ha) as [Da Db]. fold step q in Da, Db.
  assert (Hb : (otherAction a < 2)%nat) by (unfold otherAction; lia).
  unfold logitGap, forwardNetwork. cbn [fst].
  unfold logit, sumOver, hiddenSize. cbn [for_upto].
  rewrite (@updated_b2 params step Hshape Hr a Ha), (@updated_b2 params step Hshape Hr _ Hb).
  rewrite !(@updated_W2 params step Hshape Hr a _ Ha) by lia.
  rewrite !(@updated_W2 params step Hshape Hr (otherAction a) _ Hb) by lia.
  rewrite Da, Db.
  replace (hidden step) with (forwardHidden params obs) by reflexivity.
  rewrite !forwardHidden_entry by lia.
  rewrite !(@moved_preActivation params obs a _ Hshape Ha) by lia.
  unfold unitGain, weightGap, hiddenSize. fold q. to_R. field.
Qed.

(** C6, as the code has it.  In exact arithmetic, for parameter arrays of
    the sizes of the network, a chosen action 0 or 1, and an observation of
    four numbers whose squares sum to at most 4999, one update on the
    one-step episode recorded for that observation (reward 1) strictly
    raises the probability the network gives the chosen action at that
    observation.  (In binary64 a probability already rounded to 1 cannot
    rise.) *)
Theorem trainOnEpisode_raises_probability :
  forall (params : NetworkParams R) (obs : list R) (a : nat),
    wellShaped params -> length obs = 4%nat -> (a < 2)%nat ->
    obsGain obs <= 5000 ->
    let step := recordStep params obs (Z.of_nat a) in
    let updated := trainOnEpisode params [step] in
    get (snd (forwardNetwork params obs)) a < get (snd (forwardNetwork updated obs)) a /\
    forall (f : Field) (i : nat),
      (i < length (paramField f params))%nat ->
      get (paramField f updated) i =
      get (paramField f params) i +
      2 / 100 * get (gradField f (episodeGradients params [step])) i.
Proof.
  intros params obs a Hshape Hobs Ha HK step updated.
  split; [|intros f i Hi; now apply updated_entry].
  rewrite !forwardNetwork_prob by assumption.
  apply logistic_lt. unfold updated, step.
  rewrite (logitGap_updated obs Hshape Ha).
  destruct (forwardNetwork_prob_other params obs Ha) as [[Hq0 Hq1] _].
  set (q := get (snd (forwardNetwork params obs)) (otherAction a)) in *.
  assert (Hsum : 0 <= sumOver 8 (unitGain params obs a)).
  { apply sumOver_nonneg. intros h Hh. unfold unitGain. fold q.
    set (t := tanh (preActivation params obs h)).
    pose proof (tanh_bounds (preActivation params obs h)) as Ht. fold t in Ht.
    assert (HK0 : 1 <= obsGain obs).
    { unfold obsGain.
      pose proof (Rle_0_sqr (get obs 0)). pose proof (Rle_0_sqr (get obs 1)).
      pose proof (Rle_0_sqr (get obs 2)). pose proof (Rle_0_sqr (get obs 3)).
      unfold Rsqr in *. lra. }
    apply unit_gain with (c := 2 / 100 * (1 - t * t) * q * obsGain obs).
    - assert (0 <= 1 - t * t) by nra.
      repeat apply Rmult_le_pos; lra.
    - lra.
    - unfold movedPreActivation. fold t q. ring.
    - assert (H1 : 0 <= 1 - t * t <= 1) by nra.
      assert (H2 : 0 <= (1 - t * t) * q <= 1) by nra.
      assert (H3 : 0 <= (1 - t * t) * q * q <= 1) by nra.
      assert (H4 : (1 - t * t) * q * q * obsGain obs <= 5000) by nra.
      nra. }
  lra.
Qed.

Lemma trainOnEpisode_raises_probability_witness :
  wellShaped overshootParams /\ length [0; 1; 0; 0] = 4%nat /\ (0 < 2)%nat /\
  obsGain [0; 1; 0; 0] <= 5000 /\
  get (snd (forwardNetwork overshootParams [0; 1; 0; 0])) 0 <
  get (snd (forwardNetwork
              (trainOnEpisode overshootParams
                 [recordStep overshootParams [0; 1; 0; 0] (Z.of_nat 0)])
              [0; 1; 0; 0])) 0.
Proof.
  assert (H1 : wellShaped overshootParams) by (repeat split).
  assert (H2 : length [0; 1; 0; 0] = 4%nat) by reflexivity.
  assert (H3 : (0 < 2)%nat) by lia.
  assert (H4 : obsGain [0; 1; 0; 0] <= 5000) by (unfold obsGain, get; cbn [nth]; lra).
  split; [exact H1|]. split; [exact H2|]. split; [exact H3|]. split; [exact H4|].
  exact (proj1 (@trainOnEpisode_raises_probability overshootParams [0; 1; 0; 0] 0%nat
                  H1 H2 H3 H4)).
Defined.

(** ** An update that overshoots *)

Lemma sumOver_le (n : nat) (f : nat -> R) (c : R) :
  (forall h, (h < n)%nat -> f h <= c) -> sumOver n f <= INR n * c.
Proof.
  intros H. unfold sumOver. induction n as [|n IH]; cbn [for_upto]; to_R.
  - simpl. lra.
  - rewrite S_INR.
    assert (f n <= c) by (apply H; lia).
    assert (for_upto n (fun h acc => acc + f h) 0 <= INR n * c) by (apply IH; intros; apply H; lia).
    lra.
Qed.

Lemma tanh_1_bounds : 3 / 5 <= tanh 1 <= 4 / 5.
Proof.
  rewrite tanh_exp.
  assert (H2 : 2 <= exp 1) by (left; replace 2 with (1 + 1) by ring; apply exp_ineq1; lra).
  pose proof exp_le_3 as H3. set (e := exp 1) in *.
  assert (Hd : 0 < e * e + 1) by nra.
  split.
  - apply Rmult_le_reg_r with (e * e + 1); [assumption|].
    replace ((e * e - 1) / (e * e + 1) * (e * e + 1)) with (e * e - 1) by (field; nra). nra.
  - apply Rmult_le_reg_r with (e * e + 1); [assumption|].
    replace ((e * e - 1) / (e * e + 1) * (e * e + 1)) with (e * e - 1) by (field; nra). nra.
Qed.

Lemma tanh_minus_1 : tanh (-1) = Ropp (tanh 1).
Proof. replace (-1) with (Ropp 1) by lra. apply tanh_opp. Qed.

Lemma overshoot_preActivation (h : nat) :
  (h < 8)%nat -> preActivation overshootParams overshootObs h = -1.
Proof.
  intros Hh. unfold preActivation, inputSize. cbn [for_upto].
  do 8 (destruct h as [|h]; [unfold get; cbn; lra|]). lia.
Qed.

Lemma overshoot_weightGap (h : nat) :
  (h < 8)%nat -> weightGap overshootParams 0 h = 1 / 1000.
Proof.
  intros Hh. unfold weightGap.
  do 8 (destruct h as [|h]; [unfold get; cbn; lra|]). lia.
Qed.

Lemma overshoot_obsGain : obsGain overshootObs = 1000001.
Proof. unfold obsGain, get. cbn. lra. Qed.

Lemma overshoot_shape : wellShaped overshootParams.
Proof. repeat split. Qed.

Lemma overshoot_other_prob :
  1 / 2 <= get (snd (forwardNetwork overshootParams overshootObs)) 1 < 1.
Proof.
  pose proof (@forwardNetwork_prob_other overshootParams overshootObs 0%nat ltac:(lia)) as [[_ H1] _].
  cbn [otherAction Nat.sub] in H1. split; [|exact H1].
  rewrite (@forwardNetwork_prob overshootParams overshootObs 1%nat) by lia.
  assert (Hg : 0 <= logitGap overshootParams overshootObs 1).
  { unfold logitGap, forwardNetwork. cbn [fst otherAction Nat.sub].
    unfold logit, hiddenSize. cbn [for_upto].
    rewrite !forwardHidden_entry by lia.
    rewrite !overshoot_preActivation by lia.
    unfold get. cbn [overshootParams W2 b2 repeat app nth Nat.mul Nat.add]. to_R.
    to_R. rewrite tanh_minus_1. pose proof tanh_1_bounds. lra. }
  set (g := logitGap overshootParams overshootObs 1) in *.
  assert (He : exp (- g) <= 1).
  { rewrite <- exp_0. destruct Hg as [Hg | <-].
    - left. apply exp_increasing. lra.
    - right. f_equal. lra. }
  pose proof (exp_pos (- g)).
  apply Rmult_le_reg_r with (1 + exp (- g)); [lra|].
  replace (1 / (1 + exp (- g)) * (1 + exp (- g))) with 1 by (field; lra). lra.
Qed.

Lemma overshoot_unitGain (h : nat) :
  (h < 8)%nat ->
  let q := get (snd (forwardNetwork overshootParams overshootObs)) 1 in
  unitGain overshootParams overshootObs 0 h <= 2 / 1000 - q / 100.
Proof.
  intros Hh q. pose proof overshoot_other_prob as Hq. fold q in Hq.
  pose proof tanh_1_bounds as HT.
  unfold unitGain, movedPreActivation. cbn [otherAction Nat.sub]. fold q.
  rewrite overshoot_weightGap, overshoot_preActivation, overshoot_obsGain by assumption.
  rewrite tanh_minus_1. set (T := tanh 1) in *.
  set (u' := -1 + 2 / 100 * ((1 - - T * - T) * (q * (1 / 1000))) * 1000001).
  assert (Hu : 1 <= u').
  { unfold u'. assert (9 / 25 <= 1 - - T * - T) by nra.
    assert (9 / 50 <= (1 - - T * - T) * q) by nra. nra. }
  assert (Ht' : T <= tanh u') by (apply tanh_le; exact Hu).
  pose proof (tanh_bounds u') as Hb. set (t' := tanh u') in *.
  assert (1 / 4 <= T * t') by nra.
  assert (q / 4 <= q * (T * t')) by nra.
  nra.
Qed.

(** C6 fails as stated: with all hidden pre-activations at -1, output
    weights 0.001 for action 0 and 0 for action 1, and an observation whose
    cart velocity is 1000, one update on the one-step episode that chose
    action 0 with reward 1 moves every hidden unit across zero, and the
    probability of action 0 at that observation strictly decreases. *)
Lemma trainOnEpisode_can_lower_probability :
  let updated := trainOnEpisode overshootParams [recordStep overshootParams overshootObs 0] in
  wellShaped overshootParams /\ length overshootObs = 4%nat /\
  get (snd (forwardNetwork updated overshootObs)) 0 <
  get (snd (forwardNetwork overshootParams overshootObs)) 0.
Proof.
  intros updated. split; [exact overshoot_shape|]. split; [reflexivity|].
  rewrite !forwardNetwork_prob by lia.
  apply logistic_lt. unfold updated.
  change 0%Z with (Z.of_nat 0).
  rewrite (@logitGap_updated overshootParams overshootObs 0 overshoot_shape ltac:(lia)).
  cbn [otherAction Nat.sub].
  pose proof overshoot_other_prob as Hq.
  set (q := get (snd (forwardNetwork overshootParams overshootObs)) 1) in *.
  assert (Hs : sumOver 8 (unitGain overshootParams overshootObs 0) <= INR 8 * (2 / 1000 - q / 100)).
  { apply sumOver_le. intros h Hh. exact (overshoot_unitGain Hh). }
  replace (INR 8) with 8 in Hs by (simpl; lra).
  lra.
Qed.

(** ** Overflow in binary64: the step and the forward pass on finite inputs *)

Section NonFinite.

Local Open Scope float_scope.

Lemma mul_nonfinite_l (a b : float) :
  PrimFloat.is_finite a = false -> PrimFloat.is_finite (a * b) = false.
Proof.
  rewrite !is_finite_SF, mul_spec. unfold SF64mul.
  destruct (Prim2SF a) as [sa|sa| |sa ma ea]; try discriminate; intros _;
    destruct (Prim2SF b) as [sb|sb| |sb mb eb]; reflexivity.
Qed.

Lemma mul_nonfinite_r (a b : float) :
  PrimFloat.is_finite b = false -> PrimFloat.is_finite (a * b) = false.
Proof.
  rewrite !is_finite_SF, mul_spec. unfold SF64mul.
  destruct (Prim2SF b) as [sb|sb| |sb mb eb]; try discriminate; intros _;
    destruct (Prim2SF a) as [sa|sa| |sa ma ea]; reflexivity.
Qed.

Lemma add_nonfinite_l (a b : float) :
  PrimFloat.is_finite a = false -> PrimFloat.is_finite (a + b) = false.
Proof.
  rewrite !is_finite_SF, add_spec. unfold SF64add.
  destruct (Prim2SF a) as [sa|sa| |sa ma ea]; try discriminate; intros _;
    destruct (Prim2SF b) as [sb|sb| |sb mb eb]; try reflexivity;
    destruct sa, sb; reflexivity.
Qed.

Lemma add_nonfinite_r (a b : float) :
  PrimFloat.is_finite b = false -> PrimFloat.is_finite (a + b) = false.
Proof.
  rewrite !is_finite_SF, add_spec. unfold SF64add.
  destruct (Prim2SF b) as [sb|sb| |sb mb eb]; try discriminate; intros _;
    destruct (Prim2SF a) as [sa|sa| |sa ma ea]; try reflexivity;
    destruct sa, sb; reflexivity.
Qed.

Lemma sub_nonfinite_l (a b : float) :
  PrimFloat.is_finite a = false -> PrimFloat.is_finite (a - b) = false.
Proof.
  rewrite !is_finite_SF, sub_spec. unfold SF64sub.
  destruct (Prim2SF a) as [sa|sa| |sa ma ea]; try discriminate; intros _;
    destruct (Prim2SF b) as [sb|sb| |sb mb eb]; try reflexivity;
    destruct sa, sb; reflexivity.
Qed.

Lemma sub_nonfinite_r (a b : float) :
  PrimFloat.is_finite b = false -> PrimFloat.is_finite (a - b) = false.
Proof.
  rewrite !is_finite_SF, sub_spec. unfold SF64sub.
  destruct (Prim2SF b) as [sb|sb| |sb mb eb]; try discriminate; intros _;
    destruct (Prim2SF a) as [sa|sa| |sa ma ea]; try reflexivity;
    destruct sa, sb; reflexivity.
Qed.

Lemma div_nonfinite_l (a b : float) :
  PrimFloat.is_finite a = false -> PrimFloat.is_finite (a / b) = false.
Proof.
  rewrite !is_finite_SF, div_spec. unfold SF64div.
  destruct (Prim2SF a) as [sa|sa| |sa ma ea]; try discriminate; intros _;
    destruct (Prim2SF b) as [sb|sb| |sb mb eb]; reflexivity.
Qed.

End NonFinite.

(** C10 fails as stated: from a finite state (an upright pole spinning at
    2^600 rad/s) the square of the angular velocity overflows, and the step
    returns non-finite velocities whatever the action and whatever
    [Math.sin] and [Math.cos] return: without a guard [stepCartPole] does
    not keep finite inputs finite. *)
Lemma stepCartPole_finite_state_overflows :
  stateFinite spinningState = true /\
  forall (fexp ftanh fsin fcos : float -> float) (action : Z),
    let next :=
      fst (@stepCartPole float Arith_float (Transcendental_float fexp ftanh fsin fcos)
             spinningState action) in
    PrimFloat.is_finite (xDot next) = false /\
    PrimFloat.is_finite (thetaDot next) = false /\
    stateFinite next = false.
Proof.
  split; [reflexivity|].
  intros fexp ftanh fsin fcos action next.
  assert (Hsq : PrimFloat.is_finite
                  (num_mul (num_mul poleMassLength (thetaDot spinningState))
                     (thetaDot spinningState)) = false) by (vm_compute; reflexivity).
  assert (Hx : PrimFloat.is_finite (xDot next) = false).
  { unfold next, stepCartPole. cbv zeta. cbn [fst xDot].
    cbn [num_add num_sub num_mul num_div Arith_float] in *.
    apply add_nonfinite_r, mul_nonfinite_r, sub_nonfinite_l, div_nonfinite_l,
      add_nonfinite_r, mul_nonfinite_l. exact Hsq. }
  assert (Ht : PrimFloat.is_finite (thetaDot next) = false).
  { unfold next, stepCartPole. cbv zeta. cbn [fst thetaDot].
    cbn [num_add num_sub num_mul num_div Arith_float] in *.
    apply add_nonfinite_r, mul_nonfinite_r, div_nonfinite_l, sub_nonfinite_r,
      mul_nonfinite_r, div_nonfinite_l, add_nonfinite_r, mul_nonfinite_l. exact Hsq. }
  split; [exact Hx|]. split; [exact Ht|].
  unfold stateFinite. rewrite Hx. destruct (PrimFloat.is_finite (x next)); reflexivity.
Qed.

(** The forward pass on [bigParams] and [bigObs], for any [Math.exp] and
    [Math.tanh] with the two special values ECMAScript fixes,
    [Math.exp(NaN) = NaN] and [Math.tanh(Infinity) = 1]: every
    pre-activation overflows to infinity, both logits are infinite, and the
    subtraction of the maximum gives NaN. *)
Lemma bigParams_probs (fexp ftanh fsin fcos : float -> float) :
  fexp PrimFloat.nan = PrimFloat.nan ->
  ftanh PrimFloat.infinity = 1%float ->
  snd (@forwardNetwork float Arith_float (Transcendental_float fexp ftanh fsin fcos)
         bigParams bigObs) = [PrimFloat.nan; PrimFloat.nan].
Proof.
  intros Hexp Htanh.
  vm_compute. vm_compute in Htanh. rewrite !Htanh.
  vm_compute. vm_compute in Hexp. rewrite !Hexp. vm_compute. reflexivity.
Qed.

(** C5 fails as stated: on a well-shaped parameter set and an observation
    of finite binary64 numbers the two probabilities are NaN, neither
    non-negative nor summing to 1 within 1e-6. *)
Lemma forwardNetwork_nan_on_finite_input :
  paramsFinite bigParams = true /\
  allFinite bigObs = true /\
  wellShaped bigParams /\
  length bigObs = 4%nat /\
  forall fexp ftanh fsin fcos : float -> float,
    fexp PrimFloat.nan = PrimFloat.nan ->
    ftanh PrimFloat.infinity = 1%float ->
    let probs :=
      snd (@forwardNetwork float Arith_float (Transcendental_float fexp ftanh fsin fcos)
             bigParams bigObs) in
    probs = [PrimFloat.nan; PrimFloat.nan] /\
    PrimFloat.leb 0 (get probs 0) = false /\
    PrimFloat.leb 0 (get probs 1) = false /\
    PrimFloat.ltb (PrimFloat.abs (get probs 0 + get probs 1 - 1)) (dec 1 1000000) = false.
Proof.
  split; [reflexivity|]. split; [reflexivity|].
  split; [repeat split|]. split; [reflexivity|].
  intros fexp ftanh fsin fcos Hexp Htanh probs.
  assert (E : probs = [PrimFloat.nan; PrimFloat.nan])
    by (now apply bigParams_probs).
  rewrite E. repeat split.
Qed.

(** The probability of the chosen action cannot rise where binary64 has
    rounded it to 1: with output biases 0 and -2^1023, zero weights and the
    zero observation (so for any [Math.exp] with [exp 0 = 1] and
    [exp (-2^1023) = 0], and [Math.tanh 0 = 0]), action 0 has probability 1
    before the update and 1 after it, and the update changes nothing. *)
Lemma trainOnEpisode_saturated_binary64 (fexp ftanh fsin fcos : float -> float) :
  fexp 0%float = 1%float ->
  fexp (-0x1p+1023)%float = 0%float ->
  ftanh 0%float = 0%float ->
  let TF := Transcendental_float fexp ftanh fsin fcos in
  let params :=
    {| W1 := repeat 0%float 32; b1 := repeat 0%float 8;
       W2 := repeat 0%float 16; b2 := [0; -0x1p+1023]%float |} in
  let obs := [0; 0; 0; 0]%float in
  let step := @recordStep float Arith_float TF params obs 0 in
  get (snd (@forwardNetwork float Arith_float TF params obs)) 0 = 1%float /\
  trainOnEpisode params [step] = params /\
  get (snd (@forwardNetwork float Arith_float TF (trainOnEpisode params [step]) obs)) 0
  = 1%float.
Proof.
  intros H0 Hm Ht TF params obs step.
  assert (Ef : @forwardNetwork float Arith_float TF params obs =
               (repeat 0%float 8, [1; 0]%float)).
  { vm_compute. vm_compute in Ht. rewrite !Ht.
    vm_compute. vm_compute in H0, Hm. rewrite !H0, !Hm. vm_compute. reflexivity. }
  assert (Es : step = {| state := obs; hidden := repeat 0%float 8; probs := [1; 0]%float;
                         actionIndex := 0; reward := 1%float |}).
  { unfold step, recordStep. rewrite Ef. reflexivity. }
  assert (Et : trainOnEpisode params [step] = params).
  { rewrite Es. vm_compute. reflexivity. }
  rewrite Et, Ef. repeat split.
Qed.

(** * Further properties of the page *)

(** ** Initialisation *)

Lemma Forall_map_seq {A : Type} (P : A -> Prop) (f : nat -> A) (a n : nat) :
  (forall k, (a <= k < a + n)%nat -> P (f k)) -> Forall P (map f (seq a n)).
Proof.
  revert a; induction n as [|n IH]; intros a H; cbn [seq map]; constructor.
  - apply H. lia.
  - apply IH. intros k Hk. apply H. lia.
Qed.

Lemma Forall_repeat {A : Type} (P : A -> Prop) (a : A) (n : nat) :
  P a -> Forall P (repeat a n).
Proof. intros H. induction n; cbn [repeat]; constructor; auto. Qed.

Lemma randomWeight_range (rand : nat -> R) (k : nat) :
  0 <= rand k < 1 -> - (3 / 10) <= randomWeight rand k < 3 / 10.
Proof. intros H. unfold randomWeight. unfold_constants. to_R. lra. Qed.

Lemma initializeNetwork_wellShaped {T : Type} {AT : Arith T} (rand : nat -> T) :
  wellShaped (initializeNetwork rand).
Proof.
  unfold wellShaped, initializeNetwork. cbn [W1 b1 W2 b2].
  rewrite !length_map, !length_seq, !repeat_length. repeat split.
Qed.

(** X1.  A freshly initialised network has arrays of the sizes of the
    topology, zero biases, and, when the 48 draws lie in [0, 1), every weight
    in [-0.3, 0.3); the k-th weight of [W2] comes from draw 32 + k. *)
Theorem initializeNetwork_range :
  forall rand : nat -> R,
    (forall k, (k < 48)%nat -> 0 <= rand k < 1) ->
    let p := initializeNetwork rand in
    wellShaped p /\
    Forall (fun b => b = 0) (b1 p) /\ Forall (fun b => b = 0) (b2 p) /\
    Forall (fun w => - (3 / 10) <= w < 3 / 10) (W1 p) /\
    Forall (fun w => - (3 / 10) <= w < 3 / 10) (W2 p) /\
    (forall k, (k < 32)%nat -> get (W1 p) k = (rand k * 2 - 1) * (3 / 10)) /\
    (forall k, (k < 16)%nat -> get (W2 p) k = (rand (32 + k)%nat * 2 - 1) * (3 / 10)).
Proof.
  intros rand H p. split; [apply initializeNetwork_wellShaped|].
  unfold p, initializeNetwork. cbn [W1 b1 W2 b2].
  split; [apply Forall_repeat; reflexivity|].
  split; [apply Forall_repeat; reflexivity|].
  split; [apply Forall_map_seq; intros k Hk; apply randomWeight_range, H;
          unfold hiddenSize, inputSize in Hk; lia|].
  split; [apply Forall_map_seq; intros k Hk; apply randomWeight_range, H;
          unfold hiddenSize, inputSize, outputSize in Hk; lia|].
  split.
  - intros k Hk. unfold get.
    rewrite nth_indep with (d' := randomWeight rand 0)
      by (rewrite length_map, length_seq; exact Hk).
    rewrite (map_nth (randomWeight rand)), seq_nth by exact Hk. reflexivity.
  - intros k Hk. unfold get.
    rewrite nth_indep with (d' := randomWeight rand 0)
      by (rewrite length_map, length_seq; exact Hk).
    rewrite (map_nth (randomWeight rand)), seq_nth by exact Hk. reflexivity.
Qed.

Lemma initializeNetwork_range_witness :
  (forall k, (k < 48)%nat -> 0 <= (fun _ : nat => 1 / 4) k < 1) /\
  wellShaped (initializeNetwork (fun _ : nat => 1 / 4)) /\
  Forall (fun w => - (3 / 10) <= w < 3 / 10) (W1 (initializeNetwork (fun _ : nat => 1 / 4))).
Proof.
  assert (H : forall k, (k < 48)%nat -> 0 <= (fun _ : nat => 1 / 4) k < 1)
    by (intros; cbv beta; lra).
  split; [exact H|].
  pose proof (@initializeNetwork_range (fun _ : nat => 1 / 4) H) as (H1 & _ & _ & H2 & _).
  split; [exact H1 | exact H2].
Defined.

(** ** Physics: fresh states and the mirror symmetry *)

Lemma angleLimit_above_tenth : 1 / 10 < 12 * PI / 180.
Proof. pose proof PI2_1. lra. Qed.

Lemma createInitialState_fresh (window : bool) (r1 r2 : R) :
  0 <= r1 < 1 -> 0 <= r2 < 1 -> freshState (createInitialState window r1 r2).
Proof.
  intros H1 H2. unfold freshState, createInitialState.
  destruct window; cbn [negb x xDot theta thetaDot]; unfold_constants; to_R.
  - repeat split; try reflexivity; apply Rabs_le; lra.
  - rewrite Rabs_R0. repeat split; lra.
Qed.

Lemma freshState_withinLimits (s : CartPoleState R) : freshState s -> withinLimits s.
Proof.
  intros (Hx & _ & Ht & _). pose proof angleLimit_above_tenth. split; lra.
Qed.

Lemma stepCartPole_not_done (s : CartPoleState R) (action : Z) :
  snd (stepCartPole s action) = false <-> withinLimits (fst (stepCartPole s action)).
Proof.
  unfold withinLimits. pose proof (stepCartPole_done s action) as H.
  destruct (snd (stepCartPole s action)).
  - split; [discriminate|]. intros [H1 H2].
    destruct (proj1 H eq_refl); lra.
  - split; [|reflexivity]. intros _.
    split; apply Rnot_lt_le; intros C; assert (true = false) by (symmetry; apply H; auto);
      discriminate.
Qed.

Lemma stepCartPole_position (s : CartPoleState R) (action : Z) :
  x (fst (stepCartPole s action)) = x s + 2 / 100 * xDot s /\
  theta (fst (stepCartPole s action)) = theta s + 2 / 100 * thetaDot s.
Proof. rewrite stepCartPole_fst. split; reflexivity. Qed.

(** X2.  A state returned by [createInitialState] (draws in [0, 1)) is at
    rest with |x| <= 0.2 and |theta| <= 0.1, so inside the limits; and the
    step taken from it is never terminal, whatever the action: it leaves the
    position and the angle where they are. *)
Theorem createInitialState_first_step_survives :
  forall (window : bool) (r1 r2 : R) (action : Z),
    0 <= r1 < 1 -> 0 <= r2 < 1 ->
    let s := createInitialState window r1 r2 in
    freshState s /\ withinLimits s /\
    snd (stepCartPole s action) = false /\
    x (fst (stepCartPole s action)) = x s /\
    theta (fst (stepCartPole s action)) = theta s.
Proof.
  intros window r1 r2 action H1 H2 s.
  pose proof (createInitialState_fresh window H1 H2) as Hf. fold s in Hf.
  pose proof (freshState_withinLimits Hf) as Hw.
  destruct (stepCartPole_position s action) as [Ex Et].
  assert (Ex' : x (fst (stepCartPole s action)) = x s)
    by (destruct Hf as (_ & Hxd & _ & _); rewrite Ex, Hxd; ring).
  assert (Et' : theta (fst (stepCartPole s action)) = theta s)
    by (destruct Hf as (_ & _ & _ & Htd); rewrite Et, Htd; ring).
  split; [exact Hf|]. split; [exact Hw|]. split; [|split; assumption].
  apply stepCartPole_not_done. unfold withinLimits. rewrite Ex', Et'. exact Hw.
Qed.

Lemma createInitialState_first_step_survives_witness :
  0 <= 1 / 2 < 1 /\ 0 <= 3 / 4 < 1 /\
  snd (stepCartPole (createInitialState true (1 / 2) (3 / 4)) 1) = false.
Proof.
  assert (H1 : 0 <= 1 / 2 < 1) by lra.
  assert (H2 : 0 <= 3 / 4 < 1) by lra.
  split; [exact H1|]. split; [exact H2|].
  exact (proj1 (proj2 (proj2 (@createInitialState_first_step_survives true _ _ 1%Z H1 H2)))).
Defined.

Lemma specEulerStep_mirror (s : CartPoleState R) (action : Z) :
  specEulerStep (mirror s) (- action) = mirror (specEulerStep s action).
Proof.
  pose proof (thetaAccDenominator_lower (theta s)) as Hd.
  unfold thetaAccDenominator in Hd. unfold_constants. to_R.
  unfold specEulerStep, specXAcc, specThetaAcc, specTemp, specForce, mirror.
  cbn [x xDot theta thetaDot]. rewrite opp_IZR, sin_neg, cos_neg.
  set (c := cos (theta s)) in *. set (sn := sin (theta s)) in *.
  assert (Hc : 0 <= c * c <= 1) by apply cos_sqr_le_1.
  f_equal; field; nra.
Qed.

(** X3.  The physics is symmetric under reflection: stepping the mirrored
    state with the opposite action gives the mirrored next state and the
    same terminal flag. *)
Theorem stepCartPole_mirror :
  forall (s : CartPoleState R) (action : Z),
    fst (stepCartPole (mirror s) (- action)) = mirror (fst (stepCartPole s action)) /\
    snd (stepCartPole (mirror s) (- action)) = snd (stepCartPole s action).
Proof.
  intros s action.
  assert (E : fst (stepCartPole (mirror s) (- action)) = mirror (fst (stepCartPole s action)))
    by (rewrite !stepCartPole_fst; apply specEulerStep_mirror).
  split; [exact E|].
  assert (W : withinLimits (fst (stepCartPole (mirror s) (- action))) <->
              withinLimits (fst (stepCartPole s action))).
  { rewrite E. unfold withinLimits, mirror. cbn [x theta]. rewrite !Rabs_Ropp. tauto. }
  rewrite <- !stepCartPole_not_done in W.
  destruct (snd (stepCartPole (mirror s) (- action))), (snd (stepCartPole s action));
    try reflexivity; destruct W as [W1 W2].
  - apply W2. reflexivity.
  - symmetry. apply W1. reflexivity.
Qed.

Lemma heuristicAction_score (s : CartPoleState R) :
  heuristicAction s = if Rlt_dec 0 (heuristicScore s) then 1%Z else (-1)%Z.
Proof.
  unfold heuristicAction, heuristicScore. unfold_constants. to_R. unfold Rltb.
  destruct (Rlt_dec 0 _); reflexivity.
Qed.

Lemma heuristicScore_mirror (s : CartPoleState R) :
  heuristicScore (mirror s) = - heuristicScore s.
Proof. unfold heuristicScore, mirror. cbn [x xDot theta thetaDot]. field. Qed.

(** X4.  The heuristic controller pushes right (+1) exactly when
    [theta + 0.25 thetaDot + 0.05 xDot] is positive and left (-1) otherwise,
    the value 0 included.  Away from 0 it is odd: in the mirrored state it
    pushes the other way, so that the controlled step commutes with the
    reflection. *)
Theorem heuristicAction_mirror :
  forall s : CartPoleState R,
    (heuristicAction s = 1%Z <-> 0 < heuristicScore s) /\
    (heuristicAction s = (-1)%Z <-> heuristicScore s <= 0) /\
    (heuristicScore s <> 0 ->
     heuristicAction (mirror s) = (- heuristicAction s)%Z /\
     fst (stepCartPole (mirror s) (heuristicAction (mirror s))) =
     mirror (fst (stepCartPole s (heuristicAction s)))) /\
    (heuristicScore s = 0 ->
     heuristicAction s = (-1)%Z /\ heuristicAction (mirror s) = (-1)%Z).
Proof.
  intros s. rewrite !heuristicAction_score, heuristicScore_mirror.
  destruct (Rlt_dec 0 (heuristicScore s)) as [Hp | Hp],
           (Rlt_dec 0 (- heuristicScore s)) as [Hn | Hn];
    repeat split; intros; try reflexivity; try discriminate; try lra.
  all: try (destruct (stepCartPole_mirror s 1) as [E _]; exact E).
  all: try (destruct (stepCartPole_mirror s (-1)) as [E _]; exact E).
Qed.

Lemma heuristicAction_mirror_witness :
  let s := {| x := 0; xDot := 0; theta := 5 / 100; thetaDot := 0 |} in
  heuristicScore s <> 0 /\
  heuristicAction (mirror s) = (- heuristicAction s)%Z /\
  fst (stepCartPole (mirror s) (heuristicAction (mirror s))) =
  mirror (fst (stepCartPole s (heuristicAction s))).
Proof.
  intros s.
  assert (H : heuristicScore s <> 0) by (unfold heuristicScore, s; cbn [x xDot theta thetaDot]; lra).
  split; [exact H|].
  exact (proj1 (proj2 (proj2 (heuristicAction_mirror s))) H).
Defined.

(** ** The forward pass and the sampler *)

Lemma forwardHidden_length {T : Type} {AT : Arith T} {TT : Transcendental T}
    (params : NetworkParams T) (inputVector : list T) :
  length (forwardHidden params inputVector) = 8%nat.
Proof. rewrite forwardHidden_units. rewrite length_map, length_seq. reflexivity. Qed.

Lemma softmax_length {T : Type} {AT : Arith T} {TT : Transcendental T} (logits : list T) :
  length (softmax logits) = length logits.
Proof. unfold softmax. rewrite !length_map. reflexivity. Qed.

Lemma forwardNetwork_lengths {T : Type} {AT : Arith T} {TT : Transcendental T}
    (params : NetworkParams T) (inputVector : list T) :
  length (fst (forwardNetwork params inputVector)) = 8%nat /\
  length (snd (forwardNetwork params inputVector)) = 2%nat.
Proof.
  unfold forwardNetwork. cbn [fst snd]. split; [apply forwardHidden_length|].
  rewrite softmax_length, forwardLogits_units. reflexivity.
Qed.

(** X5.  In any arithmetic [forwardNetwork] returns 8 hidden activations,
    each the [Math.tanh] of its pre-activation, and 2 probabilities.  In
    exact arithmetic, for parameters of the network's sizes and an
    observation of four numbers, every hidden activation is strictly
    between -1 and 1, so that the factor [1 - hidden^2] of the backward pass
    is positive.  In binary64 [Math.tanh] saturates: where it returns 1 the
    hidden value is exactly 1 and the factor exactly 0. *)
Theorem forwardNetwork_hidden_range :
  (forall (T : Type) (AT : Arith T) (TT : Transcendental T)
          (params : NetworkParams T) (inputVector : list T),
     length (fst (forwardNetwork params inputVector)) = 8%nat /\
     length (snd (forwardNetwork params inputVector)) = 2%nat /\
     forall h, (h < 8)%nat ->
       get (fst (forwardNetwork params inputVector)) h =
       num_tanh (preActivation params inputVector h)) /\
  (forall (params : NetworkParams R) (inputVector : list R),
     wellShaped params -> length inputVector = 4%nat ->
     Forall (fun v => -1 < v < 1 /\ 0 < 1 - v * v)
            (fst (forwardNetwork params inputVector))) /\
  (forall (fexp ftanh fsin fcos : float -> float)
          (params : NetworkParams float) (inputVector : list float) (h : nat),
     (h < 8)%nat ->
     ftanh (preActivation params inputVector h) = 1%float ->
     let hidden :=
       fst (@forwardNetwork float Arith_float (Transcendental_float fexp ftanh fsin fcos)
              params inputVector) in
     get hidden h = 1%float /\
     (1 - get hidden h * get hidden h)%float = 0%float).
Proof.
  split; [|split].
  - intros T AT TT params inputVector.
    destruct (forwardNetwork_lengths params inputVector) as [H8 H2].
    split; [exact H8|]. split; [exact H2|].
    intros h Hh. unfold forwardNetwork. cbn [fst].
    exact (forwardHidden_entry params inputVector Hh).
  - intros params inputVector _ _.
    unfold forwardNetwork. cbn [fst]. rewrite forwardHidden_units.
    apply Forall_map_seq. intros k _. to_R.
    pose proof (tanh_bounds (preActivation params inputVector k)). split; [lra | nra].
  - intros fexp ftanh fsin fcos params inputVector h Hh Hsat hidden.
    assert (E : get hidden h = 1%float).
    { unfold hidden, forwardNetwork. cbn [fst].
      rewrite (@forwardHidden_entry float Arith_float
                 (Transcendental_float fexp ftanh fsin fcos) params inputVector h Hh).
      exact Hsat. }
    rewrite E. split; reflexivity.
Qed.

(** X6.  In exact arithmetic, for parameters of the network's sizes and an
    observation of four numbers, the max-subtracted softmax of
    [forwardNetwork] is the plain softmax of its two logits,
    [exp l_i / (exp l_0 + exp l_1)], and the more probable action is the one
    with the larger logit.  In binary64 the two differ where the plain
    formula overflows: for the logits 800 and 0 (and any [Math.exp] with
    [exp 0 = 1], [exp (-800) = 0] and [exp 800 = Infinity]) the code's
    softmax is [1; 0] while the plain formula gives [NaN; 0]. *)
Theorem forwardNetwork_softmax_plain :
  (forall (params : NetworkParams R) (inputVector : list R),
     wellShaped params -> length inputVector = 4%nat ->
     let hidden := fst (forwardNetwork params inputVector) in
     let probs := snd (forwardNetwork params inputVector) in
     let l0 := logit params hidden 0 in
     let l1 := logit params hidden 1 in
     get probs 0 = exp l0 / (exp l0 + exp l1) /\
     get probs 1 = exp l1 / (exp l0 + exp l1) /\
     (get probs 1 <= get probs 0 <-> l1 <= l0)) /\
  (forall fexp ftanh fsin fcos : float -> float,
     fexp 0%float = 1%float ->
     fexp (-800)%float = 0%float ->
     fexp 800%float = PrimFloat.infinity ->
     @softmax float Arith_float (Transcendental_float fexp ftanh fsin fcos) [800; 0]%float
     = [1; 0]%float /\
     [fexp 800 / (fexp 800 + fexp 0); fexp 0 / (fexp 800 + fexp 0)]%float
     = [PrimFloat.nan; 0%float]).
Proof.
  split.
  {
    intros params inputVector _ _ hidden probs l0 l1.
    assert (E : probs = softmax [l0; l1]).
    { unfold probs, forwardNetwork. cbn [snd]. rewrite forwardLogits_units. reflexivity. }
    rewrite E, softmax_two. unfold get. cbn [nth].
    set (m := Rmax l0 l1).
    assert (H0 : exp (l0 - m) = exp l0 * exp (- m))
      by (rewrite <- exp_plus; f_equal; ring).
    assert (H1 : exp (l1 - m) = exp l1 * exp (- m))
      by (rewrite <- exp_plus; f_equal; ring).
    pose proof (exp_pos l0) as P0. pose proof (exp_pos l1) as P1.
    pose proof (exp_pos (- m)) as Pm.
    assert (E0 : exp (l0 - m) / (0 + exp (l0 - m) + exp (l1 - m)) = exp l0 / (exp l0 + exp l1))
      by (rewrite H0, H1; field; split; nra).
    assert (E1 : exp (l1 - m) / (0 + exp (l0 - m) + exp (l1 - m)) = exp l1 / (exp l0 + exp l1))
      by (rewrite H0, H1; field; split; nra).
    rewrite E0, E1. split; [reflexivity|]. split; [reflexivity|].
    assert (Hs : 0 < exp l0 + exp l1) by lra.
    split.
    - intros H. apply Rmult_le_compat_r with (r := exp l0 + exp l1) in H; [|lra].
      replace (exp l1 / (exp l0 + exp l1) * (exp l0 + exp l1)) with (exp l1) in H by (field; lra).
      replace (exp l0 / (exp l0 + exp l1) * (exp l0 + exp l1)) with (exp l0) in H by (field; lra).
      destruct (Rle_dec l1 l0) as [|C]; [assumption|].
      apply Rnot_le_lt in C. apply exp_increasing in C. lra.
    - intros H.
      assert (exp l1 <= exp l0).
      { destruct H as [H | ->]; [left; now apply exp_increasing | right; reflexivity]. }
      apply Rmult_le_reg_r with (exp l0 + exp l1); [lra|].
      replace (exp l1 / (exp l0 + exp l1) * (exp l0 + exp l1)) with (exp l1) by (field; lra).
      replace (exp l0 / (exp l0 + exp l1) * (exp l0 + exp l1)) with (exp l0) by (field; lra).
      assumption.
  }
  intros fexp ftanh fsin fcos H0 Hm Hp. split.
  - vm_compute. vm_compute in H0, Hm. rewrite H0, Hm. vm_compute. reflexivity.
  - rewrite H0, Hp. vm_compute. reflexivity.
Qed.

Lemma fold_left_firstn_S {T : Type} {AT : Arith T} (l : list T) :
  forall (k : nat) (a : T),
    (k < length l)%nat ->
    fold_left num_add (firstn (S k) l) a =
    num_add (fold_left num_add (firstn k l) a) (get l k).
Proof.
  induction l as [|y l IH]; intros k a Hk; cbn [length] in Hk; [lia|].
  destruct k as [|k]; [reflexivity|].
  change (firstn (S (S k)) (y :: l)) with (y :: firstn (S k) l).
  change (firstn (S k) (y :: l)) with (y :: firstn k l).
  cbn [fold_left]. rewrite IH by lia. reflexivity.
Qed.

Lemma cumulativeMass_S (ps : list R) (k : nat) :
  (k < length ps)%nat -> cumulativeMass ps (S k) = cumulativeMass ps k + get ps k.
Proof. intros H. unfold cumulativeMass. now rewrite fold_left_firstn_S. Qed.

Lemma cumulativeMass_0 (ps : list R) : cumulativeMass ps 0 = 0.
Proof. reflexivity. Qed.

Lemma cumulativeMass_mono (ps : list R) :
  Forall (fun p => 0 <= p) ps ->
  forall j k, (j <= k <= length ps)%nat -> cumulativeMass ps j <= cumulativeMass ps k.
Proof.
  intros Hp j k [Hjk Hk]. induction Hjk as [|k Hjk IH]; [lra|].
  rewrite cumulativeMass_S by lia.
  assert (0 <= get ps k).
  { rewrite Forall_forall in Hp. apply Hp. unfold get. apply nth_In. lia. }
  specialize (IH ltac:(lia)). lra.
Qed.

(** X7.  Sampling inverts the cumulative distribution: for non-negative
    entries and a draw [r] with [0 <= r] below the total mass,
    [sampleActionIndex] returns [i] exactly when [r] lies in the half-open
    interval from the mass before entry [i] to the mass including it, an
    interval whose length is entry [i]. *)
Theorem sampleActionIndex_inverse_cdf :
  forall (r : R) (probabilities : list R),
    Forall (fun p => 0 <= p) probabilities ->
    0 <= r < cumulativeMass probabilities (length probabilities) ->
    forall i, (i < length probabilities)%nat ->
      (sampleActionIndex r probabilities = Z.of_nat i <->
       cumulativeMass probabilities i <= r < cumulativeMass probabilities (S i)) /\
      cumulativeMass probabilities (S i) - cumulativeMass probabilities i = get probabilities i.
Proof.
  intros r ps Hp [Hr0 Hr] i Hi.
  split; [|rewrite cumulativeMass_S by exact Hi; ring].
  unfold sampleActionIndex.
  pose proof (sampleLoop_spec r ps (num_of_Z 0) 0) as H.
  destruct (sampleLoop r (num_of_Z 0) 0 ps) as [k|].
  - destruct H as (j & -> & Hj & Hhit & Hmiss). cbn [Nat.add].
    change (fold_left num_add (firstn (S j) ps) (num_of_Z 0)) with (cumulativeMass ps (S j)) in Hhit.
    apply Rltb_true in Hhit.
    assert (Hbefore : cumulativeMass ps j <= r).
    { destruct j as [|j]; [rewrite cumulativeMass_0; exact Hr0|].
      specialize (Hmiss j ltac:(lia)).
      change (fold_left num_add (firstn (S j) ps) (num_of_Z 0)) with (cumulativeMass ps (S j)) in Hmiss.
      now apply Rltb_false in Hmiss. }
    split.
    + intros E. apply Nat2Z.inj in E. subst i. split; assumption.
    + intros [Hlo Hhi]. f_equal.
      destruct (Nat.lt_trichotomy i j) as [Hlt | [-> | Hgt]]; [exfalso| reflexivity | exfalso].
      * specialize (Hmiss i Hlt).
        change (fold_left num_add (firstn (S i) ps) (num_of_Z 0)) with (cumulativeMass ps (S i)) in Hmiss.
        apply Rltb_false in Hmiss. lra.
      * pose proof (@cumulativeMass_mono ps Hp (S j) i ltac:(lia)). lra.
  - exfalso. destruct ps as [|p ps]; cbn [length] in *; [lia|].
    specialize (H (length ps) ltac:(lia)).
    change (fold_left num_add (firstn (S (length ps)) (p :: ps)) (num_of_Z 0))
      with (cumulativeMass (p :: ps) (S (length ps))) in H.
    apply Rltb_false in H. lra.
Qed.

Lemma sampleActionIndex_inverse_cdf_witness :
  Forall (fun p => 0 <= p) [1 / 4; 1 / 2; 1 / 4] /\
  0 <= 1 / 2 < cumulativeMass [1 / 4; 1 / 2; 1 / 4] (length [1 / 4; 1 / 2; 1 / 4]) /\
  (1 < length [1 / 4; 1 / 2; 1 / 4])%nat /\
  (sampleActionIndex (1 / 2) [1 / 4; 1 / 2; 1 / 4] = Z.of_nat 1 <->
   cumulativeMass [1 / 4; 1 / 2; 1 / 4] 1 <= 1 / 2 < cumulativeMass [1 / 4; 1 / 2; 1 / 4] 2).
Proof.
  assert (H1 : Forall (fun p => 0 <= p) [1 / 4; 1 / 2; 1 / 4]) by (repeat constructor; lra).
  assert (H2 : 0 <= 1 / 2 < cumulativeMass [1 / 4; 1 / 2; 1 / 4] (length [1 / 4; 1 / 2; 1 / 4]))
    by (unfold cumulativeMass; cbn [length firstn fold_left]; to_R; lra).
  assert (H3 : (1 < length [1 / 4; 1 / 2; 1 / 4])%nat) by (cbn [length]; lia).
  split; [exact H1|]. split; [exact H2|]. split; [exact H3|].
  exact (proj1 (@sampleActionIndex_inverse_cdf (1 / 2) [1 / 4; 1 / 2; 1 / 4] H1 H2 1%nat H3)).
Defined.

Lemma forwardNetwork_probs_pair (params : NetworkParams R) (obs : list R) :
  let probs := snd (forwardNetwork params obs) in
  probs = [get probs 0; get probs 1] /\
  0 < get probs 0 < 1 /\ 0 < get probs 1 < 1 /\ get probs 0 + get probs 1 = 1.
Proof.
  intros probs.
  destruct (forwardNetwork_lengths params obs) as [_ H2]. fold probs in H2.
  destruct (@forwardNetwork_prob_other params obs 0%nat ltac:(lia)) as [Hb Ha].
  cbn [otherAction Nat.sub] in Hb, Ha. fold probs in Hb, Ha.
  split.
  - destruct probs as [|p0 [|p1 [|p2 rest]]]; cbn [length] in H2; try lia. reflexivity.
  - repeat split; lra.
Qed.

(** ** The sampler in binary64: NaN *)

Lemma SFeqb_refl_not_nan (x : spec_float) : x <> S754_nan -> SFeqb x x = true.
Proof.
  intros H. destruct x as [s|s| |s m e]; try congruence; try (destruct s; reflexivity).
  unfold SFeqb, SFcompare. destruct s;
    rewrite Z.compare_refl, ?Pos.compare_refl, ?Pos.compare_cont_refl; reflexivity.
Qed.

Lemma is_nan_SF (x : float) : PrimFloat.is_nan x = true <-> Prim2SF x = S754_nan.
Proof.
  unfold PrimFloat.is_nan. rewrite eqb_spec. split.
  - intros H. destruct (Prim2SF x) as [s|s| |s m e] eqn:E; try reflexivity;
      rewrite SFeqb_refl_not_nan in H by discriminate; discriminate.
  - intros ->. reflexivity.
Qed.

Lemma add_nan_l (c p : float) : PrimFloat.is_nan c = true -> PrimFloat.is_nan (c + p)%float = true.
Proof.
  rewrite !is_nan_SF, add_spec. intros ->. reflexivity.
Qed.

Lemma add_nan_r (c p : float) : PrimFloat.is_nan p = true -> PrimFloat.is_nan (c + p)%float = true.
Proof.
  rewrite !is_nan_SF, add_spec. intros ->. unfold SF64add.
  destruct (Prim2SF c) as [s|s| |s m e]; reflexivity.
Qed.

Lemma ltb_nan_r (r c : float) : PrimFloat.is_nan c = true -> (r <? c)%float = false.
Proof.
  rewrite is_nan_SF, ltb_spec. intros ->. unfold SFltb, SFcompare.
  destruct (Prim2SF r) as [s|s| |s m e]; try destruct s; reflexivity.
Qed.

Lemma ltb_nan_l (r c : float) : PrimFloat.is_nan r = true -> (r <? c)%float = false.
Proof.
  rewrite is_nan_SF, ltb_spec. intros ->. reflexivity.
Qed.

Lemma sampleLoop_nan_cumulative (r : float) (ps : list float) :
  forall (c : float) (i : nat),
    PrimFloat.is_nan c = true -> sampleLoop r c i ps = None.
Proof.
  induction ps as [|p ps IH]; intros c i Hc; cbn [sampleLoop]; [reflexivity|].
  cbn [num_add num_ltb Arith_float].
  rewrite (@ltb_nan_r r _ (@add_nan_l c p Hc)). apply IH. now apply add_nan_l.
Qed.

Lemma sampleLoop_nan_draw (r : float) (ps : list float) :
  PrimFloat.is_nan r = true ->
  forall (c : float) (i : nat), sampleLoop r c i ps = None.
Proof.
  intros Hr. induction ps as [|p ps IH]; intros c i; cbn [sampleLoop]; [reflexivity|].
  cbn [num_add num_ltb Arith_float]. rewrite (@ltb_nan_l r _ Hr). apply IH.
Qed.

Lemma sampleLoop_nan_first (r c p : float) (rest : list float) (i : nat) :
  PrimFloat.is_nan p = true -> sampleLoop r c i (p :: rest) = None.
Proof.
  intros Hp. cbn [sampleLoop]. cbn [num_add num_ltb Arith_float].
  rewrite (@ltb_nan_r r _ (@add_nan_r c p Hp)).
  apply sampleLoop_nan_cumulative. now apply add_nan_r.
Qed.

(** X9.  In binary64 a NaN poisons the sampler: when the draw is NaN, or
    the first probability is NaN (as after a forward pass through NaN
    weights), no comparison succeeds and [sampleActionIndex] returns the last
    index, whatever the other numbers; of two actions it then always picks
    the second. *)
Theorem sampleActionIndex_nan :
  forall (r : float) (p : float) (rest : list float),
    PrimFloat.is_nan r = true \/ PrimFloat.is_nan p = true ->
    sampleActionIndex r (p :: rest) = Z.of_nat (length rest) /\
    (length rest = 1%nat -> sampleActionIndex r (p :: rest) = 1%Z).
Proof.
  intros r p rest H.
  assert (E : sampleActionIndex r (p :: rest) = Z.of_nat (length rest)).
  { unfold sampleActionIndex.
    assert (N : sampleLoop r (num_of_Z 0) 0 (p :: rest) = None).
    { destruct H as [Hr | Hp].
      - now apply sampleLoop_nan_draw.
      - cbn [sampleLoop]. cbn [num_add num_ltb Arith_float].
        rewrite (@ltb_nan_r r _ (@add_nan_r (num_of_Z 0) p Hp)).
        apply sampleLoop_nan_cumulative. now apply add_nan_r. }
    rewrite N. cbn [length]. lia. }
  split; [exact E|]. intros L. rewrite E, L. reflexivity.
Qed.

Lemma sampleActionIndex_nan_witness :
  (PrimFloat.is_nan 0.5%float = true \/ PrimFloat.is_nan PrimFloat.nan = true) /\
  sampleActionIndex 0.5%float [PrimFloat.nan; 0.5%float] = 1%Z.
Proof.
  assert (H : PrimFloat.is_nan 0.5%float = true \/ PrimFloat.is_nan PrimFloat.nan = true)
    by (right; reflexivity).
  split; [exact H|].
  exact (proj2 (@sampleActionIndex_nan 0.5%float PrimFloat.nan [0.5%float] H) eq_refl).
Defined.

(** X8.  In exact arithmetic, for parameters of the network's sizes and an
    observation of four numbers, the draw decides the action in neural mode
    through the first probability alone: for a draw in [0, 1),
    [sampleActionIndex] on the output of [forwardNetwork] returns 0 exactly
    when the draw is below [probs[0]] and 1 otherwise, and the loop runs to a
    hit, so the fallback to the last index is not what decides.  In binary64
    it can be: on the probabilities [NaN; NaN] that finite parameters can
    produce, the loop hits nothing and the fallback returns 1 for every
    draw. *)
Theorem forwardNetwork_sample :
  (forall (params : NetworkParams R) (obs : list R) (r : R),
     wellShaped params -> length obs = 4%nat ->
     0 <= r < 1 ->
     let probs := snd (forwardNetwork params obs) in
     (sampleActionIndex r probs = 0%Z <-> r < get probs 0) /\
     (sampleActionIndex r probs = 1%Z <-> get probs 0 <= r) /\
     sampleLoop r 0 0 probs <> None) /\
  (forall (fexp ftanh fsin fcos : float -> float) (r : float),
     fexp PrimFloat.nan = PrimFloat.nan ->
     ftanh PrimFloat.infinity = 1%float ->
     let probs :=
       snd (@forwardNetwork float Arith_float (Transcendental_float fexp ftanh fsin fcos)
              bigParams bigObs) in
     sampleLoop r 0%float 0 probs = None /\
     sampleActionIndex r probs = 1%Z).
Proof.
  split.
  - intros params obs r _ _ [Hr0 Hr1] probs.
    destruct (forwardNetwork_probs_pair params obs) as (E & H0 & H1 & Hs).
    fold probs in E, H0, H1, Hs.
    set (p0 := get probs 0) in *. set (p1 := get probs 1) in *.
    rewrite E. unfold sampleActionIndex. cbn [sampleLoop]. to_R. unfold Rltb.
    destruct (Rlt_dec r (0 + p0)) as [A|A].
    + repeat split; intros; try lra; try discriminate; try reflexivity.
    + destruct (Rlt_dec r (0 + p0 + p1)) as [B|B]; [|exfalso; lra].
      repeat split; intros; try lra; try discriminate; try reflexivity.
  - intros fexp ftanh fsin fcos r Hexp Htanh probs.
    assert (E : probs = [PrimFloat.nan; PrimFloat.nan]) by (now apply bigParams_probs).
    assert (N : sampleLoop r 0%float 0 probs = None).
    { rewrite E. apply sampleLoop_nan_first. reflexivity. }
    split; [exact N|].
    unfold sampleActionIndex. change (num_of_Z 0) with 0%float. rewrite N, E. reflexivity.
Qed.

Lemma forwardNetwork_sample_witness :
  0 <= 0 < 1 /\
  sampleActionIndex 0 (snd (forwardNetwork overshootParams overshootObs)) = 0%Z.
Proof.
  assert (H : 0 <= 0 < 1) by lra.
  split; [exact H|].
  assert (H1 : wellShaped overshootParams) by (repeat split).
  assert (H2 : length overshootObs = 4%nat) by reflexivity.
  destruct (proj1 forwardNetwork_sample overshootParams overshootObs 0 H1 H2 H) as [[_ E] _].
  apply E.
  destruct (forwardNetwork_probs_pair overshootParams overshootObs) as (_ & [P _] & _).
  exact P.
Defined.

(** ** The trainer on whole episodes *)

Lemma trainOnEpisode_lengths {T : Type} {AT : Arith T}
    (params : NetworkParams T) (trajectory : list (PolicyStep T)) (f : Field) :
  length (paramField f (trainOnEpisode params trajectory)) = length (paramField f params).
Proof.
  destruct trajectory as [|s tr]; [reflexivity|].
  rewrite trainOnEpisode_field by discriminate. apply mapi_length.
Qed.

(** X10.  Training never changes the shape of the network: for every
    trajectory, empty or not, each returned array has the length of the
    input array, so a well-shaped parameter set stays well-shaped, in any
    arithmetic. *)
Theorem trainOnEpisode_preserves_shape :
  forall (T : Type) (AT : Arith T) (params : NetworkParams T)
         (trajectory : list (PolicyStep T)),
    length (W1 (trainOnEpisode params trajectory)) = length (W1 params) /\
    length (b1 (trainOnEpisode params trajectory)) = length (b1 params) /\
    length (W2 (trainOnEpisode params trajectory)) = length (W2 params) /\
    length (b2 (trainOnEpisode params trajectory)) = length (b2 params) /\
    (wellShaped params -> wellShaped (trainOnEpisode params trajectory)).
Proof.
  intros T AT params trajectory.
  pose proof (trainOnEpisode_lengths params trajectory FieldW1) as H1.
  pose proof (trainOnEpisode_lengths params trajectory Fieldb1) as H2.
  pose proof (trainOnEpisode_lengths params trajectory FieldW2) as H3.
  pose proof (trainOnEpisode_lengths params trajectory Fieldb2) as H4.
  cbn [paramField] in H1, H2, H3, H4.
  repeat (split; [assumption|]).
  unfold wellShaped. rewrite H1, H2, H3, H4. tauto.
Qed.

Ltac explode_list l H :=
  repeat (destruct l as [|? l]; [discriminate H|cbn [length] in H; apply eq_add_S in H]);
  try (destruct l; [clear H | discriminate H]).

Local Tactic Notation "cases_below" integer(n) ident(i) :=
  do n (destruct i as [|i]; [try reflexivity|]); try lia.

Section StepGradients.

Context {T : Type} {AT : Arith T}.

Variables (params : NetworkParams T) (step : PolicyStep T) (advantage : T) (g : Gradients T).
Hypothesis shaped : gradShaped g.

Lemma stepGradients_shaped : gradShaped (stepGradients params step advantage g).
Proof.
  destruct g as [gW1 gb1 gW2 gb2]. destruct shaped as (H1 & H2 & H3 & H4).
  cbn [gradW1 gradb1 gradW2 gradb2] in *.
  explode_list gb2 H4. explode_list gb1 H2. explode_list gW2 H3. explode_list gW1 H1.
  repeat split.
Qed.

Lemma stepGradients_gradb2 (o : nat) :
  (o < 2)%nat ->
  get (gradb2 (stepGradients params step advantage g)) o =
  num_add (get (gradb2 g) o) (delta2 step advantage o).
Proof.
  intros Ho. destruct g as [gW1 gb1 gW2 gb2]. destruct shaped as (H1 & H2 & H3 & H4).
  cbn [gradW1 gradb1 gradW2 gradb2] in *.
  explode_list gb2 H4.
  cases_below 2 o.
Qed.

Lemma stepGradients_gradW2 (o h : nat) :
  (o < 2)%nat -> (h < 8)%nat ->
  get (gradW2 (stepGradients params step advantage g)) (o * 8 + h) =
  num_add (get (gradW2 g) (o * 8 + h))
          (num_mul (delta2 step advantage o) (get (hidden step) h)).
Proof.
  intros Ho Hh. destruct g as [gW1 gb1 gW2 gb2]. destruct shaped as (H1 & H2 & H3 & H4).
  cbn [gradW1 gradb1 gradW2 gradb2] in *.
  explode_list gW2 H3.
  do 2 (destruct o as [|o]; [cases_below 8 h|]). lia.
Qed.

Lemma stepGradients_gradb1 (h : nat) :
  (h < 8)%nat ->
  get (gradb1 (stepGradients params step advantage g)) h =
  num_add (get (gradb1 g) h) (delta1 params step advantage h).
Proof.
  intros Hh. destruct g as [gW1 gb1 gW2 gb2]. destruct shaped as (H1 & H2 & H3 & H4).
  cbn [gradW1 gradb1 gradW2 gradb2] in *.
  explode_list gb1 H2.
  cases_below 8 h.
Qed.

Lemma stepGradients_gradW1 (h i : nat) :
  (h < 8)%nat -> (i < 4)%nat ->
  get (gradW1 (stepGradients params step advantage g)) (h * 4 + i) =
  num_add (get (gradW1 g) (h * 4 + i))
          (num_mul (delta1 params step advantage h) (get (state step) i)).
Proof.
  intros Hh Hi. destruct g as [gW1 gb1 gW2 gb2]. destruct shaped as (H1 & H2 & H3 & H4).
  cbn [gradW1 gradb1 gradW2 gradb2] in *.
  explode_list gW1 H1.
  do 8 (destruct h as [|h]; [cases_below 4 i|]). lia.
Qed.

End StepGradients.

Section EpisodeGradients.

Context {T : Type} {AT : Arith T}.

Variables (params : NetworkParams T) (trajectory : list (PolicyStep T)).

Lemma episodeGradients_prefix (k : nat) :
  let stepAt := fun t => nth t trajectory noStep in
  let advantageAt := fun t => get (computeReturns trajectory) t in
  let G :=
    for_upto k
      (fun t g => stepGradients params (nth t trajectory noStep)
                    (get (computeReturns trajectory) t) g)
      {| gradW1 := repeat (num_of_Z 0) (hiddenSize * inputSize);
         gradb1 := repeat (num_of_Z 0) hiddenSize;
         gradW2 := repeat (num_of_Z 0) (outputSize * hiddenSize);
         gradb2 := repeat (num_of_Z 0) outputSize |} in
  gradShaped G /\
  (forall o, (o < 2)%nat ->
     get (gradb2 G) o = sumOver k (fun t => delta2 (stepAt t) (advantageAt t) o)) /\
  (forall o h, (o < 2)%nat -> (h < 8)%nat ->
     get (gradW2 G) (o * 8 + h) =
     sumOver k (fun t => num_mul (delta2 (stepAt t) (advantageAt t) o)
                                 (get (hidden (stepAt t)) h))) /\
  (forall h, (h < 8)%nat ->
     get (gradb1 G) h = sumOver k (fun t => delta1 params (stepAt t) (advantageAt t) h)) /\
  (forall h i, (h < 8)%nat -> (i < 4)%nat ->
     get (gradW1 G) (h * 4 + i) =
     sumOver k (fun t => num_mul (delta1 params (stepAt t) (advantageAt t) h)
                                 (get (state (stepAt t)) i))).
Proof.
  intros stepAt advantageAt.
  induction k as [|k IH].
  - cbn [for_upto]. split; [repeat split|].
    repeat split.
    + intros o Ho. cases_below 2 o.
    + intros o h Ho Hh. do 2 (destruct o as [|o]; [cases_below 8 h|]). lia.
    + intros h Hh. cases_below 8 h.
    + intros h i Hh Hi. do 8 (destruct h as [|h]; [cases_below 4 i|]). lia.
  - cbn [for_upto]. cbv zeta in IH.
    set (G := for_upto k _ _) in *.
    destruct IH as (Hs & Hb2 & HW2 & Hb1 & HW1).
    split; [now apply stepGradients_shaped|].
    unfold sumOver in *. cbn [for_upto].
    repeat split.
    + intros o Ho. rewrite stepGradients_gradb2, Hb2 by assumption. reflexivity.
    + intros o h Ho Hh. rewrite stepGradients_gradW2, HW2 by assumption. reflexivity.
    + intros h Hh. rewrite stepGradients_gradb1, Hb1 by assumption. reflexivity.
    + intros h i Hh Hi. rewrite stepGradients_gradW1, HW1 by assumption. reflexivity.
Qed.

End EpisodeGradients.

Lemma episodeGradients_entries :
  forall (T : Type) (AT : Arith T) (params : NetworkParams T)
         (trajectory : list (PolicyStep T)),
    let n := length trajectory in
    let stepAt := fun t => nth t trajectory noStep in
    let advantageAt := fun t => get (computeReturns trajectory) t in
    let G := episodeGradients params trajectory in
    gradShaped G /\
    (forall o, (o < 2)%nat ->
       get (gradb2 G) o = sumOver n (fun t => delta2 (stepAt t) (advantageAt t) o)) /\
    (forall o h, (o < 2)%nat -> (h < 8)%nat ->
       get (gradW2 G) (o * 8 + h) =
       sumOver n (fun t => num_mul (delta2 (stepAt t) (advantageAt t) o)
                                   (get (hidden (stepAt t)) h))) /\
    (forall h, (h < 8)%nat ->
       get (gradb1 G) h = sumOver n (fun t => delta1 params (stepAt t) (advantageAt t) h)) /\
    (forall h i, (h < 8)%nat -> (i < 4)%nat ->
       get (gradW1 G) (h * 4 + i) =
       sumOver n (fun t => num_mul (delta1 params (stepAt t) (advantageAt t) h)
                                   (get (state (stepAt t)) i))).
Proof.
  intros T AT params trajectory n stepAt advantageAt G.
  exact (episodeGradients_prefix params trajectory n).
Qed.

(** X11.  The gradients [trainOnEpisode] accumulates over an episode are,
    entry by entry, the sums over its steps (added in order, from 0) of the
    error signal [delta2] and of [delta2 * hidden[h]] for the output layer,
    and of the backpropagated [delta1] and [delta1 * state[i]] for the hidden
    layer, each step weighted by its own return; the four arrays keep the
    sizes 32, 8, 16 and 2.  This holds in any arithmetic. *)
Theorem episodeGradients_sums :
  forall (T : Type) (AT : Arith T) (params : NetworkParams T)
         (trajectory : list (PolicyStep T)),
    let n := length trajectory in
    let stepAt := fun t => nth t trajectory noStep in
    let advantageAt := fun t => get (computeReturns trajectory) t in
    let G := episodeGradients params trajectory in
    gradShaped G /\
    (forall o, (o < 2)%nat ->
       get (gradb2 G) o = sumOver n (fun t => delta2 (stepAt t) (advantageAt t) o)) /\
    (forall o h, (o < 2)%nat -> (h < 8)%nat ->
       get (gradW2 G) (o * 8 + h) =
       sumOver n (fun t => num_mul (delta2 (stepAt t) (advantageAt t) o)
                                   (get (hidden (stepAt t)) h))) /\
    (forall h, (h < 8)%nat ->
       get (gradb1 G) h = sumOver n (fun t => delta1 params (stepAt t) (advantageAt t) h)) /\
    (forall h i, (h < 8)%nat -> (i < 4)%nat ->
       get (gradW1 G) (h * 4 + i) =
       sumOver n (fun t => num_mul (delta1 params (stepAt t) (advantageAt t) h)
                                   (get (state (stepAt t)) i))).
Proof.
  intros T AT params trajectory. exact (@episodeGradients_entries T AT params trajectory).
Qed.

(** ** Episodes as the loop records them: reward 1 at every step *)

Lemma pow_99_bounds (m : nat) : 0 < (99 / 100) ^ S m <= 99 / 100.
Proof.
  induction m as [|m IH].
  - simpl. lra.
  - change ((99 / 100) ^ S (S m)) with (99 / 100 * (99 / 100) ^ S m). nra.
Qed.

Lemma computeReturns_unit_closed (trajectory : list (PolicyStep R)) :
  Forall (fun st => reward st = 1) trajectory ->
  forall m t, (t + S m = length trajectory)%nat ->
    get (computeReturns trajectory) t = 100 * (1 - (99 / 100) ^ S m).
Proof.
  intros Hr.
  destruct (computeReturns_recursion trajectory) as [_ Hrec]. cbv zeta in Hrec.
  assert (Hone : forall t, (t < length trajectory)%nat -> reward (nth t trajectory noStep) = 1).
  { intros t Ht. rewrite Forall_forall in Hr. apply Hr, nth_In, Ht. }
  induction m as [|m IH]; intros t Ht.
  - rewrite Hrec by lia. unfold returnAfter.
    replace (Nat.ltb (S t) (length trajectory)) with false
      by (symmetry; apply Nat.ltb_ge; lia).
    rewrite Hone by lia. unfold_constants. to_R. simpl. lra.
  - rewrite Hrec by lia. unfold returnAfter.
    replace (Nat.ltb (S t) (length trajectory)) with true
      by (symmetry; apply Nat.ltb_lt; lia).
    rewrite Hone by lia. rewrite (IH (S t)) by lia. unfold_constants. to_R.
    change ((99 / 100) ^ S (S m)) with (99 / 100 * (99 / 100) ^ S m). lra.
Qed.

(** X12.  In exact arithmetic, for an episode whose rewards are all 1, as
    [loop] records them, the return of step [t] of [n] is the truncated
    geometric sum [100 * (1 - 0.99^(n - t))]: at least 1, below 100 whatever
    the length of the episode, and larger for earlier steps.  In binary64
    the recursion [1 + 0.99 * r] reaches a fixed point just below 100, so in
    a long episode (here 3300 steps) the earliest returns are equal, not
    decreasing. *)
Theorem computeReturns_unit_rewards :
  (forall (trajectory : list (PolicyStep R)) (t : nat),
     Forall (fun st => reward st = 1) trajectory ->
     (t < length trajectory)%nat ->
     let returns := computeReturns trajectory in
     get returns t = 100 * (1 - (99 / 100) ^ (length trajectory - t)) /\
     1 <= get returns t < 100 /\
     ((S t < length trajectory)%nat -> get returns (S t) < get returns t)) /\
  (let returns := computeReturns (repeat unitRewardStep 3300) in
   get returns 0 = 0x1.8ffffffffffc8p+6%float /\
   get returns 1 = get returns 0 /\
   (1 + discountFactor * get returns 0)%float = get returns 0 /\
   PrimFloat.ltb (get returns 0) 100 = true).
Proof.
  split; [|vm_compute; repeat split].
  intros trajectory t Hr Ht returns.
  assert (E : get returns t = 100 * (1 - (99 / 100) ^ S (length trajectory - t - 1)))
    by (apply computeReturns_unit_closed; [assumption | lia]).
  pose proof (pow_99_bounds (length trajectory - t - 1)) as B.
  split; [|split].
  - rewrite E. do 3 f_equal. lia.
  - rewrite E. lra.
  - intros Ht'.
    assert (E' : get returns (S t) = 100 * (1 - (99 / 100) ^ S (length trajectory - t - 2)))
      by (apply computeReturns_unit_closed; [assumption | lia]).
    pose proof (pow_99_bounds (length trajectory - t - 2)) as B'.
    rewrite E, E'.
    replace (length trajectory - t - 1)%nat with (S (length trajectory - t - 2)) by lia.
    change ((99 / 100) ^ S (S (length trajectory - t - 2)))
      with (99 / 100 * (99 / 100) ^ S (length trajectory - t - 2)).
    lra.
Qed.

Lemma computeReturns_unit_rewards_witness :
  let st := {| state := []; hidden := []; probs := []; actionIndex := 0; reward := 1 |} in
  Forall (fun st => reward st = 1) [st; st] /\ (0 < length [st; st])%nat /\
  get (computeReturns [st; st]) 0 = 100 * (1 - (99 / 100) ^ (length [st; st] - 0)) /\
  1 <= get (computeReturns [st; st]) 0 < 100.
Proof.
  intros st.
  assert (H1 : Forall (fun st => reward st = 1) [st; st]) by (repeat constructor).
  assert (H2 : (0 < length [st; st])%nat) by (cbn [length]; lia).
  split; [exact H1|]. split; [exact H2|].
  destruct (proj1 computeReturns_unit_rewards [st; st] 0%nat H1 H2) as (E & B & _).
  split; [exact E | exact B].
Defined.

(** ** Sums over the steps, in exact arithmetic *)

Lemma sumOver_S (n : nat) (f : nat -> R) : sumOver (S n) f = sumOver n f + f n.
Proof. reflexivity. Qed.

Lemma sumOver_plus (n : nat) (f g : nat -> R) :
  sumOver n f + sumOver n g = sumOver n (fun t => f t + g t).
Proof.
  induction n as [|n IH]; [unfold sumOver; cbn [for_upto]; to_R; lra|].
  rewrite !sumOver_S, <- IH. ring.
Qed.

Lemma sumOver_zero (n : nat) (f : nat -> R) :
  (forall t, (t < n)%nat -> f t = 0) -> sumOver n f = 0.
Proof.
  intros H. induction n as [|n IH]; [reflexivity|].
  rewrite sumOver_S, IH, H by (intros; try apply H; lia). ring.
Qed.

Lemma sumOver_abs_le (n : nat) (f : nat -> R) (c : R) :
  (forall t, (t < n)%nat -> Rabs (f t) <= c) -> Rabs (sumOver n f) <= INR n * c.
Proof.
  intros H. induction n as [|n IH].
  - unfold sumOver. cbn [for_upto]. to_R. rewrite Rabs_R0. simpl. lra.
  - rewrite sumOver_S, S_INR.
    pose proof (Rabs_triang (sumOver n f) (f n)).
    assert (Rabs (f n) <= c) by (apply H; lia).
    assert (Rabs (sumOver n f) <= INR n * c) by (apply IH; intros; apply H; lia).
    lra.
Qed.

Lemma updateScale_R (trajectory : list (PolicyStep R)) :
  trajectory <> [] -> updateScale trajectory = 2 / 100 / INR (length trajectory).
Proof.
  intros Hne. unfold updateScale. unfold_constants. to_R.
  rewrite <- INR_IZR_INZ.
  assert (1 <= INR (length trajectory)).
  { destruct trajectory as [|s tr]; [congruence|]. cbn [length]. rewrite S_INR.
    pose proof (pos_INR (length tr)). lra. }
  rewrite Rmax_right by lra. reflexivity.
Qed.

Lemma updated_get (params : NetworkParams R) (trajectory : list (PolicyStep R))
    (f : Field) (i : nat) :
  trajectory <> [] -> (i < length (paramField f params))%nat ->
  get (paramField f (trainOnEpisode params trajectory)) i =
  get (paramField f params) i +
  2 / 100 / INR (length trajectory) * get (gradField f (episodeGradients params trajectory)) i.
Proof.
  intros Hne Hi. rewrite trainOnEpisode_field by assumption.
  rewrite get_mapi by assumption. rewrite updateScale_R by assumption. reflexivity.
Qed.

Lemma trainOnEpisode_nonempty {T : Type} {AT : Arith T}
    (params : NetworkParams T) (trajectory : list (PolicyStep T)) :
  trajectory <> [] ->
  trainOnEpisode params trajectory =
  {| W1 := mapi (fun weight index =>
                   num_add weight
                     (num_mul (updateScale trajectory)
                        (get (gradW1 (episodeGradients params trajectory)) index)))
                (W1 params);
     b1 := mapi (fun bias index =>
                   num_add bias
                     (num_mul (updateScale trajectory)
                        (get (gradb1 (episodeGradients params trajectory)) index)))
                (b1 params);
     W2 := mapi (fun weight index =>
                   num_add weight
                     (num_mul (updateScale trajectory)
                        (get (gradW2 (episodeGradients params trajectory)) index)))
                (W2 params);
     b2 := mapi (fun bias index =>
                   num_add bias
                     (num_mul (updateScale trajectory)
                        (get (gradb2 (episodeGradients params trajectory)) index)))
                (b2 params) |}.
Proof. intros H. destruct trajectory as [|s tr]; [congruence | reflexivity]. Qed.

Section OutputLayerUpdate.

Variables (params : NetworkParams R) (trajectory : list (PolicyStep R)).
Hypothesis shape : wellShaped params.
Hypothesis nonempty : trajectory <> [].

Lemma updated_b2_get (o : nat) :
  (o < 2)%nat ->
  get (b2 (trainOnEpisode params trajectory)) o =
  get (b2 params) o +
  2 / 100 / INR (length trajectory) * get (gradb2 (episodeGradients params trajectory)) o.
Proof.
  intros Ho. destruct shape as (_ & _ & _ & Hb2).
  rewrite trainOnEpisode_nonempty by exact nonempty. cbn [b2].
  rewrite get_mapi by (rewrite Hb2; exact Ho).
  rewrite updateScale_R by exact nonempty. reflexivity.
Qed.

Lemma updated_W2_get (o h : nat) :
  (o < 2)%nat -> (h < 8)%nat ->
  get (W2 (trainOnEpisode params trajectory)) (o * 8 + h) =
  get (W2 params) (o * 8 + h) +
  2 / 100 / INR (length trajectory) *
  get (gradW2 (episodeGradients params trajectory)) (o * 8 + h).
Proof.
  intros Ho Hh. destruct shape as (_ & _ & HW2 & _).
  rewrite trainOnEpisode_nonempty by exact nonempty. cbn [W2].
  rewrite get_mapi by (rewrite HW2; unfold outputSize, hiddenSize; lia).
  rewrite updateScale_R by exact nonempty. reflexivity.
Qed.

End OutputLayerUpdate.

Lemma delta2_sum_zero (st : PolicyStep R) (A : R) :
  (actionIndex st = 0%Z \/ actionIndex st = 1%Z) ->
  get (probs st) 0 + get (probs st) 1 = 1 ->
  delta2 st A 0 + delta2 st A 1 = 0.
Proof.
  intros Ha Hp. unfold delta2.
  destruct Ha as [-> | ->]; cbn [Z.of_nat Z.eqb Pos.of_succ_nat Pos.eqb]; to_R.
  - replace (get (probs st) 0) with (1 - get (probs st) 1) by lra. ring.
  - replace (get (probs st) 0) with (1 - get (probs st) 1) by lra. ring.
Qed.

(** X13.  In exact arithmetic training moves the two outputs against each
    other: when the parameters have the network's sizes and every step of
    the episode has 8 hidden values, chose action 0 or 1 and carries two
    probabilities that sum to 1, the accumulated gradients of the two output
    biases cancel, and so do those of the two output weights of each hidden
    unit; [b2[0] + b2[1]] and [W2[h] + W2[8 + h]] are therefore the same
    after the update as before.  In binary64 the gradients still cancel on
    the step with probabilities one half each, but the sum of the biases
    0.1 and 0.2 moves by one unit in the last place. *)
Theorem trainOnEpisode_conserves_output_sums :
  (forall (params : NetworkParams R) (trajectory : list (PolicyStep R)),
     wellShaped params ->
     Forall (fun st => length (hidden st) = 8%nat /\ length (probs st) = 2%nat) trajectory ->
     Forall (fun st => (actionIndex st = 0%Z \/ actionIndex st = 1%Z) /\
                       get (probs st) 0 + get (probs st) 1 = 1) trajectory ->
     let G := episodeGradients params trajectory in
     let updated := trainOnEpisode params trajectory in
     get (gradb2 G) 0 + get (gradb2 G) 1 = 0 /\
     get (b2 updated) 0 + get (b2 updated) 1 = get (b2 params) 0 + get (b2 params) 1 /\
     forall h, (h < 8)%nat ->
       get (gradW2 G) (0 * 8 + h) + get (gradW2 G) (1 * 8 + h) = 0 /\
       get (W2 updated) (0 * 8 + h) + get (W2 updated) (1 * 8 + h) =
       get (W2 params) (0 * 8 + h) + get (W2 params) (1 * 8 + h)) /\
  (let G := episodeGradients tenthParams [evenStep] in
   let updated := trainOnEpisode tenthParams [evenStep] in
   (get (gradb2 G) 0 + get (gradb2 G) 1)%float = 0%float /\
   (get (b2 tenthParams) 0 + get (b2 tenthParams) 1)%float = 0x1.3333333333334p-2%float /\
   (get (b2 updated) 0 + get (b2 updated) 1)%float = 0x1.3333333333333p-2%float).
Proof.
  split; [|vm_compute; repeat split].
  intros params trajectory Hshape _ Hsteps G updated.
  destruct (@episodeGradients_entries R _ params trajectory) as (_ & Hb2 & HW2 & _).
  fold G in Hb2, HW2.
  assert (Hat : forall t, (t < length trajectory)%nat ->
            (actionIndex (nth t trajectory noStep) = 0%Z \/
             actionIndex (nth t trajectory noStep) = 1%Z) /\
            get (probs (nth t trajectory noStep)) 0 + get (probs (nth t trajectory noStep)) 1 = 1).
  { intros t Ht. rewrite Forall_forall in Hsteps. apply Hsteps, nth_In, Ht. }
  assert (Gb : get (gradb2 G) 0 + get (gradb2 G) 1 = 0).
  { rewrite !Hb2 by lia. rewrite sumOver_plus.
    apply sumOver_zero. intros t Ht. destruct (Hat t Ht). now apply delta2_sum_zero. }
  assert (GW : forall h, (h < 8)%nat ->
            get (gradW2 G) (0 * 8 + h) + get (gradW2 G) (1 * 8 + h) = 0).
  { intros h Hh. rewrite !HW2 by lia. rewrite sumOver_plus.
    apply sumOver_zero. intros t Ht. destruct (Hat t Ht) as [Ha Hp]. to_R.
    pose proof (@delta2_sum_zero (nth t trajectory noStep) (get (computeReturns trajectory) t) Ha Hp) as Z. nra. }
  split; [exact Gb|].
  assert (Hcase : trajectory = [] \/ trajectory <> [])
    by (destruct trajectory; [left; reflexivity | right; discriminate]).
  destruct Hcase as [E | Hne].
  - unfold updated. rewrite E.
    split; [reflexivity|]. intros h Hh. split; [now apply GW | reflexivity].
  - split.
    + unfold updated. rewrite !(updated_b2_get Hshape Hne) by lia. fold G. nra.
    + intros h Hh. split; [now apply GW|].
      unfold updated. rewrite !(updated_W2_get Hshape Hne) by lia. fold G.
      pose proof (GW h Hh). nra.
Qed.

Lemma trainOnEpisode_conserves_output_sums_witness :
  let trajectory := [recordStep overshootParams overshootObs 0] in
  wellShaped overshootParams /\
  Forall (fun st => (actionIndex st = 0%Z \/ actionIndex st = 1%Z) /\
                    get (probs st) 0 + get (probs st) 1 = 1) trajectory /\
  get (b2 (trainOnEpisode overshootParams trajectory)) 0 +
  get (b2 (trainOnEpisode overshootParams trajectory)) 1 =
  get (b2 overshootParams) 0 + get (b2 overshootParams) 1.
Proof.
  intros trajectory.
  assert (H1 : wellShaped overshootParams) by (repeat split).
  assert (H2 : Forall (fun st => (actionIndex st = 0%Z \/ actionIndex st = 1%Z) /\
                                 get (probs st) 0 + get (probs st) 1 = 1) trajectory).
  { constructor; [|constructor]. split; [left; reflexivity|].
    destruct (forwardNetwork_probs_pair overshootParams overshootObs) as (_ & _ & _ & S).
    exact S. }
  split; [exact H1|]. split; [exact H2|].
  assert (H3 : Forall (fun st => length (hidden st) = 8%nat /\ length (probs st) = 2%nat)
                      trajectory).
  { constructor; [|constructor]. unfold recordStep.
    destruct (forwardNetwork_lengths overshootParams overshootObs) as [L8 L2].
    destruct (forwardNetwork overshootParams overshootObs) as [hid pr].
    cbn [hidden probs fst snd] in *. split; assumption. }
  exact (proj1 (proj2 (proj1 trainOnEpisode_conserves_output_sums overshootParams trajectory
                         H1 H3 H2))).
Defined.

Lemma unit_return_bounds (trajectory : list (PolicyStep R)) (t : nat) :
  Forall (fun st => reward st = 1) trajectory -> (t < length trajectory)%nat ->
  1 <= get (computeReturns trajectory) t < 100.
Proof.
  intros Hr Ht.
  rewrite (@computeReturns_unit_closed trajectory Hr (length trajectory - t - 1) t) by lia.
  pose proof (pow_99_bounds (length trajectory - t - 1)). lra.
Qed.

Lemma delta2_abs_le (st : PolicyStep R) (A : R) (o : nat) :
  0 <= get (probs st) o <= 1 -> 0 <= A -> Rabs (delta2 st A o) <= A.
Proof.
  intros Hp HA. unfold delta2. to_R. rewrite Rabs_mult, (Rabs_pos_eq A) by assumption.
  assert (Rabs ((if Z.eqb (actionIndex st) (Z.of_nat o) then 1 else 0) - get (probs st) o) <= 1).
  { destruct (Z.eqb (actionIndex st) (Z.of_nat o)); apply Rabs_le; lra. }
  nra.
Qed.

(** X14.  The update is normalised by the episode length: for an episode
    recorded with reward 1 at every step and probabilities in [0, 1], one
    call of [trainOnEpisode] moves each output bias by at most 2 (learning
    rate 0.02 times the bound 100 of the returns), however long the
    episode. *)
Theorem trainOnEpisode_bias_step_bounded :
  forall (params : NetworkParams R) (trajectory : list (PolicyStep R)) (o : nat),
    wellShaped params -> (o < 2)%nat ->
    Forall (fun st => reward st = 1 /\ 0 <= get (probs st) o <= 1) trajectory ->
    Rabs (get (b2 (trainOnEpisode params trajectory)) o - get (b2 params) o) <= 2.
Proof.
  intros params trajectory o Hshape Ho Hsteps.
  assert (Hcase : trajectory = [] \/ trajectory <> [])
    by (destruct trajectory; [left; reflexivity | right; discriminate]).
  destruct Hcase as [-> | Hne].
  - change (trainOnEpisode params []) with params. rewrite Rminus_diag, Rabs_R0. lra.
  - rewrite (updated_b2_get Hshape Hne) by exact Ho.
    destruct (@episodeGradients_entries R _ params trajectory) as (_ & Hb2 & _).
    rewrite Hb2 by exact Ho.
    set (n := length trajectory).
    assert (Hn : 1 <= INR n).
    { unfold n. destruct trajectory as [|s tr]; [congruence|]. cbn [length]. rewrite S_INR.
      pose proof (pos_INR (length tr)). lra. }
    assert (Hrew : Forall (fun st => reward st = 1) trajectory).
    { eapply Forall_impl; [|exact Hsteps]. cbv beta. intros st [H _]. exact H. }
    pose proof (@sumOver_abs_le n
                  (fun t => delta2 (nth t trajectory noStep) (get (computeReturns trajectory) t) o)
                  100) as Hsum.
    assert (Hall : forall t, (t < n)%nat ->
              Rabs (delta2 (nth t trajectory noStep) (get (computeReturns trajectory) t) o) <= 100).
    { intros t Ht.
      pose proof (@unit_return_bounds trajectory t Hrew Ht) as B.
      assert (Hp : 0 <= get (probs (nth t trajectory noStep)) o <= 1).
      { rewrite Forall_forall in Hsteps. apply (Hsteps (nth t trajectory noStep)), nth_In, Ht. }
      assert (HA : 0 <= get (computeReturns trajectory) t) by lra.
      pose proof (@delta2_abs_le (nth t trajectory noStep) (get (computeReturns trajectory) t) o
                    Hp HA).
      lra. }
    specialize (Hsum Hall).
    set (S := sumOver n _) in *.
    replace (get (b2 params) o + 2 / 100 / INR n * S - get (b2 params) o)
      with (2 / 100 / INR n * S) by ring.
    rewrite Rabs_mult, (Rabs_pos_eq (2 / 100 / INR n))
      by (apply Rlt_le, Rdiv_lt_0_compat; lra).
    apply Rle_trans with (2 / 100 / INR n * (INR n * 100)).
    + apply Rmult_le_compat_l; [apply Rlt_le, Rdiv_lt_0_compat; lra | exact Hsum].
    + right. field. lra.
Qed.

Lemma trainOnEpisode_bias_step_bounded_witness :
  let trajectory := [recordStep overshootParams overshootObs 0] in
  wellShaped overshootParams /\ (0 < 2)%nat /\
  Forall (fun st => reward st = 1 /\ 0 <= get (probs st) 0 <= 1) trajectory /\
  Rabs (get (b2 (trainOnEpisode overshootParams trajectory)) 0 - get (b2 overshootParams) 0) <= 2.
Proof.
  intros trajectory.
  assert (H1 : wellShaped overshootParams) by (repeat split).
  assert (H2 : (0 < 2)%nat) by lia.
  assert (H3 : Forall (fun st => reward st = 1 /\ 0 <= get (probs st) 0 <= 1) trajectory).
  { constructor; [|constructor]. split; [reflexivity|].
    destruct (forwardNetwork_probs_pair overshootParams overshootObs) as (_ & P & _).
    change (probs (recordStep overshootParams overshootObs 0))
      with (snd (forwardNetwork overshootParams overshootObs)). lra. }
  split; [exact H1|]. split; [exact H2|]. split; [exact H3|].
  exact (@trainOnEpisode_bias_step_bounded overshootParams trajectory 0%nat H1 H2 H3).
Defined.

(** ** The orchestrator *)

Section HomeInvariants.

Context {T : Type} {AT : Arith T} {TT : Transcendental T} {AM : ArithMore T}.

Lemma sampleActionIndex_two (r a b : T) :
  sampleActionIndex r [a; b] = 0%Z \/ sampleActionIndex r [a; b] = 1%Z.
Proof.
  unfold sampleActionIndex. cbn [sampleLoop].
  destruct (num_ltb r _); [left; reflexivity|].
  destruct (num_ltb r _); right; reflexivity.
Qed.

Lemma sampleActionIndex_forward (r : T) (net : NetworkParams T) (sv : list T) :
  sampleActionIndex r (snd (forwardNetwork net sv)) = 0%Z \/
  sampleActionIndex r (snd (forwardNetwork net sv)) = 1%Z.
Proof.
  destruct (forwardNetwork_lengths net sv) as [_ H].
  destruct (snd (forwardNetwork net sv)) as [|a [|b [|c l]]]; cbn [length] in H; try lia.
  apply sampleActionIndex_two.
Qed.

Lemma recordStep_wellFormed (net : NetworkParams T) (s : CartPoleState T) (a : Z) :
  a = 0%Z \/ a = 1%Z -> stepWellFormed (recordStep net (stateToVector s) a).
Proof.
  intros Ha. destruct (forwardNetwork_lengths net (stateToVector s)) as [H8 H2].
  unfold stepWellFormed, recordStep.
  destruct (forwardNetwork net (stateToVector s)) as [hid pr]. cbn [fst snd] in H8, H2.
  cbn [state hidden probs actionIndex reward]. repeat split; auto.
Qed.

Lemma trainOnEpisode_wellShaped (params : NetworkParams T) (trajectory : list (PolicyStep T)) :
  wellShaped params -> wellShaped (trainOnEpisode params trajectory).
Proof.
  unfold wellShaped.
  pose proof (trainOnEpisode_lengths params trajectory FieldW1) as H1.
  pose proof (trainOnEpisode_lengths params trajectory Fieldb1) as H2.
  pose proof (trainOnEpisode_lengths params trajectory FieldW2) as H3.
  pose proof (trainOnEpisode_lengths params trajectory Fieldb2) as H4.
  cbn [paramField] in H1, H2, H3, H4. rewrite H1, H2, H3, H4. tauto.
Qed.

Lemma loop_invariant (r r1 r2 : T) (h : Home T) :
  HomeInvariant h -> HomeInvariant (loop r r1 r2 h).
Proof.
  intros (Hmode & Hlen & Hreach & Hwf & Hnet & Hnone).
  assert (Rd : reachable (metricsOnDone (metrics h)))
    by (apply reach_step with (metrics h); [assumption | constructor]).
  assert (Rs : reachable (metricsOnStep (metrics h)))
    by (apply reach_step with (metrics h); [assumption | constructor]).
  unfold loop, HomeInvariant.
  destruct (controlMode h) eqn:Em; destruct (networkRef h) as [net|] eqn:En.
  - (* neural, with a network: the step is recorded *)
    destruct (forwardNetwork net (stateToVector (stateRef h))) as [hid pr] eqn:Ef.
    assert (Hidx : sampleActionIndex r pr = 0%Z \/ sampleActionIndex r pr = 1%Z).
    { replace pr with (snd (forwardNetwork net (stateToVector (stateRef h))))
        by (rewrite Ef; reflexivity).
      apply sampleActionIndex_forward. }
    destruct (stepCartPole (stateRef h) _) as [next done]. destruct done;
      cbn [controlMode trajectoryRef metrics networkRef];
      (split; [|split; [|split; [|split; [|split]]]]).
    + intros _. reflexivity.
    + cbn [length metricsOnDone steps]. lia.
    + exact Rd.
    + constructor.
    + intros n' E. injection E as <-. apply trainOnEpisode_wellShaped, Hnet. reflexivity.
    + intros _. reflexivity.
    + intros C. congruence.
    + rewrite length_app. cbn [length metricsOnStep steps]. lia.
    + exact Rs.
    + apply Forall_app. split; [assumption|]. constructor; [|constructor].
      now apply recordStep_wellFormed.
    + exact Hnet.
    + intros C. congruence.
  - (* neural, network not ready: the heuristic acts, nothing is recorded *)
    pose proof (Hnone eq_refl) as E.
    destruct (stepCartPole (stateRef h) _) as [next done]. destruct done;
      cbn [controlMode trajectoryRef metrics networkRef];
      (split; [|split; [|split; [|split; [|split]]]]); auto;
      try (rewrite E; cbn [length metricsOnDone metricsOnStep steps]; lia);
      try (cbn [metricsOnStep steps]; lia).
  - pose proof (Hmode ltac:(discriminate)) as E.
    destruct (stepCartPole (stateRef h) _) as [next done]. destruct done;
      cbn [controlMode trajectoryRef metrics networkRef];
      (split; [|split; [|split; [|split; [|split]]]]); auto;
      try (rewrite E; cbn [length metricsOnDone metricsOnStep steps]; lia);
      try (cbn [metricsOnStep steps]; lia).
  - pose proof (Hmode ltac:(discriminate)) as E.
    destruct (stepCartPole (stateRef h) _) as [next done]. destruct done;
      cbn [controlMode trajectoryRef metrics networkRef];
      (split; [|split; [|split; [|split; [|split]]]]); auto;
      try (rewrite E; cbn [length metricsOnDone metricsOnStep steps]; lia);
      try (cbn [metricsOnStep steps]; lia).
  - pose proof (Hmode ltac:(discriminate)) as E.
    destruct (stepCartPole (stateRef h) _) as [next done]. destruct done;
      cbn [controlMode trajectoryRef metrics networkRef];
      (split; [|split; [|split; [|split; [|split]]]]); auto;
      try (rewrite E; cbn [length metricsOnDone metricsOnStep steps]; lia);
      try (cbn [metricsOnStep steps]; lia).
  - pose proof (Hmode ltac:(discriminate)) as E.
    destruct (stepCartPole (stateRef h) _) as [next done]. destruct done;
      cbn [controlMode trajectoryRef metrics networkRef];
      (split; [|split; [|split; [|split; [|split]]]]); auto;
      try (rewrite E; cbn [length metricsOnDone metricsOnStep steps]; lia);
      try (cbn [metricsOnStep steps]; lia).
Qed.

(** What one run of [loop] does to the state, the metrics and the
    statistics, for the action it chose. *)
Lemma loop_effect (r r1 r2 : T) (h : Home T) :
  exists action : Z,
    (snd (stepCartPole (stateRef h) action) = true /\
     stateRef (loop r r1 r2 h) = createInitialState true r1 r2 /\
     metrics (loop r r1 r2 h) = metricsOnDone (metrics h) /\
     (trainingStats (loop r r1 r2 h) = trainingStats h \/
      trainingStats (loop r r1 r2 h) =
      updateStats (trainingStats h)
        (num_of_Z (Z.of_nat (S (length (trajectoryRef h))))))) \/
    (snd (stepCartPole (stateRef h) action) = false /\
     stateRef (loop r r1 r2 h) = fst (stepCartPole (stateRef h) action) /\
     metrics (loop r r1 r2 h) = metricsOnStep (metrics h) /\
     trainingStats (loop r r1 r2 h) = trainingStats h).
Proof.
  unfold loop.
  destruct (controlMode h) eqn:Em; destruct (networkRef h) as [net|] eqn:En.
  - destruct (forwardNetwork net (stateToVector (stateRef h))) as [hid pr] eqn:Ef.
    exists (if Z.eqb (sampleActionIndex r pr) 0 then (-1)%Z else 1%Z).
    destruct (stepCartPole (stateRef h) _) as [next done]. destruct done; [left | right];
      cbn [fst snd stateRef metrics trainingStats]; repeat split.
    right. rewrite length_app, Nat.add_comm. reflexivity.
  - exists (heuristicAction (stateRef h)).
    destruct (stepCartPole (stateRef h) _) as [next done]. destruct done; [left | right];
      cbn [fst snd stateRef metrics trainingStats]; repeat split. left. reflexivity.
  - exists (heuristicAction (stateRef h)).
    destruct (stepCartPole (stateRef h) _) as [next done]. destruct done; [left | right];
      cbn [fst snd stateRef metrics trainingStats]; repeat split. left. reflexivity.
  - exists (heuristicAction (stateRef h)).
    destruct (stepCartPole (stateRef h) _) as [next done]. destruct done; [left | right];
      cbn [fst snd stateRef metrics trainingStats]; repeat split. left. reflexivity.
  - exists (if num_ltb (dec 5 10) r then 1%Z else (-1)%Z).
    destruct (stepCartPole (stateRef h) _) as [next done]. destruct done; [left | right];
      cbn [fst snd stateRef metrics trainingStats]; repeat split. left. reflexivity.
  - exists (if num_ltb (dec 5 10) r then 1%Z else (-1)%Z).
    destruct (stepCartPole (stateRef h) _) as [next done]. destruct done; [left | right];
      cbn [fst snd stateRef metrics trainingStats]; repeat split. left. reflexivity.
Qed.

Lemma handle_invariant (h : Home T) (e : Event T) :
  HomeInvariant h -> HomeInvariant (handle h e).
Proof.
  intros Hinv. destruct e as [r r1 r2 | | r1 r2 | m | rand | rand r1 r2]; cbn [handle].
  - destruct (isRunning h); [now apply loop_invariant | exact Hinv].
  - exact Hinv.
  - destruct Hinv as (Hmode & Hlen & Hreach & Hwf & Hnet & Hnone).
    unfold HomeInvariant, handleReset.
    cbn [controlMode trajectoryRef metrics networkRef].
    split; [|split; [|split; [|split; [|split]]]]; auto.
    + cbn [length metricsOnReset steps]. lia.
    + apply reach_step with (metrics h); [assumption | constructor].
  - destruct Hinv as (Hmode & Hlen & Hreach & Hwf & Hnet & Hnone).
    unfold HomeInvariant, setControlMode.
    cbn [controlMode trajectoryRef metrics networkRef].
    destruct m; cbn [ControlMode_eqb];
      (split; [|split; [|split; [|split; [|split]]]]); auto; try congruence;
      cbn [length]; pose proof (reachable_invariant Hreach); lia.
  - destruct Hinv as (Hmode & Hlen & Hreach & Hwf & Hnet & Hnone).
    unfold HomeInvariant, handleReinitializeNetwork.
    cbn [controlMode trajectoryRef metrics networkRef].
    split; [|split; [|split; [|split; [|split]]]]; auto.
    + cbn [length]. pose proof (reachable_invariant Hreach). lia.
    + intros net E. injection E as <-. apply initializeNetwork_wellShaped.
  - destruct Hinv as (Hmode & Hlen & Hreach & Hwf & Hnet & Hnone).
    unfold HomeInvariant, mount.
    cbn [controlMode trajectoryRef metrics networkRef].
    split; [|split; [|split; [|split; [|split]]]]; auto.
    + intros net E. injection E as <-. apply initializeNetwork_wellShaped.
    + discriminate.
Qed.

Lemma initialHome_invariant (window : bool) (r1 r2 : T) :
  HomeInvariant (initialHome window r1 r2).
Proof.
  unfold HomeInvariant, initialHome. cbn [controlMode trajectoryRef metrics networkRef].
  split; [|split; [|split; [|split; [|split]]]]; auto.
  - cbn. lia.
  - constructor.
  - discriminate.
Qed.

Lemma run_invariant (h : Home T) (events : list (Event T)) :
  HomeInvariant h -> HomeInvariant (run h events).
Proof.
  revert h. induction events as [|e es IH]; intros h Hinv; cbn [run fold_left].
  - exact Hinv.
  - apply (IH (handle h e)). now apply handle_invariant.
Qed.

End HomeInvariants.

(** X15.  Whatever sequence of animation frames and button presses the
    component goes through, with any draws and in any arithmetic: outside
    neural mode, and while no network is loaded, the trajectory is empty; the
    trajectory is never longer than the running step count; every recorded
    step has a 4-entry observation, 8 hidden activations, 2 probabilities, an
    action index 0 or 1 and reward 1; the network, once loaded, always has
    arrays of sizes 32, 8, 16 and 2; and the running reward equals the
    running step count, with [last <= best]. *)
Theorem home_invariant :
  forall (T : Type) (AT : Arith T) (TT : Transcendental T) (AM : ArithMore T)
         (window : bool) (r1 r2 : T) (events : list (Event T)),
    let h := run (initialHome window r1 r2) events in
    (controlMode h <> neural -> trajectoryRef h = []) /\
    (networkRef h = None -> trajectoryRef h = []) /\
    (Z.of_nat (length (trajectoryRef h)) <= steps (metrics h))%Z /\
    Forall stepWellFormed (trajectoryRef h) /\
    (forall net, networkRef h = Some net -> wellShaped net) /\
    (totalReward (metrics h) = steps (metrics h) /\
     (0 <= last (metrics h) <= best (metrics h))%Z).
Proof.
  intros T AT TT AM window r1 r2 events h.
  destruct (run_invariant events (initialHome_invariant window r1 r2))
    as (Hmode & Hlen & Hreach & Hwf & Hnet & Hnone).
  fold h in Hmode, Hlen, Hreach, Hwf, Hnet, Hnone.
  pose proof (reachable_invariant Hreach) as (_ & Ht & _ & Hl).
  repeat (split; [assumption|]). exact Hl.
Qed.

(** ** The orchestrator in exact arithmetic, draws in [0, 1) *)

Lemma freshState_step_survives (s : CartPoleState R) (action : Z) :
  freshState s -> snd (stepCartPole s action) = false.
Proof.
  intros Hf. pose proof (freshState_withinLimits Hf) as Hw.
  destruct (stepCartPole_position s action) as [Ex Et].
  destruct Hf as (_ & Hxd & _ & Htd).
  apply stepCartPole_not_done. unfold withinLimits.
  rewrite Ex, Et, Hxd, Htd. unfold withinLimits in Hw.
  replace (x s + 2 / 100 * 0) with (x s) by ring.
  replace (theta s + 2 / 100 * 0) with (theta s) by ring. exact Hw.
Qed.

Lemma updateStats_bounds (prev : TrainingStats R) (ep b b' : R) :
  (averageReturn prev = 0 \/ 1 <= averageReturn prev) ->
  averageReturn prev <= b -> b <= b' -> 1 <= ep <= b' ->
  (averageReturn (updateStats prev ep) = 0 \/ 1 <= averageReturn (updateStats prev ep)) /\
  averageReturn (updateStats prev ep) <= b' /\
  0 <= lastReturn (updateStats prev ep) <= b'.
Proof.
  intros H0 Hb Hbb Hep. unfold updateStats. cbn [averageReturn lastReturn].
  unfold_constants. to_R. cbn [num_eqb ArithMore_R]. unfold Reqb.
  destruct (Req_dec_T (averageReturn prev) 0) as [E | E].
  - split; [right; lra | lra].
  - destruct H0 as [H0 | H0]; [contradiction|].
    split; [right; lra | lra].
Qed.

Lemma loop_invariantR (r r1 r2 : R) (h : Home R) :
  unitDraw r1 -> unitDraw r2 ->
  HomeInvariant h -> HomeInvariantR h -> HomeInvariantR (loop r r1 r2 h).
Proof.
  intros U1 U2 (_ & Hlen & Hreach & _) (Hw & Hfresh & Hlast & Hbest & Havg & Hab & Hlr).
  pose proof (reachable_invariant Hreach) as (Hs0 & _ & _ & Hlb).
  destruct (loop_effect r r1 r2 h) as (action & [(Hd & Es & Em & Et) | (Hd & Es & Em & Et)]);
    unfold HomeInvariantR; rewrite Es, Em.
  - (* a terminal step: the episode had at least one earlier step *)
    assert (Hs1 : (1 <= steps (metrics h))%Z).
    { destruct (Z.eq_dec (steps (metrics h)) 0) as [E | E]; [|lia].
      rewrite (freshState_step_survives action (Hfresh E)) in Hd. discriminate. }
    pose proof (@createInitialState_fresh true r1 r2 U1 U2) as Hf.
    cbn [metricsOnDone steps last best].
    assert (Hmax : (best (metrics h) <= Z.max (best (metrics h)) (steps (metrics h) + 1))%Z) by lia.
    assert (Hmax2 : (steps (metrics h) + 1 <= Z.max (best (metrics h)) (steps (metrics h) + 1))%Z) by lia.
    apply IZR_le in Hmax. apply IZR_le in Hmax2.
    split; [now apply freshState_withinLimits|]. split; [intros _; exact Hf|].
    split; [right; lia|]. split; [right; lia|].
    destruct Et as [-> | ->].
    + split; [exact Havg|]. split; lra.
    + assert (Hep : 1 <= IZR (Z.of_nat (S (length (trajectoryRef h)))) <=
                    IZR (Z.max (best (metrics h)) (steps (metrics h) + 1))).
      { split.
        - apply IZR_le. lia.
        - apply Rle_trans with (IZR (steps (metrics h) + 1)); [apply IZR_le; lia | exact Hmax2]. }
      exact (updateStats_bounds (trainingStats h) Havg Hab Hmax Hep).
  - (* a surviving step *)
    rewrite Et. cbn [metricsOnStep steps last best].
    split; [apply stepCartPole_not_done; exact Hd|].
    split; [intros E; lia|]. repeat (split; [assumption|]). exact Hlr.
Qed.

Lemma handle_invariantR (h : Home R) (e : Event R) :
  eventDrawsInUnit e ->
  HomeInvariant h -> HomeInvariantR h -> HomeInvariantR (handle h e).
Proof.
  intros Hu Hinv HinvR.
  destruct e as [r r1 r2 | | r1 r2 | m | rand | rand r1 r2]; cbn [handle eventDrawsInUnit] in *.
  - destruct Hu as (_ & U1 & U2).
    destruct (isRunning h); [now apply loop_invariantR | exact HinvR].
  - exact HinvR.
  - destruct Hu as (U1 & U2).
    destruct HinvR as (Hw & Hfresh & Hlast & Hbest & Havg & Hab & Hlr).
    pose proof (@createInitialState_fresh true r1 r2 U1 U2) as Hf.
    unfold HomeInvariantR, handleReset.
    cbn [stateRef metrics trainingStats metricsOnReset steps last best].
    split; [now apply freshState_withinLimits|]. split; [intros _; exact Hf|].
    repeat (split; [assumption|]). exact Hlr.
  - exact HinvR.
  - destruct HinvR as (Hw & Hfresh & Hlast & Hbest & Havg & Hab & Hlr).
    destruct Hinv as (_ & _ & Hreach & _).
    pose proof (reachable_invariant Hreach) as (_ & _ & _ & Hlb).
    assert (0 <= IZR (best (metrics h))) by (apply IZR_le; lia).
    unfold HomeInvariantR, handleReinitializeNetwork.
    cbn [stateRef metrics trainingStats averageReturn lastReturn]. to_R.
    repeat (split; [assumption|]). split; [left; reflexivity|]. split; lra.
  - destruct Hu as (_ & U1 & U2).
    destruct HinvR as (Hw & Hfresh & Hlast & Hbest & Havg & Hab & Hlr).
    pose proof (@createInitialState_fresh true r1 r2 U1 U2) as Hf.
    unfold HomeInvariantR, mount. cbn [stateRef metrics trainingStats].
    split; [now apply freshState_withinLimits|]. split; [intros _; exact Hf|].
    repeat (split; [assumption|]). exact Hlr.
Qed.

Lemma initialHome_invariantR (window : bool) (r1 r2 : R) :
  unitDraw r1 -> unitDraw r2 -> HomeInvariantR (initialHome window r1 r2).
Proof.
  intros U1 U2. pose proof (createInitialState_fresh window U1 U2) as Hf.
  unfold HomeInvariantR, initialHome.
  cbn [stateRef metrics trainingStats averageReturn lastReturn initialMetrics steps last best].
  to_R.
  split; [now apply freshState_withinLimits|]. split; [intros _; exact Hf|].
  split; [left; reflexivity|]. split; [left; reflexivity|].
  split; [left; reflexivity|]. split; lra.
Qed.

Lemma run_invariantR (events : list (Event R)) :
  forall h : Home R,
    Forall eventDrawsInUnit events ->
    HomeInvariant h -> HomeInvariantR h ->
    HomeInvariant (run h events) /\ HomeInvariantR (run h events).
Proof.
  induction events as [|e es IH]; intros h Hu Hinv HinvR; cbn [run fold_left].
  - split; assumption.
  - inversion Hu as [|? ? He Hes]; subst.
    apply (IH (handle h e)); [assumption | now apply handle_invariant |
                               now apply handle_invariantR].
Qed.

Local Ltac unit_draws :=
  cbn [eventDrawsInUnit]; unfold unitDraw;
  first [exact I | lra | (split; [intros ?; lra | lra]) | (intros ?; lra)].

Local Ltac session_draws :=
  repeat (apply Forall_cons; [unit_draws|]); apply Forall_nil.

(** X16.  The simulated state never leaves the limits: after any sequence
    of frames and button presses whose draws lie in [0, 1), the cart
    position is within 2.4 of the centre and the pole within 12 degrees of
    upright; and whenever the running step count is 0 the state is a fresh
    one, at rest with |x| <= 0.2 and |theta| <= 0.1. *)
Theorem home_state_within_limits :
  forall (window : bool) (r1 r2 : R) (events : list (Event R)),
    unitDraw r1 -> unitDraw r2 -> Forall eventDrawsInUnit events ->
    let h := run (initialHome window r1 r2) events in
    Rabs (x (stateRef h)) <= 24 / 10 /\
    Rabs (theta (stateRef h)) <= 12 * PI / 180 /\
    (steps (metrics h) = 0%Z -> freshState (stateRef h)).
Proof.
  intros window r1 r2 events U1 U2 Hu h.
  destruct (@run_invariantR events (initialHome window r1 r2) Hu
              (initialHome_invariant window r1 r2)
              (initialHome_invariantR window U1 U2)) as [_ (Hw & Hf & _)].
  fold h in Hw, Hf. destruct Hw as [Hx Ht].
  split; [exact Hx | split; [exact Ht | exact Hf]].
Qed.

Lemma home_state_within_limits_witness :
  let events := [Mount (fun _ => 1 / 2) (1 / 2) (1 / 4); ToggleRun;
                 Frame (1 / 2) (1 / 3) (2 / 3); Frame (9 / 10) 0 (1 / 2)] in
  let h := run (initialHome true (1 / 2) (1 / 2)) events in
  Forall eventDrawsInUnit events /\
  Rabs (x (stateRef h)) <= 24 / 10 /\ Rabs (theta (stateRef h)) <= 12 * PI / 180.
Proof.
  intros events h.
  assert (U : unitDraw (1 / 2)) by (unfold unitDraw; lra).
  assert (Hu : Forall eventDrawsInUnit events) by (unfold events; session_draws).
  split; [exact Hu|].
  destruct (@home_state_within_limits true _ _ events U U Hu) as (Hx & Ht & _).
  split; [exact Hx | exact Ht].
Defined.

(** X17.  No episode ends on its first step: a step taken when the running
    step count is 0 starts from a fresh state and is never terminal, so the
    recorded survival times [last] and [best] are either still 0 or at
    least 2. *)
Theorem home_episodes_last_two_steps :
  forall (window : bool) (r1 r2 : R) (events : list (Event R)),
    unitDraw r1 -> unitDraw r2 -> Forall eventDrawsInUnit events ->
    let h := run (initialHome window r1 r2) events in
    (steps (metrics h) = 0%Z ->
     forall action, snd (stepCartPole (stateRef h) action) = false) /\
    (last (metrics h) = 0 \/ 2 <= last (metrics h))%Z /\
    (best (metrics h) = 0 \/ 2 <= best (metrics h))%Z.
Proof.
  intros window r1 r2 events U1 U2 Hu h.
  destruct (@run_invariantR events (initialHome window r1 r2) Hu
              (initialHome_invariant window r1 r2)
              (initialHome_invariantR window U1 U2)) as [_ (_ & Hf & Hl & Hb & _)].
  fold h in Hf, Hl, Hb. split; [|split; assumption].
  intros E action. apply freshState_step_survives, Hf, E.
Qed.

Lemma home_episodes_last_two_steps_witness :
  let events := [ToggleRun; SetControlMode random; Frame (1 / 4) (1 / 2) (1 / 2);
                 Frame (3 / 4) (1 / 2) (1 / 2); Reset (1 / 10) (9 / 10)] in
  let h := run (initialHome false 0 0) events in
  Forall eventDrawsInUnit events /\
  (last (metrics h) = 0 \/ 2 <= last (metrics h))%Z /\
  (best (metrics h) = 0 \/ 2 <= best (metrics h))%Z.
Proof.
  intros events h.
  assert (U : unitDraw 0) by (unfold unitDraw; lra).
  assert (Hu : Forall eventDrawsInUnit events) by (unfold events; session_draws).
  split; [exact Hu|].
  exact (proj2 (@home_episodes_last_two_steps false _ _ events U U Hu)).
Defined.

(** ** A session that ends an episode: the pole falling under a steady push *)

Lemma specThetaAcc_push_left (s : CartPoleState R) :
  98 / 1000 <= theta s <= 4 / 15 ->
  0 <= thetaDot s <= 35 / 10 ->
  12 <= specThetaAcc s (-1) <= 19.
Proof.
  intros [Hlo Hhi] [Hv0 Hv1].
  pose proof PI2_1 as Hpi.
  assert (Hs0 : 0 <= sin (theta s)) by (apply sin_ge_0; lra).
  assert (Hs1 : sin (theta s) <= 4 / 15) by (pose proof (sin_lt_x (theta s)); lra).
  assert (Hc0 : 0 <= cos (theta s)) by (apply cos_ge_0; lra).
  pose proof (COS_bound (theta s)) as [_ Hc1].
  pose proof (sin2_cos2 (theta s)) as Hsc. unfold Rsqr in Hsc.
  unfold specThetaAcc, specTemp, specForce.
  set (sn := sin (theta s)) in *. set (c := cos (theta s)) in *.
  set (v := thetaDot s) in *.
  assert (Hc : 92 / 100 <= c) by nra.
  assert (Hw : 0 <= v ^ 2 * sn <= 35 / 10) by (simpl; nra).
  set (w := v ^ 2 * sn) in *.
  assert (Hd : 1 / 2 * (4 / 3 - 1 / 11) <= 1 / 2 * (4 / 3 - 1 / 10 * c ^ 2 / (1 + 1 / 10)) <= 2 / 3).
  { simpl. split; nra. }
  set (d := 1 / 2 * (4 / 3 - 1 / 10 * c ^ 2 / (1 + 1 / 10))) in *.
  replace (1 / 10 * (1 / 2) * v ^ 2 * sn) with (1 / 20 * w) by (unfold w; field).
  set (n := 98 / 10 * sn - c * ((IZR (-1) * 10 + 1 / 20 * w) / (1 + 1 / 10))).
  assert (Hn : 8 <= n <= 1175 / 100).
  { unfold n. replace (c * ((IZR (-1) * 10 + 1 / 20 * w) / (1 + 1 / 10)))
      with (- (c * (10 - 1 / 20 * w) * (10 / 11))) by (field).
    assert (98 / 10 <= 10 - 1 / 20 * w <= 10) by lra.
    split; nra. }
  assert (Hdpos : 0 < d) by lra.
  split.
  - apply Rmult_le_reg_r with d; [exact Hdpos|].
    replace (n / d * d) with n by (field; lra). nra.
  - apply Rmult_le_reg_r with d; [exact Hdpos|].
    replace (n / d * d) with n by (field; lra). nra.
Qed.

Lemma withinLimits_theta (s : CartPoleState R) : withinLimits s -> theta s <= 4 / 15.
Proof.
  intros [_ Ht]. pose proof PI_4.
  unfold Rabs in Ht. destruct (Rcase_abs (theta s)); lra.
Qed.

Lemma fallingAfter_step (k : nat) (s : CartPoleState R) :
  (k <= 8)%nat -> withinLimits s -> fallingAfter k s ->
  fallingAfter (S k) (fst (stepCartPole s (-1))).
Proof.
  intros Hk Hw ([Hv0 Hv1] & Ht).
  pose proof (@withinLimits_theta s Hw) as Hhi.
  assert (Hk0 : 0 <= INR k) by apply pos_INR.
  assert (Hk8 : INR k <= 8) by (replace 8 with (INR 8) by (simpl; lra); apply le_INR, Hk).
  assert (Hlo : 98 / 1000 <= theta s).
  { destruct k as [|k']; [simpl in Ht; lra|].
    rewrite S_INR in Ht. pose proof (pos_INR k'). nra. }
  assert (Hacc : 12 <= specThetaAcc s (-1) <= 19)
    by (apply specThetaAcc_push_left; lra).
  rewrite stepCartPole_fst. unfold fallingAfter, specEulerStep. cbn [theta thetaDot].
  rewrite S_INR. repeat split; nra.
Qed.

Lemma fallingAfter_limit (s : CartPoleState R) :
  withinLimits s -> fallingAfter 9 s -> False.
Proof.
  intros Hw (_ & Ht). pose proof (@withinLimits_theta s Hw) as Hhi.
  replace (INR 9) with 9 in Ht by (simpl; lra). lra.
Qed.

Lemma loop_push_left (r1 r2 : R) (h : Home R) (net : NetworkParams R) :
  controlMode h = neural -> networkRef h = Some net ->
  isRunning (loop 0 r1 r2 h) = isRunning h /\
  controlMode (loop 0 r1 r2 h) = neural /\
  (exists net', networkRef (loop 0 r1 r2 h) = Some net') /\
  ((snd (stepCartPole (stateRef h) (-1)) = true /\
    exists ep : R, 1 <= ep /\
      trainingStats (loop 0 r1 r2 h) = updateStats (trainingStats h) ep) \/
   (snd (stepCartPole (stateRef h) (-1)) = false /\
    stateRef (loop 0 r1 r2 h) = fst (stepCartPole (stateRef h) (-1)) /\
    trainingStats (loop 0 r1 r2 h) = trainingStats h)).
Proof.
  intros Em En. unfold loop. rewrite Em, En.
  destruct (forwardNetwork_probs_pair net (stateToVector (stateRef h))) as (E & [P0 _] & _).
  destruct (forwardNetwork net (stateToVector (stateRef h))) as [hid pr]. cbn [snd] in E, P0.
  assert (Hidx : sampleActionIndex 0 pr = 0%Z).
  { rewrite E. unfold sampleActionIndex. cbn [sampleLoop]. to_R.
    replace (Rltb 0 (0 + get pr 0)) with true by (symmetry; apply Rltb_true; lra).
    reflexivity. }
  rewrite Hidx. cbn [Z.eqb].
  destruct (stepCartPole (stateRef h) (-1)) as [next done]. destruct done;
    cbn [fst snd isRunning controlMode networkRef stateRef trainingStats].
  - split; [reflexivity|]. split; [reflexivity|]. split; [eexists; reflexivity|].
    left. split; [reflexivity|]. eexists. split; [|reflexivity].
    to_R. apply IZR_le. rewrite length_app. cbn [length]. lia.
  - split; [reflexivity|]. split; [reflexivity|]. split; [exists net; reflexivity|].
    right. repeat split.
Qed.

Lemma updateStats_trained (prev : TrainingStats R) (ep : R) :
  1 <= ep ->
  averageReturn prev = 0 \/ 1 <= averageReturn prev ->
  1 <= averageReturn (updateStats prev ep).
Proof.
  intros Hep Hprev. unfold updateStats. cbn [averageReturn].
  unfold_constants. to_R. cbn [num_eqb ArithMore_R]. unfold Reqb.
  destruct (Req_dec_T (averageReturn prev) 0) as [E | E]; [exact Hep|].
  destruct Hprev as [H | H]; [contradiction | lra].
Qed.

Lemma trainedOrFalling_frame (k : nat) (h : Home R) (r1 r2 : R) :
  (k <= 8)%nat -> trainedOrFalling k h ->
  trainedOrFalling (S k) (handle h (Frame 0 r1 r2)).
Proof.
  intros Hk (Hrun & Em & [net En] & Hcase). cbn [handle]. rewrite Hrun.
  destruct (@loop_push_left r1 r2 h net Em En) as (Lrun & Lmode & Lnet & Lcase).
  unfold trainedOrFalling. rewrite Lrun.
  split; [exact Hrun|]. split; [exact Lmode|]. split; [exact Lnet|].
  destruct Lcase as [(_ & ep & Hep & ->) | (Hd & -> & ->)].
  - left. apply updateStats_trained; [exact Hep|].
    destruct Hcase as [H | (H & _)]; [right; exact H | left; exact H].
  - destruct Hcase as [H | (H & Hw & Hf)]; [left; exact H|].
    right. split; [exact H|].
    split; [apply stepCartPole_not_done; exact Hd | now apply fallingAfter_step].
Qed.

(** After mounting and starting, nine frames whose draw 0 selects the push
    to the left end the first episode: the pole, started at 0.098 rad, has
    fallen past the limit, and the network has been trained once. *)
Lemma push_left_session_trains (rand : nat -> R) :
  let events := [Mount rand (1 / 2) (99 / 100); ToggleRun] ++
                repeat (Frame 0 (1 / 2) (99 / 100)) 9 in
  1 <= averageReturn (trainingStats (run (initialHome true (1 / 2) (1 / 2)) events)).
Proof.
  intros events.
  assert (H0 : trainedOrFalling 0
                 (run (initialHome true (1 / 2) (1 / 2))
                      [Mount rand (1 / 2) (99 / 100); ToggleRun])).
  { unfold trainedOrFalling, run. cbn [fold_left handle toggleRun mount initialHome
      isRunning controlMode networkRef trainingStats stateRef averageReturn negb].
    split; [reflexivity|]. split; [reflexivity|]. split; [eexists; reflexivity|].
    right. split; [reflexivity|].
    pose proof angleLimit_above_tenth.
    unfold withinLimits, fallingAfter, createInitialState.
    cbn [negb x theta thetaDot]. unfold_constants. to_R. cbn [INR].
    split; [split; apply Rabs_le; lra | lra]. }
  unfold events, run. rewrite fold_left_app. fold (run (initialHome true (1 / 2) (1 / 2))
      [Mount rand (1 / 2) (99 / 100); ToggleRun]).
  set (h0 := run _ _) in *. cbn [repeat fold_left].
  do 9 (apply (@trainedOrFalling_frame _ _ (1 / 2) (99 / 100)) in H0; [|lia]).
  destruct H0 as (_ & _ & _ & [H | (_ & Hw & Hf)]); [exact H|].
  destruct (@fallingAfter_limit _ Hw Hf).
Qed.

(** X18.  In exact arithmetic, after any sequence of frames and button
    presses whose draws lie in [0, 1), the displayed training statistics
    stay meaningful: the smoothed return is either 0, its initial value, or at
    least 1, so the value 0 that the code tests to start the average is
    never the average of episodes; and neither the smoothed nor the last
    return exceeds the best survival time.  In binary64 the smoothed return
    can exceed it by rounding: averaging the return 13 into the average 13
    gives 13.000000000000002. *)
Theorem home_training_stats_bounds :
  (forall (window : bool) (r1 r2 : R) (events : list (Event R)),
     unitDraw r1 -> unitDraw r2 -> Forall eventDrawsInUnit events ->
     let h := run (initialHome window r1 r2) events in
     (averageReturn (trainingStats h) = 0 \/ 1 <= averageReturn (trainingStats h)) /\
     averageReturn (trainingStats h) <= IZR (best (metrics h)) /\
     0 <= lastReturn (trainingStats h) <= IZR (best (metrics h))) /\
  (let stats :=
     updateStats {| averageReturn := 13%float; lastReturn := 13%float |} 13%float in
   averageReturn stats = 0x1.a000000000001p+3%float /\
   PrimFloat.ltb 13 (averageReturn stats) = true /\
   lastReturn stats = 13%float).
Proof.
  split; [|vm_compute; repeat split].
  intros window r1 r2 events U1 U2 Hu h.
  destruct (@run_invariantR events (initialHome window r1 r2) Hu
              (initialHome_invariant window r1 r2)
              (initialHome_invariantR window U1 U2)) as [_ (_ & _ & _ & _ & Ha & Hab & Hlr)].
  fold h in Ha, Hab, Hlr. split; [exact Ha | split; [exact Hab | exact Hlr]].
Qed.

Lemma home_training_stats_bounds_witness :
  let events := [Mount (fun _ => 1 / 4) (1 / 2) (99 / 100); ToggleRun] ++
                repeat (Frame 0 (1 / 2) (99 / 100)) 9 in
  let h := run (initialHome true (1 / 2) (1 / 2)) events in
  Forall eventDrawsInUnit events /\
  1 <= averageReturn (trainingStats h) <= IZR (best (metrics h)) /\
  0 <= lastReturn (trainingStats h) <= IZR (best (metrics h)).
Proof.
  intros events h.
  assert (U : unitDraw (1 / 2)) by (unfold unitDraw; lra).
  assert (Hu : Forall eventDrawsInUnit events)
    by (unfold events; cbn [app repeat]; session_draws).
  split; [exact Hu|].
  destruct (proj1 home_training_stats_bounds true _ _ events U U Hu) as (_ & Hab & Hlr).
  pose proof (push_left_session_trains (fun _ => 1 / 4)) as Htrained.
  split; [split; [exact Htrained | exact Hab] | exact Hlr].
Defined.

(** ** Rendering *)

Ltac to_R_more :=
  to_R; cbn [num_eqb num_leb num_min num_opp ArithMore_R] in *.

Ltac unfold_canvas :=
  unfold cartCenterX, cartY, trackY, trackHeight, safeZoneWidth, pixelsPerMeter,
    cartWidth, cartHeight, poleLengthPx, poleWidth, wheelRadius, wheelOffset,
    canvasWidth, canvasHeight in *;
  unfold_constants; to_R_more.

Ltac case_minmax :=
  unfold Rmax, Rmin in *;
  repeat match goal with
         | |- context [Rle_dec ?a ?b] => destruct (Rle_dec a b)
         | H : context [Rle_dec ?a ?b] |- _ => destruct (Rle_dec a b)
         end.

Lemma effectiveRadius_bounds (width height radius : R) :
  0 <= width -> 0 <= height ->
  0 <= effectiveRadius width height radius /\
  effectiveRadius width height radius <= width / 2 /\
  effectiveRadius width height radius <= height / 2 /\
  effectiveRadius width height radius <= Rmax 0 radius.
Proof.
  intros Hw Hh. unfold effectiveRadius. to_R_more.
  rewrite (Rabs_pos_eq width Hw), (Rabs_pos_eq height Hh).
  case_minmax; lra.
Qed.

Lemma effectiveRadius_fits (width height radius : R) :
  0 <= radius -> radius <= width / 2 -> radius <= height / 2 ->
  effectiveRadius width height radius = radius.
Proof.
  intros Hr Hw Hh. unfold effectiveRadius. to_R_more.
  rewrite (Rabs_pos_eq width), (Rabs_pos_eq height) by lra.
  case_minmax; lra.
Qed.

Lemma drawRoundedRect_points (px py width height radius : R) :
  0 <= width -> 0 <= height ->
  Forall (inBox px py width height)
         (flat_map callPoints (drawRoundedRect px py width height radius)).
Proof.
  intros Hw Hh.
  destruct (effectiveRadius_bounds radius Hw Hh) as (H0 & H1 & H2 & _).
  unfold drawRoundedRect. cbn [flat_map callPoints app].
  set (e := effectiveRadius width height radius) in *. to_R.
  repeat (apply Forall_cons; [unfold inBox; cbn [fst snd]; lra|]).
  apply Forall_nil.
Qed.

(** X19.  [drawRoundedRect] clamps the corner radius so that the outline
    cannot leave the rectangle or fold over itself: for a rectangle of
    non-negative width and height and ANY radius (negative, or larger than
    the sides), the radius used lies between 0 and half of either side,
    every end point and control point of the path lies inside the
    rectangle, and a radius that already fits is used unchanged. *)
Theorem drawRoundedRect_inside_box :
  forall px py width height radius : R,
    0 <= width -> 0 <= height ->
    let r := effectiveRadius width height radius in
    0 <= r /\ px + r <= px + width - r /\ py + r <= py + height - r /\
    (0 <= radius -> radius <= width / 2 -> radius <= height / 2 -> r = radius) /\
    (radius <= 0 -> r = 0) /\
    Forall (inBox px py width height)
           (flat_map callPoints (drawRoundedRect px py width height radius)).
Proof.
  intros px py width height radius Hw Hh r.
  destruct (effectiveRadius_bounds radius Hw Hh) as (H0 & H1 & H2 & H3).
  fold r in H0, H1, H2, H3.
  split; [exact H0|]. split; [lra|]. split; [lra|].
  split; [intros; now apply effectiveRadius_fits|].
  split; [|now apply drawRoundedRect_points].
  intros Hr. rewrite Rmax_left in H3 by exact Hr. lra.
Qed.

Lemma drawRoundedRect_inside_box_witness :
  let r := effectiveRadius 120 40 1000 in
  r = 20 /\
  Forall (inBox 0 0 120 40) (flat_map callPoints (drawRoundedRect 0 0 120 40 1000)).
Proof.
  intros r.
  assert (Hw : 0 <= 120) by lra. assert (Hh : 0 <= 40) by lra.
  destruct (@drawRoundedRect_inside_box 0 0 120 40 1000 Hw Hh) as (H0 & H1 & H2 & _ & _ & H).
  fold r in H0, H1, H2. split; [|exact H].
  assert (Hr : effectiveRadius 120 40 20 = 20) by (apply effectiveRadius_fits; lra).
  unfold r, effectiveRadius in *. to_R_more.
  rewrite (Rabs_pos_eq 120), (Rabs_pos_eq 40) in * by lra.
  case_minmax; lra.
Defined.

Lemma Rabs_le_between (a b : R) : Rabs a <= b -> - b <= a <= b.
Proof. unfold Rabs. destruct (Rcase_abs a); lra. Qed.

Lemma small_angle (a : R) :
  Rabs a <= 12 * PI / 180 -> Rabs (sin a) <= 4 / 15 /\ 0 <= cos a <= 1.
Proof.
  intros Ha. pose proof PI_4. pose proof PI_RGT_0.
  assert (Hb : - (12 * PI / 180) <= a <= 12 * PI / 180) by (now apply Rabs_le_between).
  split.
  - apply Rabs_le.
    destruct (Rlt_le_dec 0 a) as [Hp | Hn].
    + pose proof (sin_lt_x a Hp). pose proof (sin_ge_0 a). lra.
    + destruct (Req_dec a 0) as [-> | Hz]; [rewrite sin_0; lra|].
      assert (Hp : 0 < - a) by lra.
      pose proof (sin_lt_x (- a) Hp) as H1. pose proof (sin_ge_0 (- a)) as H2.
      rewrite sin_neg in H1, H2. lra.
  - split; [apply cos_ge_0; lra | apply COS_bound].
Qed.

(** X20.  Nothing is drawn outside the canvas: whenever the state is within
    the track and angle limits, every rectangle, circle, ellipse and path
    point that the drawing effect of [CartPoleCanvas] issues, the pole and
    its tip under the translation and rotation included, lies inside the
    640 x 360 canvas. *)
Theorem drawScene_inside_canvas :
  forall s : CartPoleState R,
    withinLimits s ->
    Forall inCanvas (drawnPoints identityAffine [] (drawScene s)).
Proof.
  intros s [Hx Ht].
  apply Rabs_le_between in Hx.
  destruct (@small_angle _ Ht) as [Hs Hc]. apply Rabs_le_between in Hs.
  unfold drawScene, drawRoundedRect.
  replace (effectiveRadius cartWidth cartHeight (num_of_Z 12)) with 12
    by (symmetry; apply effectiveRadius_fits; unfold_canvas; lra).
  replace (effectiveRadius poleWidth poleLengthPx (num_of_Z 6)) with 6
    by (symmetry; apply effectiveRadius_fits; unfold_canvas; lra).
  cbn [app drawnPoints callPoints map boxCorners].
  unfold inCanvas, applyAffine, rotateBy, translateBy, identityAffine.
  cbn [fst snd ma mb mc md me mf].
  unfold_canvas. rewrite cos_0, sin_0.
  set (c := cos (theta s)) in *. set (sn := sin (theta s)) in *.
  repeat (apply Forall_cons; [cbv beta; cbn [fst snd]; lra|]).
  apply Forall_nil.
Qed.

Lemma drawScene_inside_canvas_witness :
  let s := {| x := 24 / 10; xDot := 3; theta := - (1 / 10); thetaDot := 1 |} in
  withinLimits s /\ Forall inCanvas (drawnPoints identityAffine [] (drawScene s)).
Proof.
  intros s.
  assert (Hs : withinLimits s).
  { pose proof angleLimit_above_tenth. unfold withinLimits, s. cbn [x theta].
    split; apply Rabs_le; lra. }
  split; [exact Hs | exact (@drawScene_inside_canvas s Hs)].
Defined.

(** X21.  The blue "safe zone" marker is narrower than the track the
    physics allows: the centre of the cart is drawn over the marker exactly
    when |x| <= 32/15 (about 2.13), while an episode only ends beyond
    |x| > 2.4; in pixels the marker reaches 142.2 from the centre of the
    canvas and the track limit 160. *)
Theorem safeZone_narrower_than_track :
  forall s : CartPoleState R,
    let safeZoneLeft := (canvasWidth - safeZoneWidth) / 2 in
    (safeZoneLeft <= cartCenterX s <= safeZoneLeft + safeZoneWidth <->
     Rabs (x s) <= 32 / 15) /\
    32 / 15 < trackLimit /\
    safeZoneWidth / 2 = 32 / 15 * pixelsPerMeter /\
    trackLimit * pixelsPerMeter = 160.
Proof.
  intros s safeZoneLeft. unfold safeZoneLeft. unfold_canvas.
  split; [|split; [lra | split; field]].
  split.
  - intros H. apply Rabs_le. lra.
  - intros H. apply Rabs_le_between in H. lra.
Qed.

Lemma tanh_neg (u : R) : u < 0 -> tanh u < 0.
Proof.
  intros H. rewrite tanh_exp. pose proof (exp_pos u) as Hp.
  assert (He : exp u < 1) by (rewrite <- exp_0; now apply exp_increasing).
  apply Rmult_lt_reg_r with (exp u * exp u + 1); [nra|].
  replace ((exp u * exp u - 1) / (exp u * exp u + 1) * (exp u * exp u + 1))
    with (exp u * exp u - 1) by (field; nra).
  nra.
Qed.

Lemma Rabs_tanh (u : R) : Rabs (tanh u) = tanh (Rabs u).
Proof.
  unfold Rabs at 2. destruct (Rcase_abs u) as [Hn | Hp].
  - rewrite tanh_opp. apply Rabs_left. now apply tanh_neg.
  - apply Rabs_pos_eq. apply tanh_nonneg. lra.
Qed.

Lemma Rleb_true (a b : R) : Rleb a b = true <-> a <= b.
Proof. unfold Rleb. destruct (Rle_dec a b); split; intros; auto; congruence. Qed.

Lemma weightColor_alpha (w : R) :
  paintAlpha (weightColor w) = 2 / 10 + Rabs (tanh w) * (6 / 10).
Proof.
  unfold weightColor. unfold_constants. to_R_more.
  destruct (Rleb 0 (tanh w)); reflexivity.
Qed.

(** X22.  In exact arithmetic a connection of [NetworkVisualizer] is blue
    exactly for a weight >= 0 and red for a negative one, its opacity stays
    in [0.2, 0.8) and its stroke width in [1.5, 5.5), and both grow with the
    magnitude of the weight.  In binary64 [Math.tanh] saturates, and where
    it returns 1 the line is blue with opacity exactly 0.8 and width 5.5,
    where it returns -1 red with the same. *)
Theorem weightColor_range :
  (forall w : R,
     (paintChannels (weightColor w) = Some (59, 130, 246)%Z <-> 0 <= w) /\
     (paintChannels (weightColor w) = Some (244, 63, 94)%Z <-> w < 0) /\
     2 / 10 <= paintAlpha (weightColor w) < 8 / 10 /\
     15 / 10 <= weightThickness w < 55 / 10 /\
     (forall w' : R, Rabs w <= Rabs w' ->
        paintAlpha (weightColor w) <= paintAlpha (weightColor w') /\
        weightThickness w <= weightThickness w')) /\
  (forall (fexp ftanh fsin fcos : float -> float) (w : float),
     let TF := Transcendental_float fexp ftanh fsin fcos in
     (ftanh w = 1%float ->
      @weightColor float Arith_float TF ArithMore_float w = Rgba 59 130 246 (dec 8 10) /\
      @weightThickness float Arith_float TF w = dec 55 10) /\
     (ftanh w = (-1)%float ->
      @weightColor float Arith_float TF ArithMore_float w = Rgba 244 63 94 (dec 8 10) /\
      @weightThickness float Arith_float TF w = dec 55 10)).
Proof.
  split.
  2:{ intros fexp ftanh fsin fcos w TF. split; intros Hsat.
      - unfold weightColor, weightThickness, TF.
        cbn [num_tanh Transcendental_float]. rewrite Hsat. vm_compute. split; reflexivity.
      - unfold weightColor, weightThickness, TF.
        cbn [num_tanh Transcendental_float]. rewrite Hsat. vm_compute. split; reflexivity. }
  intros w.
  assert (Hsign : Rleb 0 (tanh w) = true <-> 0 <= w).
  { rewrite Rleb_true. split.
    - intros H. destruct (Rlt_le_dec w 0) as [Hn | Hp]; [|exact Hp].
      pose proof (tanh_neg Hn). lra.
    - apply tanh_nonneg. }
  assert (Hab : forall u, 0 <= Rabs (tanh u) < 1).
  { intros u. rewrite Rabs_tanh. split.
    - apply tanh_nonneg, Rabs_pos.
    - apply tanh_bounds. }
  assert (Hth : forall u, weightThickness u = 15 / 10 + Rabs (tanh u) * 4).
  { intros u. unfold weightThickness. unfold_constants. to_R_more. reflexivity. }
  split; [|split; [|split; [|split]]].
  - rewrite <- Hsign. unfold weightColor. to_R_more.
    destruct (Rleb 0 (tanh w)); cbn [paintChannels]; split; congruence.
  - assert (Hn : Rleb 0 (tanh w) = false <-> w < 0).
    { split; intros H.
      - destruct (Rlt_le_dec w 0) as [Hn | Hp]; [exact Hn|].
        apply Hsign in Hp. congruence.
      - destruct (Rleb 0 (tanh w)); [|reflexivity].
        pose proof (proj1 Hsign eq_refl). lra. }
    rewrite <- Hn. unfold weightColor. to_R_more.
    destruct (Rleb 0 (tanh w)); cbn [paintChannels]; split; congruence.
  - rewrite weightColor_alpha. pose proof (Hab w). lra.
  - rewrite Hth. pose proof (Hab w). lra.
  - intros w' Hle. rewrite !weightColor_alpha, !Hth, !Rabs_tanh.
    pose proof (tanh_le Hle). lra.
Qed.

Lemma activationColor_alpha (value : R) (kind : ActivationKind) :
  paintAlpha (activationColor value kind) =
  match kind with
  | outputKind => 25 / 100 + Rmin 1 (Rmax 0 value) * (6 / 10)
  | _ => 25 / 100 + Rabs (Rmax (-1) (Rmin 1 value)) * (55 / 100)
  end.
Proof.
  unfold activationColor. unfold_constants. to_R_more.
  destruct kind; try reflexivity;
    destruct (Rleb 0 (Rmax (-1) (Rmin 1 value))); reflexivity.
Qed.

(** X23.  In exact arithmetic a node of [NetworkVisualizer] is filled with
    an opacity between 0.25 and 0.85 whatever value it is given, because the
    value is clamped first; and for the inputs, which pass through tanh, and
    the hidden activations and probabilities [forwardNetwork] produces from
    parameters of the network's sizes and four inputs, the clamp is
    inactive: the opacity is 0.25 + 0.55 |v| for an input or hidden node and
    0.25 + 0.6 p for an output.  In binary64 a NaN value passes the
    clamp: the node is painted with opacity NaN, in red for an input or
    hidden node. *)
Theorem activationColor_range :
  (forall (value : R) (kind : ActivationKind),
     25 / 100 <= paintAlpha (activationColor value kind) <= 85 / 100 /\
     (kind = outputKind -> 0 <= value <= 1 ->
      paintAlpha (activationColor value kind) = 25 / 100 + value * (6 / 10)) /\
     (kind <> outputKind -> -1 <= value <= 1 ->
      paintAlpha (activationColor value kind) = 25 / 100 + Rabs value * (55 / 100)) /\
     (forall (params : NetworkParams R) (inputVector : list R) (index : nat),
        wellShaped params -> length inputVector = 4%nat ->
        let activations :=
          {| actInput := inputVector;
             actHidden := fst (forwardNetwork params inputVector);
             actOutput := snd (forwardNetwork params inputVector) |} in
        paintAlpha (inputFill activations index) =
        25 / 100 + Rabs (tanh (nth index inputVector 0)) * (55 / 100) /\
        ((index < 8)%nat ->
         paintAlpha (hiddenFill activations index) =
         25 / 100 + Rabs (tanh (preActivation params inputVector index)) * (55 / 100)) /\
        ((index < 2)%nat ->
         paintAlpha (outputFill activations index) =
         25 / 100 + get (snd (forwardNetwork params inputVector)) index * (6 / 10)))) /\
  (activationColor PrimFloat.nan inputKind = Rgba 248 113 113 PrimFloat.nan /\
   activationColor PrimFloat.nan hiddenKind = Rgba 248 113 113 PrimFloat.nan /\
   activationColor PrimFloat.nan outputKind = Rgba 16 185 129 PrimFloat.nan).
Proof.
  split; [|repeat split].
  intros value kind. rewrite activationColor_alpha.
  split; [|split; [|split]].
  - destruct kind; unfold Rabs; try destruct (Rcase_abs _); case_minmax; lra.
  - intros -> H. case_minmax; lra.
  - intros Hk H. destruct kind; try congruence;
      unfold Rabs; repeat destruct (Rcase_abs _); case_minmax; lra.
  - intros params inputVector index _ _ activations.
    split; [|split].
    + unfold inputFill, activations. cbn [actInput].
      rewrite activationColor_alpha. to_R.
      rewrite <- tanh_0 at 1. rewrite map_nth.
      pose proof (tanh_bounds (nth index inputVector 0)).
      rewrite Rmin_right by lra. rewrite Rmax_right by lra. reflexivity.
    + intros Hi. unfold hiddenFill, activations, forwardNetwork. cbn [actHidden fst].
      rewrite activationColor_alpha.
      pose proof (forwardHidden_entry params inputVector Hi) as E.
      unfold get in E. to_R. rewrite E.
      pose proof (tanh_bounds (preActivation params inputVector index)).
      rewrite Rmin_right by lra. rewrite Rmax_right by lra. reflexivity.
    + intros Hi. unfold outputFill, activations. cbn [actOutput].
      rewrite activationColor_alpha.
      destruct (forwardNetwork_probs_pair params inputVector) as (_ & H0 & H1 & _).
      unfold get in *. to_R.
      destruct index as [|[|index]]; [| |lia].
      * rewrite Rmax_right by lra. rewrite Rmin_right by lra. reflexivity.
      * rewrite Rmax_right by lra. rewrite Rmin_right by lra. reflexivity.
Qed.

(** ** Termination of a step, and the counters over a session *)

Section StepTermination.

Context {T : Type} {AT : Arith T} {TT : Transcendental T} {AM : ArithMore T}.

Lemma stepCartPole_done_any_action (s : CartPoleState T) (action action' : Z) :
  snd (stepCartPole s action) = snd (stepCartPole s action').
Proof. reflexivity. Qed.

Lemma loop_metrics (r r1 r2 : T) (h : Home T) :
  metrics (loop r r1 r2 h) =
  if snd (stepCartPole (stateRef h) 1) then metricsOnDone (metrics h)
  else metricsOnStep (metrics h).
Proof.
  destruct (loop_effect r r1 r2 h) as (action & [(Hd & _ & Em & _) | (Hd & _ & Em & _)]);
    rewrite (stepCartPole_done_any_action (stateRef h) action 1) in Hd;
    rewrite Hd; exact Em.
Qed.

Lemma handle_metrics_monotone (h : Home T) (e : Event T) :
  (best (metrics h) <= best (metrics (handle h e)) /\
   episodes (metrics h) <= episodes (metrics (handle h e)) <= episodes (metrics h) + 1)%Z.
Proof.
  destruct e as [r r1 r2 | | r1 r2 | m | rand | rand r1 r2]; cbn [handle].
  - destruct (isRunning h); [|lia].
    rewrite loop_metrics.
    destruct (snd (stepCartPole (stateRef h) 1));
      cbn [metricsOnDone metricsOnStep best episodes]; lia.
  - cbn [toggleRun metrics]. lia.
  - cbn [handleReset metrics metricsOnReset best episodes]. lia.
  - cbn [setControlMode metrics]. lia.
  - cbn [handleReinitializeNetwork metrics]. lia.
  - cbn [mount metrics]. lia.
Qed.

Lemma run_metrics_monotone (events : list (Event T)) :
  forall h : Home T,
    (best (metrics h) <= best (metrics (run h events)) /\
     episodes (metrics h) <= episodes (metrics (run h events))
       <= episodes (metrics h) + Z.of_nat (length events))%Z.
Proof.
  induction events as [|e es IH]; intros h; cbn [run fold_left length].
  - lia.
  - pose proof (handle_metrics_monotone h e) as H1.
    pose proof (IH (handle h e)) as H2. unfold run in H2. lia.
Qed.

End StepTermination.

(** X24.  Whether a frame ends the episode does not depend on the action
    taken in it, hence neither on the control mode, the network nor the
    draw: the position and the angle advance by the old velocities, so the
    counters after [loop] are those of a terminal step exactly when a step
    with any fixed action (here +1) is terminal.  An action only shows in
    the termination of the following frames. *)
Theorem loop_termination_independent_of_action :
  forall (T : Type) (AT : Arith T) (TT : Transcendental T) (AM : ArithMore T)
         (r r1 r2 : T) (h : Home T) (action : Z),
    snd (stepCartPole (stateRef h) action) = snd (stepCartPole (stateRef h) 1) /\
    metrics (loop r r1 r2 h) =
    (if snd (stepCartPole (stateRef h) 1) then metricsOnDone (metrics h)
     else metricsOnStep (metrics h)) /\
    (forall (m : ControlMode) (r' : T),
       metrics (loop r' r1 r2 (setControlMode m h)) = metrics (loop r r1 r2 h)).
Proof.
  intros T AT TT AM r r1 r2 h action.
  split; [apply stepCartPole_done_any_action|]. split; [apply loop_metrics|].
  intros m r'. rewrite !loop_metrics. reflexivity.
Qed.

(** X25.  The best score and the episode count are never lost: whatever
    frames and button presses follow, reset and network re-initialisation
    included, [best] and [episodes] do not decrease, and [episodes] grows by
    at most one per event. *)
Theorem home_best_never_decreases :
  forall (T : Type) (AT : Arith T) (TT : Transcendental T) (AM : ArithMore T)
         (h : Home T) (events : list (Event T)),
    (best (metrics h) <= best (metrics (run h events)))%Z /\
    (episodes (metrics h) <= episodes (metrics (run h events)))%Z /\
    (episodes (metrics (run h events)) <= episodes (metrics h) + Z.of_nat (length events))%Z.
Proof.
  intros T AT TT AM h events.
  pose proof (run_metrics_monotone events h) as H. lia.
Qed.

(** ** A NaN state in binary64 *)

Lemma abs_nan (v : float) : PrimFloat.is_nan v = true -> PrimFloat.is_nan (abs v) = true.
Proof. rewrite !is_nan_SF, abs_spec. intros ->. reflexivity. Qed.

(** X26.  In binary64 a NaN state is never terminal: if the position and
    the angle are NaN, the step returns [done = false] whatever the action
    and whatever [Math.sin] and [Math.cos] return, and the next position and
    angle are NaN again, so the episode cannot end by itself (the
    comparisons with the limits are false on NaN). *)
Theorem stepCartPole_nan_never_terminal :
  forall (fexp ftanh fsin fcos : float -> float) (s : CartPoleState float) (action : Z),
    PrimFloat.is_nan (x s) = true ->
    PrimFloat.is_nan (theta s) = true ->
    let result :=
      @stepCartPole float Arith_float (Transcendental_float fexp ftanh fsin fcos) s action in
    snd result = false /\
    PrimFloat.is_nan (x (fst result)) = true /\
    PrimFloat.is_nan (theta (fst result)) = true.
Proof.
  intros fexp ftanh fsin fcos s action Hx Ht result.
  unfold result, stepCartPole. cbv zeta. cbn [fst snd x theta].
  cbn [num_add num_ltb num_abs Arith_float].
  pose proof (@add_nan_l (x s) (num_mul tau (xDot s)) Hx) as Hx'.
  pose proof (@add_nan_l (theta s) (num_mul tau (thetaDot s)) Ht) as Ht'.
  split; [|split; assumption].
  rewrite (@ltb_nan_r _ _ (@abs_nan _ Hx')), (@ltb_nan_r _ _ (@abs_nan _ Ht')). reflexivity.
Qed.

Lemma stepCartPole_nan_never_terminal_witness :
  let s := {| x := PrimFloat.nan; xDot := 0%float; theta := PrimFloat.nan; thetaDot := 0%float |} in
  snd (@stepCartPole float Arith_float
         (Transcendental_float (fun v => v) (fun v => v) (fun v => v) (fun v => v)) s 1) = false.
Proof.
  intros s.
  exact (proj1 (@stepCartPole_nan_never_terminal (fun v => v) (fun v => v) (fun v => v)
                  (fun v => v) s 1%Z eq_refl eq_refl)).
Defined.

(** ** A session that stays in neural mode *)

Section NeuralSession.

Context {T : Type} {AT : Arith T} {TT : Transcendental T} {AM : ArithMore T}.

Lemma loop_neural_sync (r r1 r2 : T) (h : Home T) :
  NeuralSync h -> NeuralSync (loop r r1 r2 h).
Proof.
  intros (Em & [net En] & Hlen & Hlast). unfold NeuralSync, loop.
  rewrite Em, En.
  destruct (forwardNetwork net (stateToVector (stateRef h))) as [hid pr].
  destruct (stepCartPole (stateRef h) _) as [next done]. destruct done;
    cbn [controlMode networkRef trajectoryRef trainingStats metrics].
  - split; [reflexivity|]. split; [eexists; reflexivity|].
    cbn [metricsOnDone steps last length updateStats lastReturn].
    split; [reflexivity|].
    rewrite length_app. cbn [length].
    f_equal. lia.
  - split; [reflexivity|]. split; [exists net; reflexivity|].
    cbn [metricsOnStep steps last]. split; [|exact Hlast].
    rewrite length_app. cbn [length]. lia.
Qed.

Lemma handle_neural_sync (h : Home T) (e : Event T) :
  neuralEvent e -> NeuralSync h -> NeuralSync (handle h e).
Proof.
  intros He Hs.
  destruct e as [r r1 r2 | | r1 r2 | m | rand | rand r1 r2]; cbn [handle neuralEvent] in *.
  - destruct (isRunning h); [now apply loop_neural_sync | exact Hs].
  - exact Hs.
  - destruct Hs as (Em & [net En] & Hlen & Hlast).
    unfold NeuralSync, handleReset.
    cbn [controlMode networkRef trajectoryRef trainingStats metrics metricsOnReset
         steps last length].
    split; [exact Em|]. split; [exists net; exact En|]. split; [reflexivity | exact Hlast].
  - subst m. destruct Hs as (Em & [net En] & Hlen & Hlast).
    unfold NeuralSync, setControlMode.
    cbn [controlMode networkRef trajectoryRef trainingStats metrics ControlMode_eqb].
    split; [reflexivity|]. split; [exists net; exact En|]. split; assumption.
  - contradiction.
  - destruct Hs as (Em & [net En] & Hlen & Hlast).
    unfold NeuralSync, mount.
    cbn [controlMode networkRef trajectoryRef trainingStats metrics].
    split; [exact Em|]. split; [eexists; reflexivity|]. split; assumption.
Qed.

Lemma run_neural_sync (events : list (Event T)) :
  forall h : Home T,
    Forall neuralEvent events -> NeuralSync h -> NeuralSync (run h events).
Proof.
  induction events as [|e es IH]; intros h He Hs; cbn [run fold_left].
  - exact Hs.
  - inversion He as [|? ? H1 H2]; subst.
    apply (IH (handle h e)); [assumption | now apply handle_neural_sync].
Qed.

End NeuralSession.

(** X27.  In a session that stays in neural mode with its network (the
    page as mounted, then any frames, starts, pauses and resets, but no
    switch to another controller and no re-initialisation), the trajectory
    holds exactly one record per step of the running episode, and the
    return the trainer last learned from and reports as [lastReturn] is the
    survival time shown as [last]. *)
Theorem neural_session_return_is_survival_time :
  forall (T : Type) (AT : Arith T) (TT : Transcendental T) (AM : ArithMore T)
         (window : bool) (r1 r2 : T) (rand : nat -> T) (r1' r2' : T)
         (events : list (Event T)),
    Forall neuralEvent events ->
    let h := run (mount rand r1' r2' (initialHome window r1 r2)) events in
    controlMode h = neural /\
    Z.of_nat (length (trajectoryRef h)) = steps (metrics h) /\
    lastReturn (trainingStats h) = num_of_Z (last (metrics h)).
Proof.
  intros T AT TT AM window r1 r2 rand r1' r2' events He h.
  assert (H0 : NeuralSync (mount rand r1' r2' (initialHome window r1 r2))).
  { unfold NeuralSync, mount, initialHome.
    cbn [controlMode networkRef trajectoryRef trainingStats metrics initialMetrics
         steps last length lastReturn].
    split; [reflexivity|]. split; [eexists; reflexivity|]. split; reflexivity. }
  destruct (run_neural_sync He H0) as (Em & _ & Hlen & Hlast).
  split; [exact Em|]. split; [exact Hlen | exact Hlast].
Qed.

Lemma neural_session_return_is_survival_time_witness :
  let events := [ToggleRun; Frame (1 / 2) (1 / 4) (3 / 4); Frame (1 / 8) (1 / 2) (1 / 2);
                 SetControlMode neural; Reset (1 / 3) (2 / 3)]%R in
  let h := run (mount (fun _ => 1 / 2) (1 / 2) (1 / 2) (initialHome true (1 / 2) (1 / 2))) events in
  Forall neuralEvent events /\
  lastReturn (trainingStats h) = IZR (last (metrics h)).
Proof.
  intros events h.
  assert (He : Forall neuralEvent events).
  { unfold events. repeat (apply Forall_cons; [cbn [neuralEvent]; first [exact I | reflexivity]|]).
    apply Forall_nil. }
  split; [exact He|].
  exact (proj2 (proj2 (@neural_session_return_is_survival_time R _ _ _ true _ _ _ _ _ events He))).
Defined.

(** ** The counters at a terminal step and at a manual reset *)

(** C9.  In every reachable metrics state (where the running reward equals
    the running step count and [last <= best]): when the step [loop] takes
    is terminal (the flag is the same for every action), [loop] adds one to
    the episode count, sets [last] to the finished episode's step count
    [steps + 1], sets [best] to the maximum of the previous [best] and that
    count, and zeroes the running counters; when it is not, [loop] adds one
    to the running counters and leaves the others; [handleReset] zeroes the
    running counters and leaves [episodes], [best] and [last] as they are.
    The metrics stay reachable.  This holds in any arithmetic. *)
Theorem metrics_on_done_and_reset :
  forall (T : Type) (AT : Arith T) (TT : Transcendental T) (AM : ArithMore T)
         (h : Home T) (r r1 r2 : T),
    reachable (metrics h) ->
    let m := metrics h in
    ((0 <= steps m)%Z /\ totalReward m = steps m /\ (0 <= last m <= best m)%Z) /\
    (forall action : Z,
       snd (stepCartPole (stateRef h) action) = true ->
       let m' := metrics (loop r r1 r2 h) in
       episodes m' = (episodes m + 1)%Z /\
       last m' = (steps m + 1)%Z /\
       best m' = Z.max (best m) (steps m + 1) /\
       steps m' = 0%Z /\
       totalReward m' = 0%Z) /\
    (forall action : Z,
       snd (stepCartPole (stateRef h) action) = false ->
       let m' := metrics (loop r r1 r2 h) in
       steps m' = (steps m + 1)%Z /\
       totalReward m' = (totalReward m + 1)%Z /\
       episodes m' = episodes m /\
       best m' = best m /\
       last m' = last m) /\
    (let m' := metrics (handleReset r1 r2 h) in
     steps m' = 0%Z /\
     totalReward m' = 0%Z /\
     episodes m' = episodes m /\
     best m' = best m /\
     last m' = last m) /\
    reachable (metrics (loop r r1 r2 h)) /\
    reachable (metrics (handleReset r1 r2 h)).
Proof.
  intros T AT TT AM h r r1 r2 Hr m.
  destruct (reachable_invariant Hr) as (H1 & H2 & H3 & H4). fold m in H1, H2, H3, H4.
  split; [repeat split; lia|].
  split; [|split; [|split; [|split]]].
  - intros action Hd m'. unfold m'. rewrite loop_metrics.
    rewrite <- (stepCartPole_done_any_action (stateRef h) action 1), Hd.
    cbn [metricsOnDone episodes last best steps totalReward]. repeat split.
  - intros action Hd m'. unfold m'. rewrite loop_metrics.
    rewrite <- (stepCartPole_done_any_action (stateRef h) action 1), Hd.
    cbn [metricsOnStep episodes last best steps totalReward]. repeat split.
  - cbn [handleReset metrics metricsOnReset episodes last best steps totalReward].
    repeat split.
  - rewrite loop_metrics. apply reach_step with (metrics h); [exact Hr|].
    destruct (snd (stepCartPole (stateRef h) 1)); constructor.
  - cbn [handleReset metrics]. apply reach_step with (metrics h); [exact Hr | constructor].
Qed.

(** The claim on a page two steps into an episode, with the cart about to
    leave the track. *)
Lemma metrics_on_done_and_reset_witness :
  let h :=
    {| isRunning := true;
       controlMode := heuristic;
       stateRef := {| x := 239 / 100; xDot := 1; theta := 0; thetaDot := 0 |};
       metrics := metricsOnStep (metricsOnStep initialMetrics);
       networkRef := None;
       activations := zeroActivations;
       trajectoryRef := [];
       trainingStats := {| averageReturn := 0; lastReturn := 0 |} |} in
  reachable (metrics h) /\
  snd (stepCartPole (stateRef h) 1) = true /\
  (let m' := metrics (loop (1 / 2) (1 / 2) (1 / 2) h) in
   episodes m' = 1%Z /\ last m' = 3%Z /\ best m' = 3%Z /\ steps m' = 0%Z /\
   totalReward m' = 0%Z) /\
  (let m' := metrics (handleReset (1 / 2) (1 / 2) h) in
   steps m' = 0%Z /\ totalReward m' = 0%Z /\ episodes m' = 0%Z /\ best m' = 0%Z /\
   last m' = 0%Z).
Proof.
  intros h.
  assert (Hr : reachable (metrics h)).
  { unfold h. cbn [metrics]. repeat (eapply reach_step; [|constructor]). apply reach_init. }
  assert (Hd : snd (stepCartPole (stateRef h) 1) = true).
  { apply stepCartPole_done. left.
    destruct (stepCartPole_position (stateRef h) 1) as [Ex _]. rewrite Ex.
    unfold h. cbn [stateRef x xDot]. rewrite Rabs_pos_eq by lra. lra. }
  destruct (@metrics_on_done_and_reset R _ _ _ h (1 / 2) (1 / 2) (1 / 2) Hr)
    as (_ & Hdone & _ & Hreset & _).
  split; [exact Hr|]. split; [exact Hd|].
  split; [exact (Hdone 1%Z Hd) | exact Hreset].
Defined.
